(** * WakeOnLan: the address parsers, the magic packet and the sender

    A shallow embedding of [wake_on_lan.c] and [WakeOnLan.c], and the
    properties of the address parsers, of the packet built by
    [wake_on_lan], of its error reporting and of the command line
    program. *)

From Stdlib Require Import ZArith String Ascii Bool Lia.
From stdpp Require Import base list.

Local Open Scope Z_scope.

(** ** C characters and strings *)

(** A C [char] is modelled by its code. Every comparison of the source is
    against a 7-bit character, so the signedness of [char] plays no role. *)
Definition chr (a : ascii) : Z := Z.of_N (N_of_ascii a).

(** A [const char *] argument is the sequence of character codes stored
    in memory, followed by the terminating NUL: reading at or after the
    end of the list yields 0. *)
Definition cstr (s : string) : list Z := map chr (list_ascii_of_string s).

Definition char_at (p : list Z) (i : nat) : Z := nth i p 0.

(** [p + i]: the string that starts [i] characters further. *)
Definition ptr_add (p : list Z) (i : nat) : list Z := drop i p.

Definition UINTMAX_MAX : Z := 2 ^ 64 - 1.
Definition to_uint8 (x : Z) : Z := x mod 2 ^ 8.
Definition to_uint16 (x : Z) : Z := x mod 2 ^ 16.
Definition to_uint32 (x : Z) : Z := x mod 2 ^ 32.
Definition to_uint64 (x : Z) : Z := x mod 2 ^ 64.

(** ** The C library function [strtoumax] (ISO C 7.8.2.3, 7.22.1.4)

    White space is skipped, an optional sign is read, then the longest
    run of digits of the base; base 0 selects hexadecimal after [0x],
    octal after [0] and decimal otherwise. The result is the value
    together with the number of characters consumed ([endptr - nptr]);
    when no digit can be read the value is 0 and nothing is consumed. A
    value that does not fit saturates to [UINTMAX_MAX]. *)

Definition isspace (c : Z) : bool :=
  (c =? 32) || ((9 <=? c) && (c <=? 13)).

Definition digit_val (c : Z) : option Z :=
  if (chr "0" <=? c) && (c <=? chr "9") then Some (c - chr "0")
  else if (chr "a" <=? c) && (c <=? chr "z") then Some (c - chr "a" + 10)
  else if (chr "A" <=? c) && (c <=? chr "Z") then Some (c - chr "A" + 10)
  else None.

Definition is_digit_of (base : Z) (c : Z) : bool :=
  match digit_val c with
  | Some d => d <? base
  | None => false
  end.

Fixpoint skip_space (p : list Z) : nat :=
  match p with
  | c :: p' => if isspace c then S (skip_space p') else O
  | [] => O
  end.

(** The run of digits: the accumulated value and the number of digits. *)
Fixpoint digits_run (base : Z) (p : list Z) (acc : Z) : Z * nat :=
  match p with
  | c :: p' =>
      match digit_val c with
      | Some d =>
          if d <? base
          then let '(v, n) := digits_run base p' (acc * base + d) in (v, S n)
          else (acc, O)
      | None => (acc, O)
      end
  | [] => (acc, O)
  end.

Definition strtoumax (nptr : list Z) (base : Z) : Z * nat :=
  if negb ((base =? 0) || ((2 <=? base) && (base <=? 36))) then (0, O)
  else
    let ws := skip_space nptr in
    let p1 := ptr_add nptr ws in
    let c0 := char_at p1 0 in
    let neg := c0 =? chr "-" in
    let sg := if (c0 =? chr "-") || (c0 =? chr "+") then 1%nat else 0%nat in
    let p2 := ptr_add p1 sg in
    let has_0x :=
      (char_at p2 0 =? chr "0")
      && ((char_at p2 1 =? chr "x") || (char_at p2 1 =? chr "X"))
      && is_digit_of 16 (char_at p2 2) in
    let '(b, pre) :=
      if ((base =? 0) || (base =? 16)) && has_0x then (16, 2%nat)
      else if base =? 0
           then (if char_at p2 0 =? chr "0" then (8, 0%nat) else (10, 0%nat))
           else (base, 0%nat) in
    let '(v, n) := digits_run b (ptr_add p2 pre) 0 in
    match n with
    | O => (0, O)
    | _ =>
        let r := if UINTMAX_MAX <? v then UINTMAX_MAX
                 else if neg then to_uint64 (- v) else v in
        (r, (ws + sg + pre + n)%nat)
    end.

(** ** [ip_cstr_to_number] *)

(** The state of the scanning loop: the array [ip_octets] and the
    counter [octet]. [part_at] is not a variable of the source: it keeps
    the index [i] at which each part was read, for the statements about
    where parts may start. *)
Record ip_scan := { ip_octets : list Z; octet : nat; part_at : list nat }.

(** One run of the [for] loop from index [i]. Every iteration that
    continues asks [i < sizeof_ip] and leaves [i] larger, so
    [sizeof_ip - i] iterations are always enough ([ip_loop_fuel]). *)
Fixpoint ip_loop (fuel : nat) (ip : list Z) (sizeof_ip : nat) (base : Z)
    (i : nat) (st : ip_scan) : ip_scan :=
  match fuel with
  | O => st
  | S fuel' =>
      let c := char_at ip i in
      if (i <? sizeof_ip)%nat && negb (c =? 0) && (octet st <? 4)%nat then
        if (chr "0" <=? c) && (chr "9" >=? c) then
          let '(v, consumed) := strtoumax (ptr_add ip i) base in
          let st' := {| ip_octets := <[octet st := to_uint32 v]> (ip_octets st);
                        octet := S (octet st);
                        part_at := part_at st ++ [i] |} in
          let i' := (i + consumed)%nat in
          if negb (chr "." =? char_at ip i') then st'
          else ip_loop fuel' ip sizeof_ip base (S i') st'
        else ip_loop fuel' ip sizeof_ip base (S i) st
      else st
  end.

Definition ip_scan_init : ip_scan :=
  {| ip_octets := [0; 0; 0; 0]; octet := 0; part_at := [] |}.

Definition ip_scan_of (ip : list Z) (sizeof_ip : nat) (base : Z) : ip_scan :=
  ip_loop sizeof_ip ip sizeof_ip base 0 ip_scan_init.

(** [ip_octets[k]] *)
Definition oct (st : ip_scan) (k : nat) : Z := nth k (ip_octets st) 0.

(** The [switch]: the sums are computed on [uint32_t] and the result is
    widened to [int64_t]. *)
Definition ip_assemble (st : ip_scan) : Z :=
  match octet st with
  | 4%nat => to_uint32 (to_uint32 (to_uint32 (to_uint32 (Z.shiftl (oct st 0) 24)
                                   + to_uint32 (Z.shiftl (oct st 1) 16))
                        + to_uint32 (Z.shiftl (oct st 2) 8))
             + oct st 3)
  | 3%nat => to_uint32 (to_uint32 (to_uint32 (Z.shiftl (oct st 0) 24)
                        + to_uint32 (Z.shiftl (oct st 1) 16))
             + oct st 2)
  | 2%nat => to_uint32 (to_uint32 (Z.shiftl (oct st 0) 24) + oct st 1)
  | 1%nat => oct st 0
  | _ => -1
  end.

Definition ip_cstr_to_number (ip : string) (sizeof_ip : nat) (base : Z) : Z :=
  ip_assemble (ip_scan_of (cstr ip) sizeof_ip base).

(** The parts collected, in the order read. *)
Definition ip_parts (ip : string) (sizeof_ip : nat) (base : Z) : list Z :=
  let st := ip_scan_of (cstr ip) sizeof_ip base in
  take (octet st) (ip_octets st).

(** The indices of [ip] at which the parts collected start. *)
Definition ip_part_starts (ip : string) (sizeof_ip : nat) (base : Z) : list nat :=
  part_at (ip_scan_of (cstr ip) sizeof_ip base).

(** ** [mac_cstr_to_number] *)

(** The scanning loop: the accumulator [no] and the counter
    [hex_letters]. Every iteration adds one to [i] and asks [i < 17], so
    [17 - i] iterations are always enough ([mac_loop_fuel]). The
    accumulator stays below [16 ^ 12], far from the range of [int64_t]. *)
Fixpoint mac_loop (fuel : nat) (mac_cstr : list Z) (i : nat)
    (no : Z) (hex_letters : nat) : Z * nat :=
  match fuel with
  | O => (no, hex_letters)
  | S fuel' =>
      let c := char_at mac_cstr i in
      if (i <? 17)%nat && (hex_letters <? 12)%nat && negb (c =? 0) then
        if (chr "0" <=? c) && (chr "9" >=? c) then
          mac_loop fuel' mac_cstr (S i)
            (Z.shiftl no 4 + (c - chr "0")) (S hex_letters)
        else if (chr "A" <=? c) && (chr "F" >=? c) then
          mac_loop fuel' mac_cstr (S i)
            (Z.shiftl no 4 + (c + 10 - chr "A")) (S hex_letters)
        else if (chr "a" <=? c) && (chr "f" >=? c) then
          mac_loop fuel' mac_cstr (S i)
            (Z.shiftl no 4 + (c + 10 - chr "a")) (S hex_letters)
        else mac_loop fuel' mac_cstr (S i) no hex_letters
      else (no, hex_letters)
  end.

Definition mac_cstr_to_number (mac_cstr : string) : Z :=
  let '(no, hex_letters) := mac_loop 17 (cstr mac_cstr) 0 0 0 in
  if negb (12 =? hex_letters)%nat then -1 else no.

(** ** The magic packet *)

Definition GET_BYTE_0 (no : Z) : Z := Z.land (Z.shiftr (to_uint8 no) 0) 255.
Definition GET_BYTE_1 (no : Z) : Z := Z.land (Z.shiftr (to_uint16 no) 8) 255.
Definition GET_BYTE_2 (no : Z) : Z := Z.land (Z.shiftr (to_uint32 no) 16) 255.
Definition GET_BYTE_3 (no : Z) : Z := Z.land (Z.shiftr (to_uint32 no) 24) 255.
Definition GET_BYTE_4 (no : Z) : Z := Z.land (Z.shiftr (to_uint64 no) 32) 255.
Definition GET_BYTE_5 (no : Z) : Z := Z.land (Z.shiftr (to_uint64 no) 40) 255.

(** Conversion to [char], taken as signed; storing a [char] into a
    [uint8_t] gives back the byte whichever the signedness. *)
Definition to_char (x : Z) : Z := (x + 128) mod 256 - 128.

(** [data[k] = v] on the array [uint8_t data[102]]. *)
Definition store (data : list Z) (k : Z) (v : Z) : list Z :=
  <[Z.to_nat k := to_uint8 v]> data.

(** The array as declared: its first six elements are set, the rest is
    whatever the stack holds ([junk], cut or padded to the 102 elements
    of the array). *)
Definition data_init (junk : list Z) : list Z :=
  let data := take 102 (junk ++ replicate 102 0) in
  let data := store data 0 255 in
  let data := store data 1 255 in
  let data := store data 2 255 in
  let data := store data 3 255 in
  let data := store data 4 255 in
  let data := store data 5 255 in
  data.

(** [for(size_t i = 1; i <= 16; i++)]: sixteen iterations. *)
Fixpoint fill_loop (fuel : nat) (i : Z) (mac5 mac4 mac3 mac2 mac1 mac0 : Z)
    (data : list Z) : list Z :=
  match fuel with
  | O => data
  | S fuel' =>
      if i <=? 16 then
        let index := to_char (i * 6) in
        let data := store data (index + 0) mac5 in
        let data := store data (index + 1) mac4 in
        let data := store data (index + 2) mac3 in
        let data := store data (index + 3) mac2 in
        let data := store data (index + 4) mac1 in
        let data := store data (index + 5) mac0 in
        fill_loop fuel' (i + 1) mac5 mac4 mac3 mac2 mac1 mac0 data
      else data
  end.

Definition fill_packet (mac : Z) (data : list Z) : list Z :=
  let mac5 := to_char (GET_BYTE_5 mac) in
  let mac4 := to_char (GET_BYTE_4 mac) in
  let mac3 := to_char (GET_BYTE_3 mac) in
  let mac2 := to_char (GET_BYTE_2 mac) in
  let mac1 := to_char (GET_BYTE_1 mac) in
  let mac0 := to_char (GET_BYTE_0 mac) in
  fill_loop 16 1 mac5 mac4 mac3 mac2 mac1 mac0 data.

(** [htonl], [htons]: the bytes of the result as they lie in memory. *)
Definition htonl (x : Z) : list Z :=
  [to_uint32 x / 2 ^ 24 mod 256; to_uint32 x / 2 ^ 16 mod 256;
   to_uint32 x / 2 ^ 8 mod 256; to_uint32 x mod 256].
Definition htons (x : Z) : list Z :=
  [to_uint16 x / 2 ^ 8 mod 256; to_uint16 x mod 256].

(** ** [wake_on_lan]: types *)

(** The two targets selected by [#ifdef _WIN32]. *)
Inductive platform := WIN32 | POSIX.

Inductive wake_on_lan_errors_t :=
| WAKE_ON_LAN_ERRORS_NONE
| WAKE_ON_LAN_ERRORS_UNKNOWN
| WAKE_ON_LAN_ERRORS_IP
| WAKE_ON_LAN_ERRORS_MAC
| WAKE_ON_LAN_ERRORS_WSA_STARTUP
| WAKE_ON_LAN_ERRORS_WINSOCK
| WAKE_ON_LAN_ERRORS_SOCKET_CREATION
| WAKE_ON_LAN_ERRORS_SOCKET_OPTION
| WAKE_ON_LAN_ERRORS_SEND
| WAKE_ON_LAN_ERRORS_SOCKET_CLOSE.

(** The value of an enumerator. *)
Definition error_code (e : wake_on_lan_errors_t) : Z :=
  match e with
  | WAKE_ON_LAN_ERRORS_NONE => 0
  | WAKE_ON_LAN_ERRORS_UNKNOWN => 1
  | WAKE_ON_LAN_ERRORS_IP => 2
  | WAKE_ON_LAN_ERRORS_MAC => 3
  | WAKE_ON_LAN_ERRORS_WSA_STARTUP => 4
  | WAKE_ON_LAN_ERRORS_WINSOCK => 5
  | WAKE_ON_LAN_ERRORS_SOCKET_CREATION => 6
  | WAKE_ON_LAN_ERRORS_SOCKET_OPTION => 7
  | WAKE_ON_LAN_ERRORS_SEND => 8
  | WAKE_ON_LAN_ERRORS_SOCKET_CLOSE => 9
  end.

Record wake_on_lan_t := {
  ip_v4 : Z;
  mac : Z;
  return_value : wake_on_lan_errors_t;
  last_error : Z
}.

(** The calls into the operating system that can fail. *)
Inductive syscall :=
| SysWSAStartup | SysSocket | SysSetsockopt | SysSendto | SysClosesocket.

(** What the operating system answers during one call of [wake_on_lan];
    each of its functions is called at most once. [stack_junk] is the
    content of the stack where [data] is allocated. *)
Record os := {
  WSAStartup_result : Z;
  wsaData_wVersion : Z;
  socket_result : Z;
  setsockopt_result : Z;
  sendto_result : Z;
  closesocket_result : Z;
  WSAGetLastError : syscall -> Z;
  errno : syscall -> Z;
  stack_junk : list Z
}.

(** What a call of [wake_on_lan] does, in order: the functions it calls,
    with their arguments, and the fields of [*wol] it assigns. *)
Inductive event :=
| Call_ip_cstr_to_number (ip : string) (sizeof_ip : nat) (base : Z)
| Call_mac_cstr_to_number (mac_cstr : string)
| Call_WSAStartup (wVersionRequested : Z)
| Call_socket
| Call_setsockopt (sockfd : Z) (optval : Z)
| Call_sendto (sockfd : Z) (data : list Z) (data_length : nat)
    (sin_addr : list Z) (sin_port : list Z)
| Call_closesocket (sockfd : Z)
| Call_WSACleanup
| Call_close (sockfd : Z)
| Set_ip_v4 (v : Z)
| Set_mac (v : Z)
| Set_last_error (v : Z)
| Set_return_value (v : wake_on_lan_errors_t).

Definition INVALID_SOCKET : Z := 2 ^ 64 - 1.
Definition SOCKET_ERROR : Z := -1.
Definition MAKEWORD (low high : Z) : Z := Z.lor (to_uint8 low) (Z.shiftl (to_uint8 high) 8).
Definition LOBYTE (w : Z) : Z := Z.land w 255.
Definition HIBYTE (w : Z) : Z := Z.land (Z.shiftr w 8) 255.

(** ** [wake_on_lan]: the function *)

(** The local variables, the record behind [wol] ([None] for [NULL]) and
    the events so far. *)
Record frame := {
  f_wol : option wake_on_lan_t;
  f_return_value : wake_on_lan_errors_t;
  f_sockfd : Z;
  f_data : list Z;
  f_trace : list event
}.

(** A statement of the [do { } while(0)] block: it changes the frame and
    either goes on ([Some]) or leaves the block by [break] ([None]). *)
Definition stmt (A : Type) : Type := frame -> option A * frame.

Definition ret {A} (a : A) : stmt A := fun f => (Some a, f).
Definition bind {A B} (m : stmt A) (k : A -> stmt B) : stmt B :=
  fun f => match m f with
           | (Some a, f') => k a f'
           | (None, f') => (None, f')
           end.
Definition break {A} : stmt A := fun f => (None, f).

Declare Scope stmt_scope.
Delimit Scope stmt_scope with stmt.
Notation "x <- m ;; k" := (bind m (fun x => k))
  (at level 100, m at next level, right associativity) : stmt_scope.
Notation "m ;; k" := (bind m (fun _ => k))
  (at level 100, right associativity) : stmt_scope.

Definition emit (e : event) : stmt unit :=
  fun f => (Some tt, {| f_wol := f_wol f; f_return_value := f_return_value f;
                        f_sockfd := f_sockfd f; f_data := f_data f;
                        f_trace := f_trace f ++ [e] |}).

Definition set_return (e : wake_on_lan_errors_t) : stmt unit :=
  fun f => (Some tt, {| f_wol := f_wol f; f_return_value := e;
                        f_sockfd := f_sockfd f; f_data := f_data f;
                        f_trace := f_trace f |}).

Definition set_sockfd (fd : Z) : stmt unit :=
  fun f => (Some tt, {| f_wol := f_wol f; f_return_value := f_return_value f;
                        f_sockfd := fd; f_data := f_data f;
                        f_trace := f_trace f |}).

Definition set_data (d : list Z) : stmt unit :=
  fun f => (Some tt, {| f_wol := f_wol f; f_return_value := f_return_value f;
                        f_sockfd := f_sockfd f; f_data := d;
                        f_trace := f_trace f |}).

Definition get {A} (proj : frame -> A) : stmt A := fun f => (Some (proj f), f).

(** [if(wol) { wol->field = v; }] *)
Definition assign_wol (upd : wake_on_lan_t -> wake_on_lan_t) (e : event) : stmt unit :=
  fun f => match f_wol f with
           | Some r =>
               (Some tt, {| f_wol := Some (upd r); f_return_value := f_return_value f;
                            f_sockfd := f_sockfd f; f_data := f_data f;
                            f_trace := f_trace f ++ [e] |})
           | None => (Some tt, f)
           end.

Definition wol_set_ip_v4 (v : Z) : stmt unit :=
  assign_wol (fun r => {| ip_v4 := v; mac := mac r;
                          return_value := return_value r; last_error := last_error r |})
             (Set_ip_v4 v).
Definition wol_set_mac (v : Z) : stmt unit :=
  assign_wol (fun r => {| ip_v4 := ip_v4 r; mac := v;
                          return_value := return_value r; last_error := last_error r |})
             (Set_mac v).
Definition wol_set_last_error (v : Z) : stmt unit :=
  assign_wol (fun r => {| ip_v4 := ip_v4 r; mac := mac r;
                          return_value := return_value r; last_error := v |})
             (Set_last_error v).
Definition wol_set_return_value (v : wake_on_lan_errors_t) : stmt unit :=
  assign_wol (fun r => {| ip_v4 := ip_v4 r; mac := mac r;
                          return_value := v; last_error := last_error r |})
             (Set_return_value v).

(** [return_value = e; if(wol) { wol->last_error = v; } break;] *)
Definition fail {A} (e : wake_on_lan_errors_t) (v : Z) : stmt A :=
  (set_return e ;; wol_set_last_error v ;; break)%stmt.

Definition when (b : bool) (m : stmt unit) : stmt unit :=
  if b then m else ret tt.

Section WakeOnLan.

Variable target : platform.
Variable sys : os.

(** The body of the [do { } while(0)] block. *)
Definition wake_on_lan_block (ip_v4_cstr : string) (port : Z) (mac_cstr : string)
  : stmt unit :=
  (emit (Call_ip_cstr_to_number ip_v4_cstr 13 0) ;;
   let ip_v4 := ip_cstr_to_number ip_v4_cstr 13 0 in
   when (-1 =? ip_v4) (fail WAKE_ON_LAN_ERRORS_IP (-1)) ;;
   wol_set_ip_v4 (to_uint32 ip_v4) ;;
   emit (Call_mac_cstr_to_number mac_cstr) ;;
   let mac := mac_cstr_to_number mac_cstr in
   when (-1 =? mac) (fail WAKE_ON_LAN_ERRORS_MAC (-1)) ;;
   wol_set_mac mac ;;
   match target with
   | WIN32 =>
       let major := 2 in
       let minor := 2 in
       let wVersionRequested := MAKEWORD major minor in
       emit (Call_WSAStartup wVersionRequested) ;;
       when (negb (0 =? WSAStartup_result sys))
         (fail WAKE_ON_LAN_ERRORS_WSA_STARTUP (WSAGetLastError sys SysWSAStartup)) ;;
       let available_major := LOBYTE (wsaData_wVersion sys) in
       let available_minor := HIBYTE (wsaData_wVersion sys) in
       when (negb (available_major =? major) || negb (available_minor =? minor))
         (fail WAKE_ON_LAN_ERRORS_WINSOCK
            (Z.lor (Z.shiftl available_major 8) available_minor))
   | POSIX => ret tt
   end ;;
   emit Call_socket ;;
   set_sockfd (socket_result sys) ;;
   sockfd <- get f_sockfd ;;
   match target with
   | WIN32 =>
       when (INVALID_SOCKET =? sockfd)
         (fail WAKE_ON_LAN_ERRORS_SOCKET_CREATION (WSAGetLastError sys SysSocket))
   | POSIX =>
       when (0 >? sockfd)
         (fail WAKE_ON_LAN_ERRORS_SOCKET_CREATION (errno sys SysSocket))
   end ;;
   data <- get f_data ;;
   set_data (fill_packet mac data) ;;
   let optval := 1 in
   emit (Call_setsockopt sockfd optval) ;;
   match target with
   | WIN32 =>
       when (SOCKET_ERROR =? setsockopt_result sys)
         (fail WAKE_ON_LAN_ERRORS_SOCKET_OPTION (WSAGetLastError sys SysSetsockopt))
   | POSIX =>
       when (0 >? setsockopt_result sys)
         (fail WAKE_ON_LAN_ERRORS_SOCKET_OPTION (errno sys SysSetsockopt))
   end ;;
   data <- get f_data ;;
   let data_length := 102%nat in
   emit (Call_sendto sockfd data data_length (htonl ip_v4) (htons port)) ;;
   let sendto_result := sendto_result sys in
   match target with
   | WIN32 =>
       when (SOCKET_ERROR =? sendto_result)
         (fail WAKE_ON_LAN_ERRORS_SEND (WSAGetLastError sys SysSendto))
   | POSIX =>
       when (0 >? sendto_result)
         (fail WAKE_ON_LAN_ERRORS_SEND sendto_result)
   end ;;
   set_return WAKE_ON_LAN_ERRORS_NONE)%stmt.

(** What follows the block: the socket is closed and the result stored. *)
Definition wake_on_lan_epilogue : stmt unit :=
  (sockfd <- get f_sockfd ;;
   match target with
   | WIN32 =>
       when (negb (INVALID_SOCKET =? sockfd))
         (emit (Call_closesocket sockfd) ;;
          when (SOCKET_ERROR =? closesocket_result sys)
            (set_return WAKE_ON_LAN_ERRORS_SOCKET_CLOSE ;;
             wol_set_last_error (WSAGetLastError sys SysClosesocket))) ;;
       emit Call_WSACleanup
   | POSIX => emit (Call_close sockfd)
   end ;;
   return_value <- get f_return_value ;;
   wol_set_return_value return_value)%stmt.

Definition frame_init (wol : option wake_on_lan_t) : frame :=
  {| f_wol := wol;
     f_return_value := WAKE_ON_LAN_ERRORS_UNKNOWN;
     f_sockfd := match target with WIN32 => INVALID_SOCKET | POSIX => -1 end;
     f_data := data_init (stack_junk sys);
     f_trace := [] |}.

(** The frame when the function returns. *)
Definition wake_on_lan_run (wol : option wake_on_lan_t) (ip_v4_cstr : string)
    (port : Z) (mac_cstr : string) : frame :=
  let f := snd (wake_on_lan_block ip_v4_cstr port mac_cstr (frame_init wol)) in
  snd (wake_on_lan_epilogue f).

(** The value returned. *)
Definition wake_on_lan (wol : option wake_on_lan_t) (ip_v4_cstr : string)
    (port : Z) (mac_cstr : string) : wake_on_lan_errors_t :=
  f_return_value (wake_on_lan_run wol ip_v4_cstr port mac_cstr).

(** The record behind [wol] after the call. *)
Definition wake_on_lan_wol (wol : option wake_on_lan_t) (ip_v4_cstr : string)
    (port : Z) (mac_cstr : string) : option wake_on_lan_t :=
  f_wol (wake_on_lan_run wol ip_v4_cstr port mac_cstr).

(** The calls and assignments made, in order. *)
Definition wake_on_lan_trace (wol : option wake_on_lan_t) (ip_v4_cstr : string)
    (port : Z) (mac_cstr : string) : list event :=
  f_trace (wake_on_lan_run wol ip_v4_cstr port mac_cstr).

End WakeOnLan.

(** ** The command line program [WakeOnLan.c] *)

Module Cli.

Definition LF : string := String (ascii_of_nat 10) EmptyString.
Definition DQ : string := String (ascii_of_nat 34) EmptyString.

Definition no_error : string := "Execution successful" ++ LF.
Definition error_1 : string := "Unknown error" ++ LF.
Definition error_2 : string := "Failed to convert IP" ++ LF.
Definition error_3 : string := "Failed to parse hexadecimal MAC" ++ LF.
Definition error_4 : string := "WSAStartup failed" ++ LF.
Definition error_5 : string := "Could not find a usable version of Winsock.dll" ++ LF.
Definition error_6 : string := "Socket creation failed" ++ LF.
Definition error_7 : string := "Failed to set socket options" ++ LF.
Definition error_8 : string := "Failed to send packet" ++ LF.
Definition error_9 : string := "Failed to close socket" ++ LF.

Definition wake_on_lan_errors : list string :=
  [no_error; error_1; error_2; error_3; error_4; error_5; error_6; error_7;
   error_8; error_9].

Definition help_text : string :=
  "Sends a magic packet/Wake-On-LAN (WOL) packet to a network card of a computer to wake up the PC" ++ LF ++
  "wol.exe <-i <" ++ DQ ++ "192.168.178.255" ++ DQ ++ ">> <-m <" ++ DQ ++
  "FF:FF:FF:FF:FF:FF" ++ DQ ++ ">> [-m {60000}] [-h] [-s]" ++ LF ++
  "Parameters:" ++ LF ++
  " -i   Sets the IP address" ++ LF ++
  " -p   Sets the port" ++ LF ++
  " -m   Sets the MAC address" ++ LF ++
  " -h   Shows this help" ++ LF ++
  " -s   Mute output" ++ LF.

(** [strncpy(dst, src, n)] into a zeroed buffer of [n + 1] characters: the
    first [n] characters of [src], up to its end. *)
Fixpoint strncpy (src : string) (n : nat) : string :=
  match n, src with
  | S n', String a src' =>
      if chr a =? 0 then EmptyString else String a (strncpy src' n')
  | _, _ => EmptyString
  end.

(** The local variables of [main] that the argument loop sets. *)
Record locals := {
  ip : string;
  port : Z;
  mac : string;
  parameter_i : bool;
  parameter_m : bool;
  help : bool;
  silent : bool
}.

Definition locals_init : locals :=
  {| ip := EmptyString; port := 60000; mac := EmptyString;
     parameter_i := false; parameter_m := false; help := false; silent := false |}.

(** The argument loop, on the arguments from [argv[i]] on. An option that
    takes a value reads [argv[i + 1]]; when it is the last argument that
    is [argv[argc]], the null pointer, and the behaviour is undefined
    ([None]). *)
Fixpoint parse_args (argv : list string) (l : locals) : option locals :=
  match argv with
  | [] => Some l
  | arg :: rest =>
      if chr "-" =? char_at (cstr arg) 0 then
        let c := char_at (cstr arg) 1 in
        if c =? chr "i" then
          match rest with
          | value :: rest' =>
              parse_args rest'
                {| ip := strncpy value 29; port := port l; mac := mac l;
                   parameter_i := true; parameter_m := parameter_m l;
                   help := help l; silent := silent l |}
          | [] => None
          end
        else if c =? chr "p" then
          match rest with
          | value :: rest' =>
              parse_args rest'
                {| ip := ip l; port := to_uint16 (fst (strtoumax (cstr value) 10));
                   mac := mac l;
                   parameter_i := parameter_i l; parameter_m := parameter_m l;
                   help := help l; silent := silent l |}
          | [] => None
          end
        else if c =? chr "m" then
          match rest with
          | value :: rest' =>
              parse_args rest'
                {| ip := ip l; port := port l; mac := strncpy value 29;
                   parameter_i := parameter_i l; parameter_m := true;
                   help := help l; silent := silent l |}
          | [] => None
          end
        else if c =? chr "h" then
          parse_args rest
            {| ip := ip l; port := port l; mac := mac l;
               parameter_i := parameter_i l; parameter_m := parameter_m l;
               help := true; silent := silent l |}
        else if c =? chr "s" then
          parse_args rest
            {| ip := ip l; port := port l; mac := mac l;
               parameter_i := parameter_i l; parameter_m := parameter_m l;
               help := help l; silent := true |}
        else parse_args rest l
      else parse_args rest l
  end.

(** What [main] leaves behind: the value it returns, the value
    [wake_on_lan] returned when it was called, whether the help branch
    was taken, and the texts written to [stdout]. *)
Record outcome := {
  exit_code : Z;
  sender_result : option wake_on_lan_errors_t;
  help_shown : bool;
  stdout : list string
}.

(** [main]. The block of [if(parameter_i && parameter_m)] declares an
    [int return_value] of its own, [return_value_1] here; the
    [return_value] of the function body is the one returned. *)
Definition main (target : platform) (sys : os) (argv : list string)
  : option outcome :=
  match parse_args argv locals_init with
  | None => None
  | Some l =>
      let return_value := 1 in
      let '(sent, help, out) :=
        if parameter_i l && parameter_m l then
          let r := wake_on_lan target sys None (ip l) (port l) (mac l) in
          let return_value_1 := error_code r in
          let out :=
            if negb (0 =? return_value_1) then
              if (1 <=? return_value_1) && (9 >=? return_value_1) then
                if negb (silent l) then
                  ["Error: " ++ nth (Z.to_nat return_value_1) wake_on_lan_errors EmptyString
                   ++ LF]%string
                else []
              else []
            else [] in
          (Some r, help l, out)
        else (None, true, []) in
      let out :=
        if help then (if negb (silent l) then out ++ [help_text] else out)
        else out in
      Some {| exit_code := return_value; sender_result := sent;
              help_shown := help; stdout := out |}
  end.

End Cli.

(** ** Definitions used by the statements *)

(** The characters the parsers can look at: those before the
    terminating NUL. *)
Fixpoint c_content (p : list Z) : list Z :=
  match p with
  | c :: p' => if c =? 0 then [] else c :: c_content p'
  | [] => []
  end.

(** A decimal digit. *)
Definition isdigit (c : Z) : bool := (chr "0" <=? c) && (c <=? chr "9").

(** The positional sum of the parts of an address, before it is cut to
    32 bits. *)
Definition ip_sum (parts : list Z) : Z :=
  match parts with
  | [a; b; c; d] => a * 2 ^ 24 + b * 2 ^ 16 + c * 2 ^ 8 + d
  | [a; b; c] => a * 2 ^ 24 + b * 2 ^ 16 + c
  | [a; b] => a * 2 ^ 24 + b
  | [a] => a
  | _ => 0
  end.

(** The assembly rule as the specification words it, with bitwise or. *)
Definition ip_or_rule (parts : list Z) : Z :=
  match parts with
  | [a; b; c; d] =>
      Z.lor (Z.lor (Z.lor (Z.shiftl a 24) (Z.shiftl b 16)) (Z.shiftl c 8)) d
  | [a; b; c] => Z.lor (Z.lor (Z.shiftl a 24) (Z.shiftl b 16)) c
  | [a; b] => Z.lor (Z.shiftl a 24) b
  | [a] => a
  | _ => -1
  end.

(** Parts that fit the field the shorthand form gives them. *)
Definition ip_parts_in_range (parts : list Z) : bool :=
  match parts with
  | [a; b; c; d] => (a <? 2 ^ 8) && (b <? 2 ^ 8) && (c <? 2 ^ 8) && (d <? 2 ^ 8)
  | [a; b; c] => (a <? 2 ^ 8) && (b <? 2 ^ 8) && (c <? 2 ^ 16)
  | [a; b] => (a <? 2 ^ 8) && (b <? 2 ^ 24)
  | _ => true
  end.

(** The text of a decimal numeral, from its digits. *)
Definition numeral (ds : list Z) : list Z := map (fun d => chr "0" + d) ds.

(** The number a sequence of decimal digits writes. *)
Definition dec_value (ds : list Z) : Z :=
  fold_left (fun acc d => acc * 10 + d) ds 0.

(** The digits of a decimal numeral as people write it: at least one
    digit, and no zero in front of another digit (which would make
    [strtoumax] read the numeral as octal). *)
Definition dec_numeral (ds : list Z) : Prop :=
  Forall (fun d => 0 <= d <= 9) ds /\
  match ds with
  | [] => False
  | [_] => True
  | d :: _ => d <> 0
  end.

(** The shape of the state: four slots, at most four parts, one start
    index per part, every start inside the scan length. *)
Definition ip_scan_ok (n : nat) (st : ip_scan) : Prop :=
  length (ip_octets st) = 4%nat /\ (octet st <= 4)%nat /\
  length (part_at st) = octet st /\
  Forall (fun k => (k < n)%nat) (part_at st) /\
  Forall (fun v => 0 <= v < 2 ^ 32) (ip_octets st).

(** The value of a hexadecimal digit, as the three branches of the loop
    compute it. *)
Definition hex_val (c : Z) : option Z :=
  if (chr "0" <=? c) && (c <=? chr "9") then Some (c - chr "0")
  else if (chr "A" <=? c) && (c <=? chr "F") then Some (c + 10 - chr "A")
  else if (chr "a" <=? c) && (c <=? chr "f") then Some (c + 10 - chr "a")
  else None.

(** The characters the loop may look at: the first 17 of the text. *)
Definition mac_window (mac_cstr : string) : list Z :=
  take 17 (c_content (cstr mac_cstr)).

(** The hexadecimal digits among some characters, in order. *)
Definition hex_digits (l : list Z) : list Z := omap hex_val l.

(** The number written by a sequence of nibbles, the first one the most
    significant. *)
Definition nibbles_value (ds : list Z) : Z :=
  fold_left (fun acc d => acc * 16 + d) ds 0.

(** Upper case, on character codes, on characters and on texts. *)
Definition toupper (c : Z) : Z :=
  if (chr "a" <=? c) && (c <=? chr "z") then c - 32 else c.

Definition toupper_ascii (a : ascii) : ascii :=
  if (chr "a" <=? chr a) && (chr a <=? chr "z")
  then ascii_of_N (N_of_ascii a - 32) else a.

Fixpoint upcase (s : string) : string :=
  match s with
  | EmptyString => EmptyString
  | String a s' => String (toupper_ascii a) (upcase s')
  end.

(** The six bytes of a MAC number, the most significant first. *)
Definition mac_bytes (m : Z) : list Z :=
  [m / 2 ^ 40 mod 256; m / 2 ^ 32 mod 256; m / 2 ^ 24 mod 256;
   m / 2 ^ 16 mod 256; m / 2 ^ 8 mod 256; m mod 256].

(** The magic packet as the specification describes it. *)
Definition magic_packet (m : Z) : list Z :=
  replicate 6 255 ++ concat (replicate 16 (mac_bytes m)).

(** The number written by a sequence of bytes, the first one the most
    significant. *)
Definition bytes_value (bs : list Z) : Z :=
  fold_left (fun acc b => acc * 256 + b) bs 0.

(** The calls among the events, as opposed to the assignments to [*wol]. *)
Definition is_call (e : event) : bool :=
  match e with
  | Set_ip_v4 _ | Set_mac _ | Set_last_error _ | Set_return_value _ => false
  | _ => true
  end.

(** The calls of [sendto]. *)
Definition is_sendto (e : event) : bool :=
  match e with Call_sendto _ _ _ _ _ => true | _ => false end.

(** The steps that set up or use the socket: the start of the
    networking subsystem, the creation of the socket, its option, the
    send, and the closing of a socket that exists. The calls a failed
    parse still reaches, [WSACleanup] and [close(-1)], are not among
    them. *)
Definition is_socket_step (e : event) : bool :=
  match e with
  | Call_WSAStartup _ | Call_socket | Call_setsockopt _ _
  | Call_sendto _ _ _ _ _ | Call_closesocket _ => true
  | Call_close sockfd => 0 <=? sockfd
  | _ => false
  end.

(** The test the code makes on the value of [sendto]. *)
Definition send_error (target : platform) (sendto_result : Z) : bool :=
  match target with
  | WIN32 => SOCKET_ERROR =? sendto_result
  | POSIX => 0 >? sendto_result
  end.

(** What the code stores in [last_error] when the send fails. *)
Definition send_diagnostic (target : platform) (sys : os) : Z :=
  match target with
  | WIN32 => WSAGetLastError sys SysSendto
  | POSIX => sendto_result sys
  end.

(** An operating system where every call succeeds. *)
Definition os_ok : os :=
  {| WSAStartup_result := 0; wsaData_wVersion := 514; socket_result := 3;
     setsockopt_result := 0; sendto_result := 102; closesocket_result := 0;
     WSAGetLastError := fun _ => 0; errno := fun _ => 0; stack_junk := [] |}.

(** Every call succeeds but the closing of the socket. *)
Definition os_close_fails : os :=
  {| WSAStartup_result := 0; wsaData_wVersion := 514; socket_result := 3;
     setsockopt_result := 0; sendto_result := 102; closesocket_result := -1;
     WSAGetLastError := fun _ => 10038; errno := fun _ => 0; stack_junk := [] |}.

(** The send fails, with [ENETUNREACH] (101) in [errno]. *)
Definition os_send_fails : os :=
  {| WSAStartup_result := 0; wsaData_wVersion := 514; socket_result := 3;
     setsockopt_result := 0; sendto_result := -1; closesocket_result := 0;
     WSAGetLastError := fun _ => 10051; errno := fun _ => 101; stack_junk := [] |}.

(** The send transmits 50 of the 102 bytes. *)
Definition os_short_send : os :=
  {| WSAStartup_result := 0; wsaData_wVersion := 514; socket_result := 3;
     setsockopt_result := 0; sendto_result := 50; closesocket_result := 0;
     WSAGetLastError := fun _ => 0; errno := fun _ => 0; stack_junk := [] |}.

(** A diagnostics record as a caller may pass it. *)
Definition wol_blank : wake_on_lan_t :=
  {| ip_v4 := 0; mac := 0; return_value := WAKE_ON_LAN_ERRORS_NONE; last_error := 0 |}.

(** The assignments to [wol->return_value]. *)
Definition is_set_return_value (e : event) : bool :=
  match e with Set_return_value _ => true | _ => false end.

(** What an event does to the record behind [wol]: an assignment writes
    its field, a call leaves the record as it is. *)
Definition apply_event (r : wake_on_lan_t) (e : event) : wake_on_lan_t :=
  match e with
  | Set_ip_v4 v =>
      {| ip_v4 := v; mac := mac r;
         return_value := return_value r; last_error := last_error r |}
  | Set_mac v =>
      {| ip_v4 := ip_v4 r; mac := v;
         return_value := return_value r; last_error := last_error r |}
  | Set_last_error v =>
      {| ip_v4 := ip_v4 r; mac := mac r;
         return_value := return_value r; last_error := v |}
  | Set_return_value v =>
      {| ip_v4 := ip_v4 r; mac := mac r;
         return_value := v; last_error := last_error r |}
  | _ => r
  end.

(** The record after some events, from the record [r] before them. *)
Definition record_after (r : wake_on_lan_t) (events : list event) : wake_on_lan_t :=
  fold_left apply_event events r.

(** The calls of the two parsers. *)
Definition is_parser_call (e : event) : bool :=
  match e with
  | Call_ip_cstr_to_number _ _ _ | Call_mac_cstr_to_number _ => true
  | _ => false
  end.

(** What [strtoumax] returns for a number written in the text: the
    number, or [UINTMAX_MAX] when it is larger. *)
Definition saturate (v : Z) : Z := if UINTMAX_MAX <? v then UINTMAX_MAX else v.

(** ** The functions under [#if false]

    [number_2_mac_cstr] and [number_2_hex_cstr_t] are in the source file
    but are not compiled. They are modelled as written. *)

(** [GET_BYTE_6], [GET_BYTE_7]: defined beside the other six, not used. *)
Definition GET_BYTE_6 (no : Z) : Z := Z.land (Z.shiftr (to_uint64 no) 48) 255.
Definition GET_BYTE_7 (no : Z) : Z := Z.land (Z.shiftr (to_uint64 no) 56) 255.

(** [static const char hex[]] *)
Definition hex : list Z :=
  map chr ["0"; "1"; "2"; "3"; "4"; "5"; "6"; "7"; "8"; "9";
           "A"; "B"; "C"; "D"; "E"; "F"]%char.

(** [hex[k]] *)
Definition hex_at (k : Z) : Z := nth (Z.to_nat k) hex 0.

(** [mac_cstr[i] = c] on a buffer of [length mac_cstr] characters; a
    store past its end is undefined ([None]). *)
Definition store_char (mac_cstr : list Z) (i : Z) (c : Z) : option (list Z) :=
  if (0 <=? i) && (i <? Z.of_nat (length mac_cstr))
  then Some (<[Z.to_nat i := c]> mac_cstr) else None.

(** [for(i = 0; i < 13; i++) { mac_cstr[i] = '\0'; }] *)
Fixpoint zero_loop (fuel : nat) (i : Z) (mac_cstr : list Z) : option (list Z) :=
  match fuel with
  | O => Some mac_cstr
  | S fuel' =>
      if i <? 13 then
        match store_char mac_cstr i 0 with
        | Some mac_cstr' => zero_loop fuel' (i + 1) mac_cstr'
        | None => None
        end
      else Some mac_cstr
  end.

(** [for(i = 11; i >= 0; i--) { mac_cstr[i] = hex[number & 0x0F]; number >>= 4; }];
    the shift of a negative [int64_t] is taken as arithmetic. *)
Fixpoint digits_loop (fuel : nat) (i : Z) (number : Z) (mac_cstr : list Z)
  : option (list Z) :=
  match fuel with
  | O => Some mac_cstr
  | S fuel' =>
      if i >=? 0 then
        match store_char mac_cstr i (hex_at (Z.land number 15)) with
        | Some mac_cstr' => digits_loop fuel' (i - 1) (Z.shiftr number 4) mac_cstr'
        | None => None
        end
      else Some mac_cstr
  end.

(** Conversion to [int64_t]. *)
Definition to_int64 (x : Z) : Z := (x + 2 ^ 63) mod 2 ^ 64 - 2 ^ 63.

(** [number_2_mac_cstr]: the arguments are converted to the types of the
    parameters, [int64_t] and [uint8_t]. [mac_cstr] is [None] for [NULL]
    and else the characters of the buffer pointed to. The result is the
    value returned and the buffer afterwards, or [None] when a store
    falls outside the buffer. The loops run 13 and 12 times; one more
    iteration is given to them for the test that ends them. *)
Definition number_2_mac_cstr (number : Z) (mac_cstr : option (list Z))
    (sizeof_mac_cstr : Z) : option (bool * option (list Z)) :=
  let number := to_int64 number in
  let sizeof_mac_cstr := to_uint8 sizeof_mac_cstr in
  match mac_cstr with
  | None => Some (false, None)
  | Some buf =>
      if (-1 =? number) || (13 >? sizeof_mac_cstr) then
        match zero_loop 14 0 buf with
        | Some buf' => Some (false, Some buf')
        | None => None
        end
      else
        match digits_loop 13 11 number buf with
        | Some buf' =>
            match store_char buf' 12 0 with
            | Some buf'' => Some (true, Some buf'')
            | None => None
            end
        | None => None
        end
  end.

(** [number_2_hex_cstr_t]: the four characters of the [hex_cstr_t]
    returned, for a [uint8_t] argument. *)
Definition number_2_hex_cstr_t (number : Z) : list Z :=
  [hex_at (Z.land (Z.shiftr number 4) 15);
   hex_at (Z.land (Z.shiftr number 0) 15);
   0;
   to_char number].

(** ** Definitions used by the further statements *)

(** Two scan states that differ only by the indices they remember. *)
Definition ip_scan_shifted (k : nat) (st1 st2 : ip_scan) : Prop :=
  ip_octets st1 = ip_octets st2 /\ octet st1 = octet st2 /\
  part_at st1 = map (fun i => (k + i)%nat) (part_at st2).

(** The calls that release what the function acquired. *)
Definition is_teardown (e : event) : bool :=
  match e with
  | Call_closesocket _ | Call_WSACleanup | Call_close _ => true
  | _ => false
  end.

(** The calls of [close]. *)
Definition is_close (e : event) : bool :=
  match e with Call_close _ => true | _ => false end.

(** The calls of a run in which nothing fails, up to the send. *)
Definition full_sequence (target : platform) (sys : os) (ip_v4_cstr : string)
    (port : Z) (mac_cstr : string) : list event :=
  [Call_ip_cstr_to_number ip_v4_cstr 13 0; Call_mac_cstr_to_number mac_cstr] ++
  match target with WIN32 => [Call_WSAStartup (MAKEWORD 2 2)] | POSIX => [] end ++
  [Call_socket; Call_setsockopt (socket_result sys) 1;
   Call_sendto (socket_result sys)
     (fill_packet (mac_cstr_to_number mac_cstr) (data_init (stack_junk sys)))
     102 (htonl (ip_cstr_to_number ip_v4_cstr 13 0)) (htons port)].

(** The diagnostic that goes with a result, as the header documents it
    for the failures; [before] is what the caller left in the field. *)
Definition last_error_of (target : platform) (sys : os) (before : Z)
    (e : wake_on_lan_errors_t) : Z :=
  match e with
  | WAKE_ON_LAN_ERRORS_NONE | WAKE_ON_LAN_ERRORS_UNKNOWN => before
  | WAKE_ON_LAN_ERRORS_IP | WAKE_ON_LAN_ERRORS_MAC => -1
  | WAKE_ON_LAN_ERRORS_WSA_STARTUP => WSAGetLastError sys SysWSAStartup
  | WAKE_ON_LAN_ERRORS_WINSOCK =>
      Z.lor (Z.shiftl (LOBYTE (wsaData_wVersion sys)) 8)
            (HIBYTE (wsaData_wVersion sys))
  | WAKE_ON_LAN_ERRORS_SOCKET_CREATION =>
      match target with
      | WIN32 => WSAGetLastError sys SysSocket
      | POSIX => errno sys SysSocket
      end
  | WAKE_ON_LAN_ERRORS_SOCKET_OPTION =>
      match target with
      | WIN32 => WSAGetLastError sys SysSetsockopt
      | POSIX => errno sys SysSetsockopt
      end
  | WAKE_ON_LAN_ERRORS_SEND => send_diagnostic target sys
  | WAKE_ON_LAN_ERRORS_SOCKET_CLOSE => WSAGetLastError sys SysClosesocket
  end.

(** The text a buffer holds: its characters up to the terminator. *)
Definition c_string (p : list Z) : string :=
  string_of_list_ascii (map (fun c => ascii_of_N (Z.to_N c)) (c_content p)).

(** The [k] low nibbles of a number, the most significant first, and
    their hexadecimal digits in upper case. *)
Fixpoint nibbles_of (k : nat) (number : Z) : list Z :=
  match k with
  | O => []
  | S k' => nibbles_of k' (number / 16) ++ [number mod 16]
  end.

Definition hex_text (k : nat) (number : Z) : list Z :=
  map hex_at (nibbles_of k number).

(** The two hexadecimal digits [number_2_hex_cstr_t] gives for a byte. *)
Definition hex_pair (b : Z) : list Z := take 2 (number_2_hex_cstr_t b).

(** Bytes written as pairs of hexadecimal digits with the characters
    [sep] between them. *)
Fixpoint mac_notation (sep : list Z) (bs : list Z) : list Z :=
  match bs with
  | [] => []
  | [b] => hex_pair b
  | b :: bs' => hex_pair b ++ sep ++ mac_notation sep bs'
  end.

(** The message of a result, by name. *)
Definition error_message (e : wake_on_lan_errors_t) : string :=
  match e with
  | WAKE_ON_LAN_ERRORS_NONE => Cli.no_error
  | WAKE_ON_LAN_ERRORS_UNKNOWN => Cli.error_1
  | WAKE_ON_LAN_ERRORS_IP => Cli.error_2
  | WAKE_ON_LAN_ERRORS_MAC => Cli.error_3
  | WAKE_ON_LAN_ERRORS_WSA_STARTUP => Cli.error_4
  | WAKE_ON_LAN_ERRORS_WINSOCK => Cli.error_5
  | WAKE_ON_LAN_ERRORS_SOCKET_CREATION => Cli.error_6
  | WAKE_ON_LAN_ERRORS_SOCKET_OPTION => Cli.error_7
  | WAKE_ON_LAN_ERRORS_SEND => Cli.error_8
  | WAKE_ON_LAN_ERRORS_SOCKET_CLOSE => Cli.error_9
  end.

(** The line [main] prints for a result. *)
Definition error_lines (r : option wake_on_lan_errors_t) : list string :=
  match r with
  | None | Some WAKE_ON_LAN_ERRORS_NONE => []
  | Some e => ["Error: " ++ error_message e ++ Cli.LF]%string
  end.

(** The flags set in [l] are set in [l']. *)
Definition flags_kept (l l' : Cli.locals) : bool :=
  implb (Cli.parameter_i l) (Cli.parameter_i l')
  && implb (Cli.parameter_m l) (Cli.parameter_m l')
  && implb (Cli.help l) (Cli.help l')
  && implb (Cli.silent l) (Cli.silent l').

(** The number a sequence of octal digits writes. *)
Definition oct_value (ds : list Z) : Z :=
  fold_left (fun acc d => acc * 8 + d) ds 0.

(** A part as the comment on [ip_cstr_to_number] describes it:
    hexadecimal after [0x] or [0X], octal after a leading [0], and
    decimal otherwise. [part_written t v]: the text [t] writes the
    number [v]. *)
Inductive part_written : list Z -> Z -> Prop :=
| part_decimal ds :
    dec_numeral ds -> part_written (numeral ds) (dec_value ds)
| part_octal ds :
    Forall (fun d => 0 <= d <= 7) ds ->
    part_written (chr "0" :: numeral ds) (oct_value ds)
| part_hexadecimal x cs :
    x = chr "x" \/ x = chr "X" -> cs <> [] ->
    Forall (fun c => hex_val c <> None) cs ->
    part_written (chr "0" :: x :: cs) (nibbles_value (hex_digits cs)).

(** ** Characters *)

Ltac chr_eval :=
  repeat match goal with
         | |- context [chr ?a] =>
             let v := eval vm_compute in (chr a) in change (chr a) with v
         | H : context [chr ?a] |- _ =>
             let v := eval vm_compute in (chr a) in change (chr a) with v in H
         end.

Lemma char_at_ge (p : list Z) i : (length p <= i)%nat -> char_at p i = 0.
Proof. intros H. unfold char_at. now apply nth_overflow. Qed.

Lemma char_at_drop (p : list Z) i j : char_at (ptr_add p i) j = char_at p (i + j).
Proof.
  unfold char_at, ptr_add. revert p; induction i as [|i IH]; intros [|c p]; simpl;
    trivial; now destruct j.
Qed.

Lemma char_at_app_l (w t : list Z) i :
  (i < length w)%nat -> char_at (w ++ t) i = char_at w i.
Proof. intros H. unfold char_at. now apply app_nth1. Qed.

Lemma char_at_app_r (w : list Z) c t : char_at (w ++ c :: t) (length w) = c.
Proof. unfold char_at. rewrite app_nth2 by lia. now rewrite Nat.sub_diag. Qed.

Lemma digit_val_isdigit c : isdigit c = true -> exists d, digit_val c = Some d.
Proof. unfold isdigit, digit_val. intros ->. eauto. Qed.

Lemma isdigit_not_space c : isdigit c = true -> isspace c = false.
Proof.
  unfold isdigit, isspace. chr_eval. intros H.
  apply andb_prop in H. destruct H as [H1 H2].
  apply Z.leb_le in H1. apply Z.leb_le in H2.
  destruct (Z.eqb_spec c 32); [lia|]. destruct (Z.leb_spec 9 c); [|reflexivity].
  destruct (Z.leb_spec c 13); [lia|reflexivity].
Qed.

Lemma isdigit_not_sign c :
  isdigit c = true -> (c =? chr "-") = false /\ (c =? chr "+") = false.
Proof.
  unfold isdigit. chr_eval. intros H.
  apply andb_prop in H. destruct H as [H1 H2].
  apply Z.leb_le in H1. apply Z.leb_le in H2.
  split; apply Z.eqb_neq; lia.
Qed.

Lemma not_digit_not_x c :
  digit_val c = None -> (c =? chr "x") || (c =? chr "X") = false.
Proof.
  intros Hc.
  destruct (Z.eqb_spec c (chr "x")) as [->|]; [discriminate Hc|].
  destruct (Z.eqb_spec c (chr "X")) as [->|]; [discriminate Hc|]. reflexivity.
Qed.

(** ** The scanning loop of [ip_cstr_to_number] *)

Lemma ip_loop_S fuel ip n base i st :
  ip_loop (S fuel) ip n base i st =
  if (i <? n)%nat && negb (char_at ip i =? 0) && (octet st <? 4)%nat then
    if (chr "0" <=? char_at ip i) && (chr "9" >=? char_at ip i) then
      let '(v, consumed) := strtoumax (ptr_add ip i) base in
      let st' := {| ip_octets := <[octet st := to_uint32 v]> (ip_octets st);
                    octet := S (octet st);
                    part_at := part_at st ++ [i] |} in
      if negb (chr "." =? char_at ip (i + consumed)) then st'
      else ip_loop fuel ip n base (S (i + consumed)) st'
    else ip_loop fuel ip n base (S i) st
  else st.
Proof. reflexivity. Qed.

(** Enough iterations: with at least [sizeof_ip - i] of them the loop
    ends by its own condition, and more change nothing. *)
Lemma ip_loop_fuel ip n base : forall f1 f2 i st,
  (n - i <= f1)%nat -> (n - i <= f2)%nat ->
  ip_loop f1 ip n base i st = ip_loop f2 ip n base i st.
Proof.
  assert (stop : forall f i st, (n <= i)%nat -> ip_loop f ip n base i st = st).
  { intros [|f] i st Hi; [reflexivity|]. rewrite ip_loop_S.
    replace (i <? n)%nat with false; [reflexivity|].
    symmetry. apply Nat.ltb_ge. lia. }
  induction f1 as [|f1 IH]; intros f2 i st H1 H2.
  - rewrite (stop f2) by lia. reflexivity.
  - destruct f2 as [|f2].
    + rewrite (stop (S f1)) by lia. reflexivity.
    + rewrite !ip_loop_S. destruct (i <? n)%nat eqn:Hi; [|reflexivity].
      apply Nat.ltb_lt in Hi.
      destruct (true && negb (char_at ip i =? 0) && (octet st <? 4)%nat); [|reflexivity].
      destruct ((chr "0" <=? char_at ip i) && (chr "9" >=? char_at ip i)).
      * destruct (strtoumax (ptr_add ip i) base) as [v k]. cbv zeta.
        destruct (negb (chr "." =? char_at ip (i + k))); [reflexivity|].
        apply IH; lia.
      * apply IH; lia.
Qed.

Lemma ip_scan_init_ok n : ip_scan_ok n ip_scan_init.
Proof.
  unfold ip_scan_ok, ip_scan_init; simpl. repeat split; try lia.
  - constructor.
  - repeat constructor; lia.
Qed.

Lemma ip_loop_ok ip n base : forall fuel i st,
  ip_scan_ok n st -> ip_scan_ok n (ip_loop fuel ip n base i st).
Proof.
  induction fuel as [|fuel IH]; intros i st Hst; [exact Hst|].
  rewrite ip_loop_S. destruct (i <? n)%nat eqn:Hi; [|exact Hst].
  apply Nat.ltb_lt in Hi.
  destruct (negb (char_at ip i =? 0)); [|exact Hst].
  destruct (octet st <? 4)%nat eqn:Ho; [|exact Hst].
  apply Nat.ltb_lt in Ho. cbn [andb].
  destruct ((chr "0" <=? char_at ip i) && (chr "9" >=? char_at ip i)).
  - destruct (strtoumax (ptr_add ip i) base) as [v k]. cbv zeta.
    assert (Hst' : ip_scan_ok n
              {| ip_octets := <[octet st := to_uint32 v]> (ip_octets st);
                 octet := S (octet st); part_at := part_at st ++ [i] |}).
    { destruct Hst as (H1 & H2 & H3 & H4 & H5).
      unfold ip_scan_ok; simpl. split; [|split; [|split; [|split]]].
      - now rewrite length_insert.
      - lia.
      - rewrite length_app; simpl; lia.
      - apply Forall_app; split; [exact H4|]. repeat constructor; exact Hi.
      - apply Forall_insert; [exact H5|].
        unfold to_uint32. apply Z.mod_pos_bound. lia. }
    destruct (negb (chr "." =? char_at ip (i + k))); [exact Hst'|].
    apply IH; exact Hst'.
  - apply IH; exact Hst.
Qed.

Lemma ip_scan_of_ok ip n base : ip_scan_ok n (ip_scan_of ip n base).
Proof. apply ip_loop_ok, ip_scan_init_ok. Qed.

(** ** The assembly of the address *)

Lemma to_uint32_range x : 0 <= to_uint32 x < 2 ^ 32.
Proof. unfold to_uint32. apply Z.mod_pos_bound. lia. Qed.

Lemma to_uint32_small x : 0 <= x < 2 ^ 32 -> to_uint32 x = x.
Proof. unfold to_uint32. apply Z.mod_small. Qed.

Lemma to_uint32_add_l x y : to_uint32 (to_uint32 x + y) = to_uint32 (x + y).
Proof. unfold to_uint32. apply Zplus_mod_idemp_l. Qed.

(** A value below [2 ^ k] put under a multiple of [2 ^ k]: adding and
    or-ing agree, no bit is shared. *)
Lemma lor_high_low hi lo k :
  0 <= k -> 0 <= lo < 2 ^ k -> Z.lor (hi * 2 ^ k) lo = hi * 2 ^ k + lo.
Proof.
  intros Hk Hlo.
  assert (Hland : Z.land (hi * 2 ^ k) lo = 0).
  { apply Z.bits_inj'. intros n Hn.
    rewrite Z.land_spec, Z.bits_0, <- Z.shiftl_mul_pow2 by lia.
    destruct (Z.lt_ge_cases n k) as [Hlt|Hge].
    - rewrite Z.shiftl_spec_low by lia. reflexivity.
    - rewrite <- (Z.mod_small lo (2 ^ k)) by lia.
      rewrite Z.mod_pow2_bits_high by lia. apply andb_false_r. }
  rewrite Z.add_nocarry_lxor by exact Hland.
  symmetry. apply Z.lxor_lor. exact Hland.
Qed.

(** Sums cut to 32 bits after every step, and cut once at the end. *)
Lemma to_uint32_sum4 A B C d :
  to_uint32 (to_uint32 (to_uint32 (to_uint32 A + to_uint32 B) + to_uint32 C) + d)
  = to_uint32 (A + B + C + d).
Proof.
  unfold to_uint32. change (2 ^ 32) with 4294967296.
  Z.to_euclidean_division_equations. lia.
Qed.

Lemma to_uint32_sum3 A B c :
  to_uint32 (to_uint32 (to_uint32 A + to_uint32 B) + c) = to_uint32 (A + B + c).
Proof.
  unfold to_uint32. change (2 ^ 32) with 4294967296.
  Z.to_euclidean_division_equations. lia.
Qed.

Lemma ip_assemble_sum st :
  length (ip_octets st) = 4%nat -> (1 <= octet st <= 4)%nat ->
  ip_assemble st = to_uint32 (ip_sum (take (octet st) (ip_octets st))) \/
  (octet st = 1%nat /\ ip_assemble st = oct st 0).
Proof.
  intros Hlen Hoct. unfold ip_assemble, oct.
  destruct (ip_octets st) as [|a [|b [|c [|d [|]]]]]; try discriminate.
  destruct (octet st) as [|[|[|[|[|]]]]]; try (exfalso; lia); simpl.
  - right. split; reflexivity.
  - left. rewrite Z.shiftl_mul_pow2, to_uint32_add_l by lia. reflexivity.
  - left. rewrite !Z.shiftl_mul_pow2 by lia. apply to_uint32_sum3.
  - left. rewrite !Z.shiftl_mul_pow2 by lia. apply to_uint32_sum4.
Qed.

(** The parts collected: at most four, each a 32-bit value. *)
Lemma ip_parts_shape ip n base :
  (length (ip_parts ip n base) <= 4)%nat /\
  length (ip_parts ip n base) = octet (ip_scan_of (cstr ip) n base) /\
  Forall (fun v => 0 <= v < 2 ^ 32) (ip_parts ip n base).
Proof.
  unfold ip_parts.
  destruct (ip_scan_of_ok (cstr ip) n base) as (H1 & H2 & _ & _ & H5).
  rewrite length_take. repeat split; try lia.
  apply Forall_take. exact H5.
Qed.

(** The result of the parser from the parts collected. *)
Lemma ip_result_of_parts ip n base :
  match ip_parts ip n base with
  | [] => ip_cstr_to_number ip n base = -1
  | [a] => ip_cstr_to_number ip n base = a
  | parts => ip_cstr_to_number ip n base = to_uint32 (ip_sum parts)
  end.
Proof.
  unfold ip_parts, ip_cstr_to_number.
  destruct (ip_scan_of_ok (cstr ip) n base) as (H1 & H2 & _ & _ & H5).
  set (st := ip_scan_of (cstr ip) n base) in *.
  destruct (octet st) as [|k] eqn:Hk.
  - rewrite take_0. unfold ip_assemble. rewrite Hk. reflexivity.
  - destruct (ip_assemble_sum st H1) as [Hs|[H1' Hs]]; [lia| |].
    + rewrite Hs, Hk. unfold oct in *.
      destruct (ip_octets st) as [|a [|b [|c [|d [|]]]]]; try discriminate.
      destruct k as [|[|[|[|]]]]; try lia; simpl; try reflexivity.
      inversion H5; subst. apply to_uint32_small. assumption.
    + rewrite Hs. unfold oct. rewrite Hk in H1'. injection H1' as ->.
      destruct (ip_octets st) as [|a l]; [discriminate|]. reflexivity.
Qed.

Lemma ip_or_rule_in_range parts :
  Forall (fun v => 0 <= v < 2 ^ 32) parts -> (1 <= length parts <= 4)%nat ->
  ip_parts_in_range parts = true ->
  ip_or_rule parts = ip_sum parts /\ 0 <= ip_sum parts < 2 ^ 32.
Proof.
  intros HF Hlen Hr.
  destruct parts as [|a [|b [|c [|d [|]]]]]; simpl in Hlen; try lia;
    unfold ip_parts_in_range in Hr; unfold ip_or_rule, ip_sum;
    repeat match goal with
           | H : Forall _ (_ :: _) |- _ => inversion H; clear H; subst
           | H : _ && _ = true |- _ => apply andb_prop in H; destruct H
           | H : (_ <? _) = true |- _ => apply Z.ltb_lt in H
           end;
    rewrite ?Z.shiftl_mul_pow2 by lia.
  - split; [reflexivity|lia].
  - rewrite lor_high_low by lia. split; [reflexivity|lia].
  - rewrite (lor_high_low a (b * 2 ^ 16) 24) by lia.
    replace (a * 2 ^ 24 + b * 2 ^ 16) with ((a * 2 ^ 8 + b) * 2 ^ 16) by ring.
    rewrite lor_high_low by lia. split; [reflexivity|lia].
  - rewrite (lor_high_low a (b * 2 ^ 16) 24) by lia.
    replace (a * 2 ^ 24 + b * 2 ^ 16) with ((a * 2 ^ 8 + b) * 2 ^ 16) by ring.
    rewrite (lor_high_low _ (c * 2 ^ 8) 16) by lia.
    replace ((a * 2 ^ 8 + b) * 2 ^ 16 + c * 2 ^ 8)
      with ((a * 2 ^ 16 + b * 2 ^ 8 + c) * 2 ^ 8) by ring.
    rewrite lor_high_low by lia. split; [ring|lia].
Qed.

(** ** Where the scan finds a part *)

(** The loop reaches its first digit exactly when one stands among the
    first [sizeof_ip] characters of the text; the value that follows the
    digit plays no role. *)
Lemma ip_loop_octet_mono ip n base : forall fuel i st,
  (octet st <= octet (ip_loop fuel ip n base i st))%nat.
Proof.
  induction fuel as [|fuel IH]; intros i st; [reflexivity|].
  rewrite ip_loop_S.
  destruct ((i <? n)%nat && negb (char_at ip i =? 0) && (octet st <? 4)%nat);
    [|reflexivity].
  destruct ((chr "0" <=? char_at ip i) && (chr "9" >=? char_at ip i)).
  - destruct (strtoumax (ptr_add ip i) base) as [v k]. cbv zeta.
    destruct (negb (chr "." =? char_at ip (i + k))); [simpl; lia|].
    etransitivity; [|apply IH]. simpl; lia.
  - apply IH.
Qed.

Lemma isdigit_test c :
  isdigit c = (chr "0" <=? c) && (chr "9" >=? c).
Proof. unfold isdigit. now rewrite (Z.geb_leb (chr "9") c). Qed.

Lemma ip_loop_no_part n base : forall (p pre : list Z) fuel st,
  octet st = 0%nat -> (n - length pre <= fuel)%nat ->
  (octet (ip_loop fuel (pre ++ p) n base (length pre) st) = 0)%nat <->
  existsb isdigit (take (n - length pre) (c_content p)) = false.
Proof.
  induction p as [|c p IH]; intros pre fuel st Hst Hfuel.
  - simpl. rewrite take_nil. simpl. split; [reflexivity|intros _].
    destruct fuel as [|fuel]; [exact Hst|]. rewrite ip_loop_S.
    rewrite char_at_ge by (rewrite length_app; simpl; lia).
    rewrite andb_false_r. exact Hst.
  - destruct fuel as [|fuel].
    + replace (n - length pre)%nat with 0%nat by lia. rewrite take_0. simpl.
      split; [reflexivity|intros _; exact Hst].
    + rewrite ip_loop_S.
      assert (Hc : char_at (pre ++ c :: p) (length pre) = c).
      { unfold char_at. rewrite app_nth2 by lia. now rewrite Nat.sub_diag. }
      rewrite Hc. simpl c_content.
      destruct (length pre <? n)%nat eqn:Hn.
      * apply Nat.ltb_lt in Hn.
        destruct (c =? 0) eqn:Hc0.
        { simpl. rewrite take_nil. simpl. split; [reflexivity|intros _; exact Hst]. }
        rewrite Hst. cbn [negb andb Nat.ltb Nat.leb].
        replace (n - length pre)%nat with (S (n - S (length pre))) by lia.
        rewrite firstn_cons. cbn [existsb]. rewrite <- isdigit_test.
        destruct (isdigit c) eqn:Hd.
        { destruct (strtoumax (ptr_add (pre ++ c :: p) (length pre)) base) as [v k].
          cbv zeta. split; [|discriminate].
          destruct (negb (chr "." =? char_at (pre ++ c :: p) (length pre + k)));
            [discriminate|].
          intros H0. exfalso.
          match type of H0 with
          | octet (ip_loop ?f ?a ?b ?c ?d ?s) = _ =>
              pose proof (ip_loop_octet_mono a b c f d s) as Hm
          end.
          rewrite H0 in Hm. simpl in Hm. lia. }
        cbn [orb].
        specialize (IH (pre ++ [c]) fuel st Hst).
        rewrite length_app, <- app_assoc in IH. simpl in IH.
        replace (length pre + 1)%nat with (S (length pre)) in IH by lia.
        apply IH. lia.
      * apply Nat.ltb_ge in Hn.
        replace (n - length pre)%nat with 0%nat by lia. rewrite take_0. simpl.
        split; [reflexivity|intros _; exact Hst].
Qed.

Lemma ip_parts_nil_octet ip n base :
  ip_parts ip n base = [] <-> octet (ip_scan_of (cstr ip) n base) = 0%nat.
Proof.
  destruct (ip_parts_shape ip n base) as (_ & Hlen & _).
  rewrite <- Hlen. split; [intros ->; reflexivity|].
  destruct (ip_parts ip n base); [reflexivity|discriminate].
Qed.

Lemma ip_result_range ip n base :
  ip_parts ip n base <> [] ->
  ip_cstr_to_number ip n base = to_uint32 (ip_sum (ip_parts ip n base)) /\
  0 <= ip_cstr_to_number ip n base < 2 ^ 32.
Proof.
  intros Hne.
  pose proof (ip_result_of_parts ip n base) as Hr.
  destruct (ip_parts_shape ip n base) as (_ & _ & HF).
  destruct (ip_parts ip n base) as [|a [|b l]]; [congruence| |].
  - apply Forall_cons_1 in HF. destruct HF as [Ha _].
    rewrite Hr. simpl. rewrite to_uint32_small by assumption.
    split; [reflexivity|assumption].
  - rewrite Hr. split; [reflexivity|apply to_uint32_range].
Qed.

Lemma ip_failure_iff_no_part ip n base :
  ip_cstr_to_number ip n base = -1 <-> ip_parts ip n base = [].
Proof.
  split.
  - intros Hr. destruct (ip_parts ip n base) as [|a l] eqn:Hp; [reflexivity|].
    destruct (ip_result_range ip n base) as [_ Hrange]; [congruence|]. lia.
  - intros Hp. pose proof (ip_result_of_parts ip n base) as Hr.
    rewrite Hp in Hr. exact Hr.
Qed.

Lemma ip_failure_iff_no_digit ip n base :
  ip_cstr_to_number ip n base = -1 <->
  existsb isdigit (take n (c_content (cstr ip))) = false.
Proof.
  rewrite ip_failure_iff_no_part, ip_parts_nil_octet.
  pose proof (ip_loop_no_part n base (cstr ip) [] n ip_scan_init eq_refl) as H.
  simpl in H. rewrite Nat.sub_0_r in H. apply H. lia.
Qed.

(** ** Parts written in decimal *)

Lemma digit_val_dec d : 0 <= d <= 9 -> digit_val (chr "0" + d) = Some d.
Proof.
  intros Hd. unfold digit_val. chr_eval.
  destruct (Z.leb_spec 48 (48 + d)); [|lia].
  destruct (Z.leb_spec (48 + d) 57); [|lia]. simpl. f_equal. lia.
Qed.

Lemma isdigit_dec d : 0 <= d <= 9 -> isdigit (chr "0" + d) = true.
Proof.
  intros Hd. unfold isdigit. chr_eval.
  destruct (Z.leb_spec 48 (48 + d)); [|lia].
  destruct (Z.leb_spec (48 + d) 57); [reflexivity|lia].
Qed.

Lemma digits_run_end b tail acc :
  digit_val (char_at tail 0) = None -> digits_run b tail acc = (acc, O).
Proof.
  intros Hc. destruct tail as [|c tail]; [reflexivity|].
  cbn [char_at nth] in Hc. cbn [digits_run]. rewrite Hc. reflexivity.
Qed.

Lemma digits_run_numeral ds tail : Forall (fun d => 0 <= d <= 9) ds ->
  digit_val (char_at tail 0) = None ->
  forall acc,
    digits_run 10 (numeral ds ++ tail) acc
    = (fold_left (fun acc d => acc * 10 + d) ds acc, length ds).
Proof.
  intros Hds Hc. induction Hds as [|d ds Hd _ IH]; intros acc.
  - cbn [numeral map app fold_left length]. apply digits_run_end, Hc.
  - cbn [numeral map app digits_run]. fold (numeral ds).
    rewrite (digit_val_dec d Hd). destruct (Z.ltb_spec d 10); [|lia].
    rewrite IH. reflexivity.
Qed.

(** [strtoumax] with base 0 on a decimal numeral that ends the text or
    is followed by a character that is neither a digit nor a letter: the
    value written, or [UINTMAX_MAX] when it is too large, and the length
    of the numeral. *)
Lemma strtoumax_numeral ds tail :
  dec_numeral ds -> digit_val (char_at tail 0) = None ->
  strtoumax (numeral ds ++ tail) 0
  = (if UINTMAX_MAX <? dec_value ds then UINTMAX_MAX else dec_value ds, length ds).
Proof.
  intros [Hds Hshape] Hc.
  destruct ds as [|d ds]; [destruct Hshape|].
  pose proof (Forall_cons_1 _ _ _ Hds) as [Hd _].
  pose proof (isdigit_dec d Hd) as Hdig.
  unfold strtoumax. cbn [Z.eqb orb negb].
  cbn [numeral map app skip_space]. fold (numeral ds).
  rewrite (isdigit_not_space _ Hdig).
  unfold ptr_add. rewrite !drop_0. cbn [char_at nth].
  destruct (isdigit_not_sign _ Hdig) as [-> ->]. cbn [orb]. rewrite !drop_0.
  cbn [char_at nth].
  destruct (Z.eqb_spec (chr "0" + d) (chr "0")) as [H0|H0].
  - (* the numeral is ["0"] *)
    assert (Hd0 : d = 0) by lia. subst d.
    destruct ds as [|d' ds]; [|congruence].
    cbn [numeral map app]. fold (char_at tail 0).
    rewrite (not_digit_not_x _ Hc). cbn [andb].
    rewrite drop_0. cbn [digits_run].
    change (digit_val (chr "0" + 0)) with (Some 0). cbn [Z.ltb Z.compare].
    rewrite digits_run_end by exact Hc. reflexivity.
  - cbn [andb]. rewrite drop_0.
    change (chr "0" + d :: numeral ds ++ tail) with (numeral (d :: ds) ++ tail).
    rewrite digits_run_numeral by assumption. reflexivity.
Qed.

Lemma numeral_length ds : length (numeral ds) = length ds.
Proof. unfold numeral. apply length_map. Qed.

Lemma ip_loop_full_stop ip n base fuel i st :
  octet st = 4%nat -> ip_loop fuel ip n base i st = st.
Proof.
  intros Ho. destruct fuel as [|fuel]; [reflexivity|].
  rewrite ip_loop_S, Ho. cbn [Nat.ltb Nat.leb]. now rewrite andb_false_r.
Qed.

(** One iteration of the loop at the first digit of a decimal numeral:
    the part is stored as written, cut to 32 bits, and the scan goes on
    after the dot that follows, or ends when no dot follows. *)
Lemma ip_loop_read_part n (pre ds tail : list Z) fuel st :
  dec_numeral ds -> dec_value ds <= UINTMAX_MAX ->
  digit_val (char_at tail 0) = None ->
  (length pre < n)%nat -> (octet st < 4)%nat ->
  ip_loop (S fuel) (pre ++ numeral ds ++ tail) n 0 (length pre) st =
  let st' := {| ip_octets := <[octet st := to_uint32 (dec_value ds)]> (ip_octets st);
                octet := S (octet st);
                part_at := part_at st ++ [length pre] |} in
  if negb (chr "." =? char_at tail 0) then st'
  else ip_loop fuel (pre ++ numeral ds ++ tail) n 0
         (S (length pre + length ds)) st'.
Proof.
  intros Hnum Hval Hc Hn Ho.
  destruct ds as [|d ds]; [destruct Hnum as [_ []]|].
  pose proof (Forall_cons_1 _ _ _ (proj1 Hnum)) as [Hd _].
  rewrite ip_loop_S.
  assert (Hhd : char_at (pre ++ numeral (d :: ds) ++ tail) (length pre)
                = chr "0" + d) by apply char_at_app_r.
  rewrite Hhd.
  replace (length pre <? n)%nat with true by (symmetry; apply Nat.ltb_lt; exact Hn).
  replace (octet st <? 4)%nat with true by (symmetry; apply Nat.ltb_lt; exact Ho).
  assert (Hnz : (chr "0" + d =? 0) = false) by (apply Z.eqb_neq; chr_eval; lia).
  rewrite Hnz. cbn [andb negb].
  rewrite <- isdigit_test, (isdigit_dec d Hd).
  unfold ptr_add. rewrite drop_app_length.
  rewrite strtoumax_numeral by assumption.
  destruct (Z.ltb_spec UINTMAX_MAX (dec_value (d :: ds))) as [Hgt|_]; [lia|].
  cbv zeta.
  assert (Hc' : char_at (pre ++ numeral (d :: ds) ++ tail)
                  (length pre + length (d :: ds)) = char_at tail 0).
  { rewrite app_assoc.
    replace (length pre + length (d :: ds))%nat
      with (length (pre ++ numeral (d :: ds)) + 0)%nat
      by (rewrite length_app, numeral_length; lia).
    rewrite <- char_at_drop. unfold ptr_add. rewrite drop_app_length. reflexivity. }
  rewrite Hc'. reflexivity.
Qed.

(** A dotted quad written in decimal, with parts of any size below
    [2 ^ 64]: when the last part starts inside the scan length the four
    parts are collected as written, cut to 32 bits. *)
Lemma ip_parts_of_dotted_quad ip n (A B C D tail : list Z) :
  dec_numeral A -> dec_numeral B -> dec_numeral C -> dec_numeral D ->
  dec_value A <= UINTMAX_MAX -> dec_value B <= UINTMAX_MAX ->
  dec_value C <= UINTMAX_MAX -> dec_value D <= UINTMAX_MAX ->
  digit_val (char_at tail 0) = None ->
  cstr ip = numeral A ++ chr "." :: numeral B ++ chr "." :: numeral C
            ++ chr "." :: numeral D ++ tail ->
  (length A + length B + length C + 3 < n)%nat ->
  ip_parts ip n 0 = [to_uint32 (dec_value A); to_uint32 (dec_value B);
                     to_uint32 (dec_value C); to_uint32 (dec_value D)].
Proof.
  intros HA HB HC HD HvA HvB HvC HvD Htail Hip Hn.
  assert (HlA : (1 <= length A)%nat)
    by (destruct A; [destruct HA as [_ []]|simpl; lia]).
  assert (HlB : (1 <= length B)%nat)
    by (destruct B; [destruct HB as [_ []]|simpl; lia]).
  assert (HlC : (1 <= length C)%nat)
    by (destruct C; [destruct HC as [_ []]|simpl; lia]).
  assert (Hdot : forall t, digit_val (char_at (chr "." :: t) 0) = None)
    by reflexivity.
  unfold ip_parts, ip_scan_of. rewrite Hip.
  set (text := numeral A ++ chr "." :: numeral B ++ chr "." :: numeral C
               ++ chr "." :: numeral D ++ tail).
  destruct n as [|[|[|[|n]]]]; try lia.
  (* first part *)
  pose proof (ip_loop_read_part (S (S (S (S n)))) [] A
                (chr "." :: numeral B ++ chr "." :: numeral C ++ chr "."
                 :: numeral D ++ tail)
                (S (S (S n))) ip_scan_init HA HvA (Hdot _)) as H1.
  cbn [app length] in H1. fold text in H1. rewrite H1 by (simpl; lia). clear H1.
  cbv zeta. cbn [char_at nth]. rewrite Z.eqb_refl. cbn [negb].
  (* second part *)
  pose proof (ip_loop_read_part (S (S (S (S n)))) (numeral A ++ [chr "."]) B
                (chr "." :: numeral C ++ chr "." :: numeral D ++ tail)
                (S (S n))) as H2.
  rewrite <- app_assoc in H2. cbn [app] in H2. fold text in H2.
  rewrite length_app, numeral_length in H2. cbn [length] in H2.
  replace (S (0 + length A)) with (length A + 1)%nat by lia.
  rewrite H2 by (simpl; try assumption; try apply Hdot; lia). clear H2.
  cbv zeta. cbn [char_at nth]. rewrite Z.eqb_refl. cbn [negb].
  (* third part *)
  pose proof (ip_loop_read_part (S (S (S (S n))))
                (numeral A ++ chr "." :: numeral B ++ [chr "."]) C
                (chr "." :: numeral D ++ tail) (S n)) as H3.
  rewrite <- app_assoc in H3. cbn [app] in H3. rewrite <- app_assoc in H3.
  cbn [app] in H3. fold text in H3.
  rewrite length_app, numeral_length in H3. cbn [length] in H3.
  rewrite length_app, numeral_length in H3. cbn [length] in H3.
  replace (S (length A + 1 + length B))
    with (length A + S (length B + 1))%nat by lia.
  rewrite H3 by (simpl; try assumption; try apply Hdot; lia). clear H3.
  cbv zeta. cbn [char_at nth]. rewrite Z.eqb_refl. cbn [negb].
  (* fourth part *)
  pose proof (ip_loop_read_part (S (S (S (S n))))
                (numeral A ++ chr "." :: numeral B ++ chr "." :: numeral C
                 ++ [chr "."]) D tail n) as H4.
  rewrite <- app_assoc in H4. cbn [app] in H4. rewrite <- app_assoc in H4.
  cbn [app] in H4. rewrite <- app_assoc in H4. cbn [app] in H4. fold text in H4.
  rewrite length_app, numeral_length in H4. cbn [length] in H4.
  rewrite length_app, numeral_length in H4. cbn [length] in H4.
  rewrite length_app, numeral_length in H4. cbn [length] in H4.
  replace (S (length A + S (length B + 1) + length C))
    with (length A + S (length B + S (length C + 1)))%nat by lia.
  rewrite H4 by (simpl; try assumption; lia). clear H4.
  cbv zeta.
  match goal with
  | |- context [if ?b then ?s else ip_loop ?f ?t ?m ?z ?k ?s] =>
      replace (if b then s else ip_loop f t m z k s) with s
        by (destruct b; [reflexivity|symmetry; apply ip_loop_full_stop; reflexivity])
  end.
  reflexivity.
Qed.

Lemma to_uint32_quad a b c d :
  to_uint32 (to_uint32 a * 2 ^ 24 + to_uint32 b * 2 ^ 16 + to_uint32 c * 2 ^ 8
             + to_uint32 d)
  = to_uint32 (a * 2 ^ 24 + b * 2 ^ 16 + c * 2 ^ 8 + d).
Proof.
  unfold to_uint32. change (2 ^ 32) with 4294967296.
  change (2 ^ 24) with 16777216. change (2 ^ 16) with 65536. change (2 ^ 8) with 256.
  Z.to_euclidean_division_equations. lia.
Qed.

(** The address of a dotted quad written in decimal: the positional sum
    of the four numbers, whatever their size, cut to 32 bits. *)
Lemma ip_of_dotted_quad ip n (A B C D tail : list Z) :
  dec_numeral A -> dec_numeral B -> dec_numeral C -> dec_numeral D ->
  dec_value A <= UINTMAX_MAX -> dec_value B <= UINTMAX_MAX ->
  dec_value C <= UINTMAX_MAX -> dec_value D <= UINTMAX_MAX ->
  digit_val (char_at tail 0) = None ->
  cstr ip = numeral A ++ chr "." :: numeral B ++ chr "." :: numeral C
            ++ chr "." :: numeral D ++ tail ->
  (length A + length B + length C + 3 < n)%nat ->
  ip_cstr_to_number ip n 0
  = (dec_value A * 2 ^ 24 + dec_value B * 2 ^ 16 + dec_value C * 2 ^ 8
     + dec_value D) mod 2 ^ 32.
Proof.
  intros HA HB HC HD HvA HvB HvC HvD Htail Hip Hn.
  pose proof (ip_result_of_parts ip n 0) as Hr.
  rewrite (ip_parts_of_dotted_quad ip n A B C D tail) in Hr by assumption.
  rewrite Hr. cbn [ip_sum]. apply to_uint32_quad.
Qed.

(** ** The address parser: results *)

(** C3, as amended. For every text, scan length and base, the result of
    [ip_cstr_to_number] is fixed by the parts collected: with no part it
    is the sentinel -1; with one part it is the part itself; with two,
    three or four parts it is the sum [(a<<24) + b], [(a<<24) + (b<<16) + c]
    or [(a<<24) + (b<<16) + (c<<8) + d] cut to 32 bits. Every result other
    than the sentinel lies in [0, 2^32), so the sentinel is told apart
    from every address. Whenever each part fits its field (one byte, and
    16 or 24 bits for the last part of the short forms) the sum is the
    bitwise or the specification writes. *)
Theorem ip_result_by_part_count ip n base :
  match ip_parts ip n base with
  | [] => ip_cstr_to_number ip n base = -1
  | [a] => ip_cstr_to_number ip n base = a /\ 0 <= a < 2 ^ 32
  | [a; b] =>
      ip_cstr_to_number ip n base = (a * 2 ^ 24 + b) mod 2 ^ 32 /\
      0 <= ip_cstr_to_number ip n base < 2 ^ 32
  | [a; b; c] =>
      ip_cstr_to_number ip n base = (a * 2 ^ 24 + b * 2 ^ 16 + c) mod 2 ^ 32 /\
      0 <= ip_cstr_to_number ip n base < 2 ^ 32
  | [a; b; c; d] =>
      ip_cstr_to_number ip n base
      = (a * 2 ^ 24 + b * 2 ^ 16 + c * 2 ^ 8 + d) mod 2 ^ 32 /\
      0 <= ip_cstr_to_number ip n base < 2 ^ 32
  | _ => False
  end /\
  (ip_parts_in_range (ip_parts ip n base) = true ->
   ip_cstr_to_number ip n base = ip_or_rule (ip_parts ip n base)).
Proof.
  pose proof (ip_result_of_parts ip n base) as Hr.
  destruct (ip_parts_shape ip n base) as (Hlen & _ & HF).
  split.
  - destruct (ip_parts ip n base) as [|a [|b [|c [|d [|e l]]]]];
      try (simpl in Hlen; lia); try exact Hr;
      try (split; [exact Hr|rewrite Hr; apply to_uint32_range]).
    apply Forall_cons_1 in HF. destruct HF as [Ha _]. split; assumption.
  - intros Hin.
    destruct (ip_parts ip n base) as [|a l] eqn:Hp; [exact Hr|].
    destruct (ip_or_rule_in_range (a :: l)) as [Hor Hsum]; try assumption.
    { simpl in *; lia. }
    destruct (ip_result_range ip n base) as [Hres _]; [congruence|].
    rewrite Hres, Hp, Hor. apply to_uint32_small. exact Hsum.
Qed.

(** C3, the theorem at work: the four parts of ["192.168.178.255"] are
    bytes, so its address is the bitwise or of the shifted parts. *)
Lemma ip_result_by_part_count_witness :
  ip_parts_in_range (ip_parts "192.168.178.255" 13 0) = true /\
  ip_cstr_to_number "192.168.178.255" 13 0
  = ip_or_rule (ip_parts "192.168.178.255" 13 0).
Proof.
  split; [reflexivity|].
  apply (proj2 (ip_result_by_part_count "192.168.178.255" 13 0)).
  reflexivity.
Defined.

(** C3, as the specification states it, fails: the second part of
    ["1.256.0.0"] is 256, the code adds [256 << 16] to [1 << 24] and
    returns 2.0.0.0, while the bitwise or of the two is 1.0.0.0. *)
Lemma ip_or_rule_fails_on_oversized_part :
  ip_parts "1.256.0.0" 13 0 = [1; 256; 0; 0] /\
  ip_cstr_to_number "1.256.0.0" 13 0 = 33554432 /\
  ip_or_rule [1; 256; 0; 0] = 16777216 /\
  ip_cstr_to_number "1.256.0.0" 13 0 <> ip_or_rule (ip_parts "1.256.0.0" 13 0).
Proof. repeat split; vm_compute; congruence. Qed.

(** C6, as amended. With the scan length and base [wake_on_lan] passes,
    ["192.168.178.255"] parses to 3232281343, which is 0xC0A8B2FF;
    ["10.1"] parses to [10<<24 | 1] = 167772161; texts without a digit,
    such as ["abc"] or the empty text, give the sentinel -1. *)
Theorem ip_examples :
  ip_cstr_to_number "192.168.178.255" 13 0 = 3232281343 /\
  3232281343 = 0xC0A8B2FF /\
  ip_cstr_to_number "10.1" 13 0 = 167772161 /\
  167772161 = Z.lor (Z.shiftl 10 24) 1 /\
  ip_cstr_to_number "abc" 13 0 = -1 /\
  ip_cstr_to_number "" 13 0 = -1.
Proof. repeat split; vm_compute; reflexivity. Qed.

(** C6, as the specification states it, fails: the decimal value it
    gives for ["192.168.178.255"], 3232286975, is 0xC0A8C8FF
    (192.168.200.255) and not what the parser returns. *)
Lemma ip_example_decimal_is_wrong :
  ip_cstr_to_number "192.168.178.255" 13 0 <> 3232286975 /\
  3232286975 <> 0xC0A8B2FF /\
  3232286975 = 0xC0A8C8FF.
Proof. repeat split; vm_compute; congruence. Qed.

(** ** The MAC parser *)

Lemma mac_loop_S fuel p i no h :
  mac_loop (S fuel) p i no h =
  let c := char_at p i in
  if (i <? 17)%nat && (h <? 12)%nat && negb (c =? 0) then
    if (chr "0" <=? c) && (chr "9" >=? c) then
      mac_loop fuel p (S i) (Z.shiftl no 4 + (c - chr "0")) (S h)
    else if (chr "A" <=? c) && (chr "F" >=? c) then
      mac_loop fuel p (S i) (Z.shiftl no 4 + (c + 10 - chr "A")) (S h)
    else if (chr "a" <=? c) && (chr "f" >=? c) then
      mac_loop fuel p (S i) (Z.shiftl no 4 + (c + 10 - chr "a")) (S h)
    else mac_loop fuel p (S i) no h
  else (no, h).
Proof. reflexivity. Qed.

(** Enough iterations: [17 - i] of them end the loop by its own
    condition, and more change nothing. *)
Lemma mac_loop_fuel p : forall f1 f2 i no h,
  (17 - i <= f1)%nat -> (17 - i <= f2)%nat ->
  mac_loop f1 p i no h = mac_loop f2 p i no h.
Proof.
  assert (stop : forall f i no h, (17 <= i)%nat -> mac_loop f p i no h = (no, h)).
  { intros [|f] i no h Hi; [reflexivity|]. rewrite mac_loop_S. cbv zeta.
    replace (i <? 17)%nat with false; [reflexivity|].
    symmetry. apply Nat.ltb_ge. lia. }
  induction f1 as [|f1 IH]; intros f2 i no h H1 H2.
  - rewrite (stop f2) by lia. reflexivity.
  - destruct f2 as [|f2].
    + rewrite (stop (S f1)) by lia. reflexivity.
    + rewrite !mac_loop_S. cbv zeta.
      destruct ((i <? 17)%nat && (h <? 12)%nat && negb (char_at p i =? 0));
        [|reflexivity].
      repeat match goal with
             | |- context [if ?b then _ else _] => destruct b
             end; apply IH; lia.
Qed.

(** What the loop computes: it takes in the hexadecimal digits of the
    characters left in its window, until it has twelve. *)
Lemma mac_loop_digits : forall (p pre : list Z) fuel no h,
  (h <= 12)%nat -> (17 - length pre <= fuel)%nat ->
  let ds := take (12 - h) (hex_digits (take (17 - length pre) (c_content p))) in
  mac_loop fuel (pre ++ p) (length pre) no h
  = (fold_left (fun acc d => acc * 16 + d) ds no, (h + length ds)%nat).
Proof.
  induction p as [|c p IH]; intros pre fuel no h Hh Hfuel ds; subst ds.
  - simpl c_content. rewrite take_nil. simpl. rewrite take_nil. simpl.
    rewrite Nat.add_0_r.
    destruct fuel as [|fuel]; [reflexivity|]. rewrite mac_loop_S. cbv zeta.
    rewrite char_at_ge by (rewrite length_app; simpl; lia).
    rewrite andb_false_r. reflexivity.
  - destruct fuel as [|fuel].
    { replace (17 - length pre)%nat with 0%nat by lia. rewrite take_0. simpl.
      rewrite take_nil. simpl. now rewrite Nat.add_0_r. }
    rewrite mac_loop_S. cbv zeta.
    assert (Hc : char_at (pre ++ c :: p) (length pre) = c).
    { unfold char_at. rewrite app_nth2 by lia. now rewrite Nat.sub_diag. }
    rewrite Hc. simpl c_content.
    destruct (length pre <? 17)%nat eqn:Hn.
    2:{ apply Nat.ltb_ge in Hn.
        replace (17 - length pre)%nat with 0%nat by lia. rewrite take_0. simpl.
        rewrite take_nil. simpl. now rewrite Nat.add_0_r. }
    apply Nat.ltb_lt in Hn.
    destruct (h <? 12)%nat eqn:Hh12.
    2:{ apply Nat.ltb_ge in Hh12.
        replace (12 - h)%nat with 0%nat by lia. rewrite take_0. simpl.
        now rewrite Nat.add_0_r. }
    apply Nat.ltb_lt in Hh12.
    destruct (c =? 0) eqn:Hc0.
    { simpl. rewrite take_nil. simpl. rewrite take_nil. simpl.
      now rewrite Nat.add_0_r. }
    cbn [andb negb].
    replace (17 - length pre)%nat with (S (17 - S (length pre))) by lia.
    rewrite firstn_cons. unfold hex_digits. cbn [omap list_omap].
    fold (omap hex_val (take (17 - S (length pre)) (c_content p))).
    assert (Hpre : forall no' h', (h' <= 12)%nat ->
       mac_loop fuel (pre ++ c :: p) (S (length pre)) no' h' =
       (fold_left (fun acc d => acc * 16 + d)
          (take (12 - h') (hex_digits (take (17 - S (length pre)) (c_content p)))) no',
        (h' + length (take (12 - h')
                 (hex_digits (take (17 - S (length pre)) (c_content p)))))%nat)).
    { intros no' h' Hh'.
      specialize (IH (pre ++ [c]) fuel no' h' Hh').
      rewrite length_app, <- app_assoc in IH. simpl in IH.
      replace (length pre + 1)%nat with (S (length pre)) in IH by lia.
      apply IH. lia. }
    assert (Hv : hex_val c =
              if (chr "0" <=? c) && (chr "9" >=? c) then Some (c - chr "0")
              else if (chr "A" <=? c) && (chr "F" >=? c) then Some (c + 10 - chr "A")
              else if (chr "a" <=? c) && (chr "f" >=? c) then Some (c + 10 - chr "a")
              else None).
    { unfold hex_val. rewrite !(Z.geb_leb _ c). reflexivity. }
    rewrite Hv. clear Hv.
    replace (12 - h)%nat with (S (12 - S h)) by lia.
    assert (Hsh : Z.shiftl no 4 = no * 16) by (now rewrite Z.shiftl_mul_pow2 by lia).
    rewrite Hsh.
    destruct ((chr "0" <=? c) && (chr "9" >=? c)).
    { rewrite Hpre by lia. rewrite firstn_cons. unfold hex_digits. simpl.
      f_equal. lia. }
    destruct ((chr "A" <=? c) && (chr "F" >=? c)).
    { rewrite Hpre by lia. rewrite firstn_cons. unfold hex_digits. simpl.
      f_equal. lia. }
    destruct ((chr "a" <=? c) && (chr "f" >=? c)).
    { rewrite Hpre by lia. rewrite firstn_cons. unfold hex_digits. simpl.
      f_equal. lia. }
    rewrite Hpre by lia.
    replace (S (12 - S h)) with (12 - h)%nat by lia. reflexivity.
Qed.

Lemma hex_val_range c d : hex_val c = Some d -> 0 <= d < 16.
Proof.
  unfold hex_val. chr_eval.
  repeat match goal with
         | |- context [?a <=? ?b] => destruct (Z.leb_spec a b)
         end; simpl in *; intros Hd; inversion Hd; lia.
Qed.

Lemma hex_digits_range l : Forall (fun d => 0 <= d < 16) (hex_digits l).
Proof.
  unfold hex_digits. induction l as [|c l IH]; simpl; [constructor|].
  destruct (hex_val c) as [d|] eqn:Hc; [|exact IH].
  constructor; [eapply hex_val_range; eassumption|exact IH].
Qed.

Lemma nibbles_fold ds : forall acc,
  fold_left (fun acc d => acc * 16 + d) ds acc
  = acc * 16 ^ Z.of_nat (length ds) + nibbles_value ds.
Proof.
  unfold nibbles_value. induction ds as [|d ds IH]; intros acc.
  - simpl. lia.
  - cbn [fold_left]. rewrite IH, (IH (0 * 16 + d)).
    cbn [length]. rewrite Nat2Z.inj_succ, Z.pow_succ_r by lia. ring.
Qed.

Lemma nibbles_value_range ds :
  Forall (fun d => 0 <= d < 16) ds ->
  0 <= nibbles_value ds < 16 ^ Z.of_nat (length ds).
Proof.
  induction 1 as [|d ds Hd _ IH].
  - unfold nibbles_value; simpl. lia.
  - unfold nibbles_value. cbn [fold_left]. rewrite nibbles_fold.
    cbn [length]. rewrite Nat2Z.inj_succ, Z.pow_succ_r by lia.
    assert (0 < 16 ^ Z.of_nat (length ds)) by (apply Z.pow_pos_nonneg; lia).
    nia.
Qed.

(** The parser in terms of the digits in its window. *)
Lemma mac_cstr_to_number_digits s :
  mac_cstr_to_number s =
  if (12 <=? length (hex_digits (mac_window s)))%nat
  then nibbles_value (take 12 (hex_digits (mac_window s)))
  else -1.
Proof.
  unfold mac_cstr_to_number, mac_window.
  pose proof (mac_loop_digits (cstr s) [] 17 0 0) as H.
  cbv zeta in H. simpl length in H. simpl app in H.
  rewrite H by lia. clear H.
  change (17 - 0)%nat with 17%nat. change (12 - 0)%nat with 12%nat.
  rewrite Nat.add_0_l, length_take.
  set (ds := hex_digits (take 17 (c_content (cstr s)))).
  destruct (12 <=? length ds)%nat eqn:Hlen.
  - apply Nat.leb_le in Hlen.
    replace (12 `min` length ds)%nat with 12%nat by lia. reflexivity.
  - apply Nat.leb_gt in Hlen.
    replace (12 =? 12 `min` length ds)%nat with false; [reflexivity|].
    symmetry. apply Nat.eqb_neq. lia.
Qed.

Lemma toupper_hex_val c : hex_val (toupper c) = hex_val c.
Proof.
  unfold toupper. chr_eval.
  destruct (Z.leb_spec 97 c); [|reflexivity].
  destruct (Z.leb_spec c 122); [|reflexivity].
  unfold hex_val. chr_eval. cbn [andb].
  repeat match goal with
         | |- context [?a <=? ?b] =>
             destruct (Z.leb_spec a b); try (exfalso; lia); cbn [andb]
         end; try reflexivity; f_equal; lia.
Qed.

Lemma toupper_nul c : (toupper c =? 0) = (c =? 0).
Proof.
  unfold toupper. chr_eval.
  repeat match goal with
         | |- context [?a <=? ?b] => destruct (Z.leb_spec a b)
         end; simpl in *; try reflexivity.
  destruct (Z.eqb_spec (c - 32) 0), (Z.eqb_spec c 0); try reflexivity; lia.
Qed.

Lemma chr_toupper_ascii a : chr (toupper_ascii a) = toupper (chr a).
Proof. destruct a as [[] [] [] [] [] [] [] []]; reflexivity. Qed.

Lemma cstr_upcase s : cstr (upcase s) = map toupper (cstr s).
Proof.
  unfold cstr. induction s as [|a s IH]; [reflexivity|].
  simpl. rewrite chr_toupper_ascii. f_equal. exact IH.
Qed.

Lemma c_content_toupper p : c_content (map toupper p) = map toupper (c_content p).
Proof.
  induction p as [|c p IH]; [reflexivity|].
  simpl. rewrite toupper_nul. destruct (c =? 0); [reflexivity|].
  simpl. now rewrite IH.
Qed.

Lemma hex_digits_toupper l : hex_digits (map toupper l) = hex_digits l.
Proof.
  unfold hex_digits. induction l as [|c l IH]; [reflexivity|].
  cbn [map omap list_omap] in *. rewrite toupper_hex_val, IH. reflexivity.
Qed.

Lemma mac_upcase s : mac_cstr_to_number (upcase s) = mac_cstr_to_number s.
Proof.
  rewrite !mac_cstr_to_number_digits. unfold mac_window.
  rewrite cstr_upcase, c_content_toupper, firstn_map, hex_digits_toupper.
  reflexivity.
Qed.

(** A successful parse: the value of the first twelve digits. *)
Lemma mac_success s :
  (12 <= length (hex_digits (mac_window s)))%nat ->
  mac_cstr_to_number s = nibbles_value (take 12 (hex_digits (mac_window s))) /\
  0 <= mac_cstr_to_number s < 2 ^ 48 /\
  mac_cstr_to_number s / 16 ^ 11 = nth 0 (hex_digits (mac_window s)) 0.
Proof.
  intros Hlen. rewrite mac_cstr_to_number_digits.
  pose proof (hex_digits_range (mac_window s)) as HF.
  destruct (hex_digits (mac_window s)) as [|d ds] eqn:Hds; [simpl in Hlen; lia|].
  replace (12 <=? length (d :: ds))%nat with true
    by (symmetry; apply Nat.leb_le; exact Hlen).
  split; [reflexivity|].
  rewrite firstn_cons.
  apply Forall_cons_1 in HF. destruct HF as [Hd HF].
  assert (Hr : 0 <= nibbles_value (take 11 ds)
               < 16 ^ Z.of_nat (length (take 11 ds)))
    by (apply nibbles_value_range, Forall_take, HF).
  assert (Hv : nibbles_value (d :: take 11 ds)
               = d * 16 ^ Z.of_nat (length (take 11 ds))
                 + nibbles_value (take 11 ds)).
  { unfold nibbles_value at 1. cbn [fold_left]. rewrite nibbles_fold. lia. }
  rewrite length_take in *. simpl in Hlen.
  replace (11 `min` length ds)%nat with 11%nat in * by lia.
  change (Z.of_nat 11) with 11 in *.
  rewrite Hv. split; [lia|]. cbn [nth].
  rewrite Z.add_comm, Z.div_add by lia.
  rewrite Z.div_small by lia. lia.
Qed.

Lemma mac_success_iff s :
  mac_cstr_to_number s <> -1 <-> (12 <= length (hex_digits (mac_window s)))%nat.
Proof.
  split.
  - intros Hne. rewrite mac_cstr_to_number_digits in Hne.
    destruct (12 <=? length (hex_digits (mac_window s)))%nat eqn:Hlen;
      [now apply Nat.leb_le in Hlen|congruence].
  - intros Hlen. destruct (mac_success s Hlen) as (_ & Hr & _). lia.
Qed.

Lemma mac_success_range s :
  mac_cstr_to_number s <> -1 -> 0 <= mac_cstr_to_number s < 2 ^ 48.
Proof. intros H. apply mac_success_iff in H. apply (mac_success s H). Qed.

(** C4, as amended. [mac_cstr_to_number] succeeds exactly when at least
    twelve hexadecimal digits stand among the first 17 characters of the
    text: characters that are not hexadecimal digits are passed over
    without being counted, and with fewer than twelve digits the result
    is -1. The scan ends at the twelfth digit, so further digits are not
    read and do not make the parse fail. On success the result is the
    48-bit number whose nibbles are the first twelve digits, the first
    one the most significant; upper and lower case digits have the same
    value. ["FF:FF:FF:FF:FF:FF"] gives 0xFFFFFFFFFFFF,
    ["AABBCCDDEEFF"] gives 0xAABBCCDDEEFF and ["AA:BB"] fails. *)
Theorem mac_parser_rule s :
  (mac_cstr_to_number s <> -1 <-> (12 <= length (hex_digits (mac_window s)))%nat) /\
  ((12 <= length (hex_digits (mac_window s)))%nat ->
   mac_cstr_to_number s = nibbles_value (take 12 (hex_digits (mac_window s))) /\
   0 <= mac_cstr_to_number s < 2 ^ 48 /\
   mac_cstr_to_number s / 16 ^ 11 = nth 0 (hex_digits (mac_window s)) 0) /\
  mac_cstr_to_number (upcase s) = mac_cstr_to_number s /\
  mac_cstr_to_number "FF:FF:FF:FF:FF:FF" = 0xFFFFFFFFFFFF /\
  mac_cstr_to_number "AABBCCDDEEFF" = 0xAABBCCDDEEFF /\
  mac_cstr_to_number "aa:bb:cc:dd:ee:ff" = 0xAABBCCDDEEFF /\
  mac_cstr_to_number "AA:BB" = -1.
Proof.
  split; [apply mac_success_iff|].
  split; [apply mac_success|].
  split; [apply mac_upcase|].
  repeat split; vm_compute; reflexivity.
Qed.

(** C4, the theorem at work on ["00:11:22:33:44:55"]. *)
Lemma mac_parser_rule_witness :
  (12 <= length (hex_digits (mac_window "00:11:22:33:44:55")))%nat /\
  mac_cstr_to_number "00:11:22:33:44:55"
  = nibbles_value (take 12 (hex_digits (mac_window "00:11:22:33:44:55"))).
Proof.
  assert (H : (12 <= length (hex_digits (mac_window "00:11:22:33:44:55")))%nat)
    by (vm_compute; lia).
  split; [exact H|].
  exact (proj1 (proj1 (proj2 (mac_parser_rule "00:11:22:33:44:55")) H)).
Defined.

(** C4, as the specification states it, fails twice. A text with more
    than twelve hexadecimal digits among its first 17 characters is
    parsed, from its first twelve digits; and ["AABBCCDDEEFF"] gives
    0xAABBCCDDEEFF, not 0xFFFFFFFFFFFF. *)
Lemma mac_more_digits_accepted :
  length (hex_digits (mac_window "AABBCCDDEEFF00")) = 14%nat /\
  mac_cstr_to_number "AABBCCDDEEFF00" = 0xAABBCCDDEEFF /\
  mac_cstr_to_number "AABBCCDDEEFF00" <> -1 /\
  mac_cstr_to_number "AABBCCDDEEFF" <> 0xFFFFFFFFFFFF.
Proof. repeat split; vm_compute; congruence. Qed.

(** ** The packet *)

(** A byte read through a truncation that keeps it. *)
Lemma byte_of_trunc x a b :
  0 <= a -> a + 8 <= b -> (x mod 2 ^ b) / 2 ^ a mod 2 ^ 8 = x / 2 ^ a mod 2 ^ 8.
Proof.
  intros Ha Hb. apply Z.bits_inj'; intros n Hn.
  rewrite !Z.testbit_mod_pow2 by lia.
  destruct (n <? 8) eqn:E; simpl; [|reflexivity]. apply Z.ltb_lt in E.
  rewrite !Z.div_pow2_bits by lia. rewrite Z.testbit_mod_pow2 by lia.
  replace (n + a <? b) with true; [reflexivity|]. symmetry; apply Z.ltb_lt; lia.
Qed.

Lemma GET_BYTE_spec m :
  [GET_BYTE_5 m; GET_BYTE_4 m; GET_BYTE_3 m; GET_BYTE_2 m; GET_BYTE_1 m; GET_BYTE_0 m]
  = mac_bytes m.
Proof.
  unfold mac_bytes, GET_BYTE_5, GET_BYTE_4, GET_BYTE_3, GET_BYTE_2, GET_BYTE_1,
    GET_BYTE_0, to_uint8, to_uint16, to_uint32, to_uint64.
  change 255 with (Z.ones 8).
  rewrite !Z.land_ones, !Z.shiftr_div_pow2 by lia.
  rewrite !byte_of_trunc by lia.
  change (2 ^ 0) with 1. rewrite Z.div_1_r. reflexivity.
Qed.

Lemma to_uint8_to_char b : 0 <= b < 256 -> to_uint8 (to_char b) = b.
Proof.
  intros Hb. unfold to_uint8, to_char. change (2 ^ 8) with 256.
  Z.to_euclidean_division_equations. lia.
Qed.

Lemma mac_bytes_range m : Forall (fun b => 0 <= b < 256) (mac_bytes m).
Proof. unfold mac_bytes. repeat constructor; apply Z.mod_pos_bound; lia. Qed.

Lemma bytes_value_mac_bytes m : 0 <= m < 2 ^ 48 -> bytes_value (mac_bytes m) = m.
Proof.
  intros Hm. unfold bytes_value, mac_bytes. cbn [fold_left].
  replace (m / 2 ^ 40) with (m / 256 / 256 / 256 / 256 / 256)
    by (rewrite !Z.div_div by lia; reflexivity).
  replace (m / 2 ^ 32) with (m / 256 / 256 / 256 / 256)
    by (rewrite !Z.div_div by lia; reflexivity).
  replace (m / 2 ^ 24) with (m / 256 / 256 / 256)
    by (rewrite !Z.div_div by lia; reflexivity).
  replace (m / 2 ^ 16) with (m / 256 / 256)
    by (rewrite !Z.div_div by lia; reflexivity).
  change (2 ^ 8) with 256. change (2 ^ 48) with 281474976710656 in Hm.
  Z.to_euclidean_division_equations. lia.
Qed.

(** Enough iterations: [17 - i] of them end the filling loop by its own
    condition, and more change nothing. *)
Lemma fill_loop_fuel mac5 mac4 mac3 mac2 mac1 mac0 : forall f1 f2 i data,
  (Z.to_nat (17 - i) <= f1)%nat -> (Z.to_nat (17 - i) <= f2)%nat ->
  fill_loop f1 i mac5 mac4 mac3 mac2 mac1 mac0 data
  = fill_loop f2 i mac5 mac4 mac3 mac2 mac1 mac0 data.
Proof.
  assert (stop : forall f i data, 16 < i ->
            fill_loop f i mac5 mac4 mac3 mac2 mac1 mac0 data = data).
  { intros [|f] i data Hi; [reflexivity|]. cbn [fill_loop].
    destruct (Z.leb_spec i 16); [lia|reflexivity]. }
  induction f1 as [|f1 IH]; intros f2 i data H1 H2.
  - rewrite (stop f2) by lia. reflexivity.
  - destruct f2 as [|f2].
    + rewrite (stop (S f1)) by lia. reflexivity.
    + cbn [fill_loop]. destruct (Z.leb_spec i 16); [|reflexivity].
      apply IH; lia.
Qed.

(** The filling loop on an array of 102 elements: the first six stay,
    the other 96 are sixteen copies of the six bytes stored. *)
Lemma fill_loop_full mac5 mac4 mac3 mac2 mac1 mac0 (data : list Z) :
  length data = 102%nat ->
  fill_loop 16 1 mac5 mac4 mac3 mac2 mac1 mac0 data
  = take 6 data
    ++ concat (replicate 16 [to_uint8 mac5; to_uint8 mac4; to_uint8 mac3;
                             to_uint8 mac2; to_uint8 mac1; to_uint8 mac0]).
Proof.
  intros Hlen.
  do 102 (destruct data as [|? data]; [discriminate Hlen|]).
  destruct data; [|discriminate Hlen].
  cbv -[to_uint8]. reflexivity.
Qed.

Lemma data_init_shape junk :
  length (data_init junk) = 102%nat /\ take 6 (data_init junk) = replicate 6 255.
Proof.
  unfold data_init, store.
  assert (Hlen : length (take 102 (junk ++ replicate 102 0)) = 102%nat).
  { rewrite length_take, length_app, length_replicate. lia. }
  revert Hlen. generalize (take 102 (junk ++ replicate 102 0)). intros data Hlen.
  do 6 (destruct data as [|? data]; [discriminate Hlen|]).
  split; [|reflexivity].
  rewrite !length_insert. exact Hlen.
Qed.

Lemma fill_packet_magic m junk : fill_packet m (data_init junk) = magic_packet m.
Proof.
  destruct (data_init_shape junk) as [Hlen Hsync].
  unfold fill_packet. rewrite fill_loop_full by exact Hlen.
  unfold magic_packet. rewrite Hsync. f_equal. f_equal.
  rewrite <- GET_BYTE_spec.
  pose proof (mac_bytes_range m) as HF. rewrite <- GET_BYTE_spec in HF.
  repeat (apply Forall_cons_1 in HF; destruct HF as [? HF]).
  rewrite !to_uint8_to_char by assumption. reflexivity.
Qed.

Lemma magic_packet_length m : length (magic_packet m) = 102%nat.
Proof. reflexivity. Qed.

(** ** Runs of [wake_on_lan] *)

(** Closes the goals whose tests contradict each other. *)
Ltac wol_absurd :=
  repeat match goal with
         | H : negb _ = true |- _ => apply negb_true_iff in H
         | H : negb _ = false |- _ => apply negb_false_iff in H
         | H : _ || _ = false |- _ => apply orb_false_elim in H; destruct H
         end;
  try match goal with
      | H1 : ?b = true, H2 : ?b = false |- _ => rewrite H1 in H2; discriminate H2
      | H : (?x =? ?x) = false |- _ => rewrite Z.eqb_refl in H; discriminate H
      end.

(** Runs the function on every path: one goal for each way through the
    tests, with the tests taken kept as hypotheses and the frame at the
    return written out. The results of the parsers and the initial
    array are kept abstract. *)
Ltac wol_run target sys wol ip port mac_text :=
  unfold wake_on_lan, wake_on_lan_wol, wake_on_lan_trace;
  let f := fresh "f" in
  let Hf := fresh "Hf" in
  remember (wake_on_lan_run target sys wol ip port mac_text) as f eqn:Hf;
  revert Hf;
  unfold wake_on_lan_run, wake_on_lan_block, wake_on_lan_epilogue, frame_init,
    fail, when, bind, ret, break, emit, set_return, set_sockfd, set_data, get,
    wol_set_ip_v4, wol_set_mac, wol_set_last_error, wol_set_return_value,
    assign_wol;
  generalize (ip_cstr_to_number ip 13 0); intros ip_no;
  generalize (mac_cstr_to_number mac_text); intros mac_no;
  generalize (data_init (stack_junk sys)); intros data0;
  tryif is_var target then destruct target else idtac;
  tryif is_var wol then destruct wol else idtac;
  repeat (cbn [fst snd f_wol f_return_value f_sockfd f_data f_trace app];
          match goal with
          | |- context [if ?b then _ else _] =>
              lazymatch b with
              | context [if _ then _ else _] => fail
              | _ => destruct b eqn:?
              end
          end);
  cbn [fst snd f_wol f_return_value f_sockfd f_data f_trace app];
  intros Hf; subst f;
  cbn [f_wol f_return_value f_sockfd f_data f_trace];
  wol_absurd.

Ltac in_cases :=
  repeat match goal with
         | H : In _ (_ :: _) |- _ => destruct H as [H|H]
         | H : In _ [] |- _ => destruct H
         | H : _ = _ :> event |- _ => discriminate H || (inversion H; clear H; subst)
         end.

(** The send, when it is reached: one datagram, with the packet of the
    parsed MAC, to the parsed address and the port. *)
Lemma sendto_event target sys wol ip port mac_text sockfd data len addr prt :
  In (Call_sendto sockfd data len addr prt)
     (wake_on_lan_trace target sys wol ip port mac_text) ->
  sockfd = socket_result sys /\
  data = fill_packet (mac_cstr_to_number mac_text) (data_init (stack_junk sys)) /\
  len = 102%nat /\
  addr = htonl (ip_cstr_to_number ip 13 0) /\
  prt = htons port /\
  ip_cstr_to_number ip 13 0 <> -1 /\
  mac_cstr_to_number mac_text <> -1.
Proof.
  assert (Hne : forall x, (-1 =? x) = false -> x <> -1)
    by (intros x Hx ->; discriminate Hx).
  revert sockfd data len addr prt.
  wol_run target sys wol ip port mac_text;
    intros sockfd data len addr prt Hin; in_cases; auto 10.
Qed.

(** C1. For every 48-bit MAC value the buffer [wake_on_lan] builds,
    whatever the stack held before, has 102 bytes: six bytes 0xFF, then
    sixteen copies of the six bytes of the MAC, the most significant
    first; the six bytes are the base-256 digits of the MAC. Every
    datagram the function sends carries that buffer, for the MAC parsed
    from [mac_cstr], with length 102. For 00:11:22:33:44:55 the buffer
    is six 0xFF followed by sixteen copies of
    [0x00, 0x11, 0x22, 0x33, 0x44, 0x55]. *)
Theorem magic_packet_built_and_sent :
  (forall m junk, 0 <= m < 2 ^ 48 ->
     fill_packet m (data_init junk)
     = replicate 6 255 ++ concat (replicate 16 (mac_bytes m)) /\
     length (fill_packet m (data_init junk)) = 102%nat /\
     Forall (fun b => 0 <= b < 256) (mac_bytes m) /\
     bytes_value (mac_bytes m) = m) /\
  (forall target sys wol ip port mac_text sockfd data len addr prt,
     In (Call_sendto sockfd data len addr prt)
        (wake_on_lan_trace target sys wol ip port mac_text) ->
     0 <= mac_cstr_to_number mac_text < 2 ^ 48 /\
     len = 102%nat /\
     data = replicate 6 255
            ++ concat (replicate 16 (mac_bytes (mac_cstr_to_number mac_text)))) /\
  (forall junk,
     fill_packet (mac_cstr_to_number "00:11:22:33:44:55") (data_init junk)
     = replicate 6 0xFF
       ++ concat (replicate 16 [0x00; 0x11; 0x22; 0x33; 0x44; 0x55])).
Proof.
  split; [|split].
  - intros m junk Hm. rewrite fill_packet_magic.
    split; [reflexivity|]. split; [apply magic_packet_length|].
    split; [apply mac_bytes_range|apply bytes_value_mac_bytes, Hm].
  - intros target sys wol ip port mac_text sockfd data len addr prt Hin.
    apply sendto_event in Hin.
    destruct Hin as (_ & Hdata & Hlen & _ & _ & _ & Hmac).
    split; [apply mac_success_range, Hmac|]. split; [exact Hlen|].
    rewrite Hdata. apply fill_packet_magic.
  - intros junk. rewrite fill_packet_magic. reflexivity.
Qed.

(** C1, the theorem at work: the MAC 00:11:22:33:44:55 as a number, and
    the datagram of a call where every step succeeds. *)
Lemma magic_packet_built_and_sent_witness :
  fill_packet 0x001122334455 (data_init [1; 2; 3])
  = replicate 6 255 ++ concat (replicate 16 (mac_bytes 0x001122334455)) /\
  In (Call_sendto 3 (magic_packet 0x001122334455) 102 [192; 168; 178; 255] [0; 9])
     (wake_on_lan_trace POSIX os_ok None "192.168.178.255" 9 "00:11:22:33:44:55") /\
  0 <= mac_cstr_to_number "00:11:22:33:44:55" < 2 ^ 48.
Proof.
  split; [|split].
  - apply (proj1 magic_packet_built_and_sent 0x001122334455 [1; 2; 3]). lia.
  - vm_compute. intuition reflexivity.
  - refine (proj1 (proj1 (proj2 magic_packet_built_and_sent)
                     POSIX os_ok None "192.168.178.255"%string 9
                     "00:11:22:33:44:55"%string
                     3 (magic_packet 0x001122334455) 102%nat
                     [192; 168; 178; 255] [0; 9] _)).
    vm_compute. intuition reflexivity.
Defined.

(** Looks at the events of a known trace one position at a time. *)
Ltac at_each_position k Hk He :=
  repeat (destruct k as [|k];
          [ simpl in Hk; injection Hk as <-; simpl in He;
            try discriminate He; simpl; auto 12
          | simpl in Hk ]);
  try (destruct k; discriminate Hk).

(** The tests taken on a path, as propositions. *)
Ltac wol_facts :=
  repeat match goal with
         | H : (_ =? _) = true |- _ => apply Z.eqb_eq in H
         | H : (_ =? _) = false |- _ => apply Z.eqb_neq in H
         | H : (_ >? _) = true |- _ => apply Z.gtb_lt in H
         | H : (_ >? _) = false |- _ => rewrite Z.gtb_ltb in H; apply Z.ltb_ge in H
         end.

(** The record after the call is the record before it with the
    assignments of the trace made, in their order: every assignment
    listed is a store into the record, and there is no other store. *)
Lemma wake_on_lan_wol_replay target sys r ip port mac_text :
  wake_on_lan_wol target sys (Some r) ip port mac_text
  = Some (record_after r (wake_on_lan_trace target sys (Some r) ip port mac_text)).
Proof.
  unfold record_after.
  wol_run target sys (Some r) ip port mac_text.
  all: reflexivity.
Qed.

(** At every socket step the record holds the parsed address and the
    parsed MAC. *)
Lemma record_at_socket_step target sys r ip port mac_text k e :
  nth_error (wake_on_lan_trace target sys (Some r) ip port mac_text) k = Some e ->
  is_socket_step e = true ->
  ip_v4 (record_after r (take k (wake_on_lan_trace target sys (Some r) ip port mac_text)))
  = to_uint32 (ip_cstr_to_number ip 13 0) /\
  mac (record_after r (take k (wake_on_lan_trace target sys (Some r) ip port mac_text)))
  = mac_cstr_to_number mac_text.
Proof.
  unfold record_after. revert k e.
  wol_run target sys (Some r) ip port mac_text.
  all: intros k e Hk He; at_each_position k Hk He.
Qed.

(** Once a socket step is made, the record returned holds the parsed
    address and the parsed MAC, whatever the later steps answer. *)
Lemma record_after_socket_step target sys r ip port mac_text :
  existsb is_socket_step (wake_on_lan_trace target sys (Some r) ip port mac_text) = true ->
  option_map ip_v4 (wake_on_lan_wol target sys (Some r) ip port mac_text)
  = Some (to_uint32 (ip_cstr_to_number ip 13 0)) /\
  option_map mac (wake_on_lan_wol target sys (Some r) ip port mac_text)
  = Some (mac_cstr_to_number mac_text).
Proof.
  wol_run target sys (Some r) ip port mac_text.
  all: intros Hstep; try (vm_compute in Hstep; discriminate Hstep); split; reflexivity.
Qed.

(** The calls made while a field of the record is still to be written:
    the two parsers, and, after a parser has failed, what the function
    still does on its way out, [WSACleanup] and [close(-1)]. *)
Lemma call_before_record_fields target sys r ip port mac_text k e :
  nth_error (wake_on_lan_trace target sys (Some r) ip port mac_text) k = Some e ->
  is_call e = true ->
  is_parser_call e = true \/
  (In (Set_ip_v4 (to_uint32 (ip_cstr_to_number ip 13 0)))
      (take k (wake_on_lan_trace target sys (Some r) ip port mac_text)) /\
   In (Set_mac (mac_cstr_to_number mac_text))
      (take k (wake_on_lan_trace target sys (Some r) ip port mac_text))) \/
  ((e = Call_WSACleanup \/ e = Call_close (-1)) /\
   (ip_cstr_to_number ip 13 0 = -1 \/ mac_cstr_to_number mac_text = -1)).
Proof.
  revert k e.
  wol_run target sys (Some r) ip port mac_text; wol_facts.
  all: intros k e Hk He.
  all: repeat (destruct k as [|k];
               [ simpl in Hk; injection Hk as <-; simpl in He;
                 try discriminate He;
                 first [ left; reflexivity
                       | right; left; split; simpl; solve [auto 12]
                       | right; right; split; [solve [auto]|lia] ]
               | simpl in Hk ]);
    try (destruct k; discriminate Hk).
Qed.

(** C2. When [ip_cstr_to_number] fails on [ip_v4_cstr], whatever
    [mac_cstr] is, [wake_on_lan] returns [WAKE_ON_LAN_ERRORS_IP],
    [mac_cstr_to_number] is not called and no assignment to [wol->mac]
    is made: the field keeps the value the caller left in it. In every
    call with a record, each socket step (the start of the networking
    subsystem, [socket], [setsockopt], [sendto], the closing of a socket
    that exists) comes after the assignments of the parsed address to
    [wol->ip_v4] and of the parsed MAC to [wol->mac]; and the assignment
    of the result to [wol->return_value] is the last event of the call,
    is the only one, and stores the value returned.

    The assignments are stores into the record: the record after the
    call is the record before it with the assignments made in their
    order, and nothing else changes it. So at every socket step the
    fields [ip_v4] and [mac] of the record hold the parsed address and
    the parsed MAC, and once a socket step is made the record returned
    holds them, whatever the later steps answer. The only calls made
    while a field is still to be written are the two parsers and, after
    a parser has failed, [WSACleanup] and [close(-1)], which the function
    makes on every way out. *)
Theorem ip_failure_and_record_order target sys wol ip port mac_text :
  (ip_cstr_to_number ip 13 0 = -1 ->
   wake_on_lan target sys wol ip port mac_text = WAKE_ON_LAN_ERRORS_IP /\
   (forall s, ~ In (Call_mac_cstr_to_number s)
                   (wake_on_lan_trace target sys wol ip port mac_text)) /\
   (forall v, ~ In (Set_mac v) (wake_on_lan_trace target sys wol ip port mac_text)) /\
   option_map mac (wake_on_lan_wol target sys wol ip port mac_text)
   = option_map mac wol) /\
  (forall k e,
     nth_error (wake_on_lan_trace target sys wol ip port mac_text) k = Some e ->
     is_socket_step e = true -> wol <> None ->
     In (Set_ip_v4 (to_uint32 (ip_cstr_to_number ip 13 0)))
        (take k (wake_on_lan_trace target sys wol ip port mac_text)) /\
     In (Set_mac (mac_cstr_to_number mac_text))
        (take k (wake_on_lan_trace target sys wol ip port mac_text))) /\
  (wol <> None ->
   last (wake_on_lan_trace target sys wol ip port mac_text)
   = Some (Set_return_value (wake_on_lan target sys wol ip port mac_text)) /\
   length (filter is_set_return_value
             (wake_on_lan_trace target sys wol ip port mac_text)) = 1%nat /\
   option_map return_value (wake_on_lan_wol target sys wol ip port mac_text)
   = Some (wake_on_lan target sys wol ip port mac_text)) /\
  (forall r, wol = Some r ->
     wake_on_lan_wol target sys wol ip port mac_text
     = Some (record_after r (wake_on_lan_trace target sys wol ip port mac_text)) /\
     (forall k e,
        nth_error (wake_on_lan_trace target sys wol ip port mac_text) k = Some e ->
        is_socket_step e = true ->
        ip_v4 (record_after r
                 (take k (wake_on_lan_trace target sys wol ip port mac_text)))
        = to_uint32 (ip_cstr_to_number ip 13 0) /\
        mac (record_after r
               (take k (wake_on_lan_trace target sys wol ip port mac_text)))
        = mac_cstr_to_number mac_text) /\
     (existsb is_socket_step (wake_on_lan_trace target sys wol ip port mac_text) = true ->
      option_map ip_v4 (wake_on_lan_wol target sys wol ip port mac_text)
      = Some (to_uint32 (ip_cstr_to_number ip 13 0)) /\
      option_map mac (wake_on_lan_wol target sys wol ip port mac_text)
      = Some (mac_cstr_to_number mac_text)) /\
     (forall k e,
        nth_error (wake_on_lan_trace target sys wol ip port mac_text) k = Some e ->
        is_call e = true ->
        is_parser_call e = true \/
        (In (Set_ip_v4 (to_uint32 (ip_cstr_to_number ip 13 0)))
            (take k (wake_on_lan_trace target sys wol ip port mac_text)) /\
         In (Set_mac (mac_cstr_to_number mac_text))
            (take k (wake_on_lan_trace target sys wol ip port mac_text))) \/
        ((e = Call_WSACleanup \/ e = Call_close (-1)) /\
         (ip_cstr_to_number ip 13 0 = -1 \/ mac_cstr_to_number mac_text = -1)))).
Proof.
  split; [|split; [|split]].
  4:{ intros r ->. split; [apply wake_on_lan_wol_replay|]. split; [|split].
      - intros k e. apply record_at_socket_step.
      - apply record_after_socket_step.
      - intros k e. apply call_before_record_fields. }
  all: wol_run target sys wol ip port mac_text.
  all: try (intros Hip; subst ip_no; try discriminate;
            repeat split; try reflexivity;
            intros x Hin; in_cases).
  all: try (intros k e Hk He Hwol; try congruence; at_each_position k Hk He).
  all: try (intros Hwol; try congruence; repeat split; reflexivity).
Qed.

(** C2, the theorem at work: a call with the text ["abc"] for the
    address, the creation of the socket in a call that succeeds, and the
    record after a call in which the send fails. *)
Lemma ip_failure_and_record_order_witness :
  (wake_on_lan POSIX os_ok (Some wol_blank) "abc" 9 "FF:FF:FF:FF:FF:FF"
   = WAKE_ON_LAN_ERRORS_IP) /\
  In (Set_mac (mac_cstr_to_number "00:11:22:33:44:55"))
     (take 5 (wake_on_lan_trace WIN32 os_ok (Some wol_blank) "10.1" 9
                "00:11:22:33:44:55")) /\
  (last (wake_on_lan_trace WIN32 os_ok (Some wol_blank) "10.1" 9 "00:11:22:33:44:55")
   = Some (Set_return_value
             (wake_on_lan WIN32 os_ok (Some wol_blank) "10.1" 9 "00:11:22:33:44:55"))) /\
  (option_map ip_v4
     (wake_on_lan_wol POSIX os_send_fails (Some wol_blank) "10.1" 9 "00:11:22:33:44:55")
   = Some (to_uint32 (ip_cstr_to_number "10.1" 13 0)) /\
   option_map mac
     (wake_on_lan_wol POSIX os_send_fails (Some wol_blank) "10.1" 9 "00:11:22:33:44:55")
   = Some (mac_cstr_to_number "00:11:22:33:44:55")).
Proof.
  split; [|split; [|split]].
  - apply (proj1 (ip_failure_and_record_order POSIX os_ok (Some wol_blank)
                    "abc" 9 "FF:FF:FF:FF:FF:FF")).
    vm_compute. reflexivity.
  - refine (proj2 (proj1 (proj2 (ip_failure_and_record_order WIN32 os_ok
                      (Some wol_blank) "10.1" 9 "00:11:22:33:44:55"))
                     5%nat Call_socket _ _ _)).
    + vm_compute. reflexivity.
    + reflexivity.
    + discriminate.
  - refine (proj1 (proj1 (proj2 (proj2 (ip_failure_and_record_order WIN32 os_ok
                      (Some wol_blank) "10.1" 9 "00:11:22:33:44:55"))) _)).
    discriminate.
  - refine (proj1 (proj2 (proj2 (proj2 (proj2 (proj2
              (ip_failure_and_record_order POSIX os_send_fails (Some wol_blank)
                 "10.1" 9 "00:11:22:33:44:55"))) wol_blank eq_refl))) _).
    vm_compute. reflexivity.
Defined.

(** C5. On the non-POSIX target: a socket that was created is closed
    on every path out of the function, and [closesocket] is called on
    nothing else; when that call fails the function returns
    [WAKE_ON_LAN_ERRORS_SOCKET_CLOSE] whatever happened before, also
    when every earlier step, the send included, succeeded; and
    [WSACleanup] is called in every call, as the last of the calls. *)
Theorem win32_close_and_cleanup sys wol ip port mac_text :
  (In Call_socket (wake_on_lan_trace WIN32 sys wol ip port mac_text) ->
   socket_result sys <> INVALID_SOCKET ->
   In (Call_closesocket (socket_result sys))
      (wake_on_lan_trace WIN32 sys wol ip port mac_text)) /\
  (forall sockfd,
     In (Call_closesocket sockfd) (wake_on_lan_trace WIN32 sys wol ip port mac_text) ->
     sockfd = socket_result sys /\ sockfd <> INVALID_SOCKET /\
     In Call_socket (wake_on_lan_trace WIN32 sys wol ip port mac_text)) /\
  (In (Call_closesocket (socket_result sys))
      (wake_on_lan_trace WIN32 sys wol ip port mac_text) ->
   closesocket_result sys = SOCKET_ERROR ->
   wake_on_lan WIN32 sys wol ip port mac_text = WAKE_ON_LAN_ERRORS_SOCKET_CLOSE) /\
  (existsb is_sendto (wake_on_lan_trace WIN32 sys wol ip port mac_text) = true ->
   sendto_result sys <> SOCKET_ERROR ->
   closesocket_result sys = SOCKET_ERROR ->
   wake_on_lan WIN32 sys wol ip port mac_text = WAKE_ON_LAN_ERRORS_SOCKET_CLOSE) /\
  (existsb is_sendto (wake_on_lan_trace WIN32 sys wol ip port mac_text) = true ->
   sendto_result sys <> SOCKET_ERROR ->
   closesocket_result sys <> SOCKET_ERROR ->
   wake_on_lan WIN32 sys wol ip port mac_text = WAKE_ON_LAN_ERRORS_NONE) /\
  last (filter is_call (wake_on_lan_trace WIN32 sys wol ip port mac_text))
  = Some Call_WSACleanup.
Proof.
  wol_run WIN32 sys wol ip port mac_text; wol_facts.
  all: repeat split; try reflexivity; intros; in_cases;
    try discriminate; try congruence; simpl; auto 12.
Qed.

(** C5, the theorem at work: every step succeeds, the datagram is sent,
    and [closesocket] fails, without and with a record; and the same
    call when [closesocket] succeeds. *)
Lemma win32_close_and_cleanup_witness :
  existsb is_sendto
    (wake_on_lan_trace WIN32 os_close_fails None "192.168.178.255" 9
       "00:11:22:33:44:55") = true /\
  In (Call_closesocket 3)
     (wake_on_lan_trace WIN32 os_close_fails None "192.168.178.255" 9
        "00:11:22:33:44:55") /\
  In Call_socket
     (wake_on_lan_trace WIN32 os_close_fails None "192.168.178.255" 9
        "00:11:22:33:44:55") /\
  wake_on_lan WIN32 os_close_fails None "192.168.178.255" 9 "00:11:22:33:44:55"
  = WAKE_ON_LAN_ERRORS_SOCKET_CLOSE /\
  wake_on_lan WIN32 os_close_fails (Some wol_blank) "10.1" 9 "00:11:22:33:44:55"
  = WAKE_ON_LAN_ERRORS_SOCKET_CLOSE /\
  wake_on_lan WIN32 os_ok None "192.168.178.255" 9 "00:11:22:33:44:55"
  = WAKE_ON_LAN_ERRORS_NONE.
Proof.
  assert (Hsend : existsb is_sendto
            (wake_on_lan_trace WIN32 os_close_fails None "192.168.178.255" 9
               "00:11:22:33:44:55") = true) by (vm_compute; reflexivity).
  assert (Hclose : In (Call_closesocket 3)
            (wake_on_lan_trace WIN32 os_close_fails None "192.168.178.255" 9
               "00:11:22:33:44:55")).
  { refine (proj1 (win32_close_and_cleanup os_close_fails None
                     "192.168.178.255" 9 "00:11:22:33:44:55") _ _).
    - vm_compute. intuition reflexivity.
    - vm_compute. discriminate. }
  split; [exact Hsend|]. split; [exact Hclose|]. split; [|split; [|split]].
  - apply (proj1 (proj2 (win32_close_and_cleanup os_close_fails None
                     "192.168.178.255" 9 "00:11:22:33:44:55")) 3 Hclose).
  - refine (proj1 (proj2 (proj2 (proj2 (win32_close_and_cleanup os_close_fails None
                     "192.168.178.255" 9 "00:11:22:33:44:55")))) Hsend _ _).
    + vm_compute. discriminate.
    + reflexivity.
  - refine (proj1 (proj2 (proj2 (win32_close_and_cleanup os_close_fails
                     (Some wol_blank) "10.1" 9 "00:11:22:33:44:55"))) _ _).
    + vm_compute. intuition reflexivity.
    + reflexivity.
  - refine (proj1 (proj2 (proj2 (proj2 (proj2 (win32_close_and_cleanup os_ok None
                     "192.168.178.255" 9 "00:11:22:33:44:55"))))) _ _ _).
    + vm_compute. reflexivity.
    + vm_compute. discriminate.
    + vm_compute. discriminate.
Defined.

(** ** The send step *)

Lemma htonl_value x : 0 <= x < 2 ^ 32 -> bytes_value (htonl x) = x.
Proof.
  intros Hx. unfold bytes_value, htonl. cbn [fold_left].
  rewrite to_uint32_small by exact Hx.
  replace (x / 2 ^ 24) with (x / 256 / 256 / 256)
    by (rewrite !Z.div_div by lia; reflexivity).
  replace (x / 2 ^ 16) with (x / 256 / 256)
    by (rewrite !Z.div_div by lia; reflexivity).
  change (2 ^ 8) with 256. change (2 ^ 32) with 4294967296 in Hx.
  Z.to_euclidean_division_equations. lia.
Qed.

Lemma htons_value x : 0 <= x < 2 ^ 16 -> bytes_value (htons x) = x.
Proof.
  intros Hx. unfold bytes_value, htons, to_uint16. cbn [fold_left].
  rewrite (Z.mod_small x (2 ^ 16)) by exact Hx.
  change (2 ^ 8) with 256. change (2 ^ 16) with 65536 in Hx.
  Z.to_euclidean_division_equations. lia.
Qed.

(** C8, as amended. The datagram is sent once, with the 102 bytes of
    the packet, to the parsed address and the port, both written most
    significant byte first. The function returns
    [WAKE_ON_LAN_ERRORS_SEND] exactly when the send is reached and
    [sendto] reports an error (a negative value on POSIX,
    [SOCKET_ERROR] on the other target), unless on the non-POSIX target
    the closing of the socket fails as well; a count below 102 is not
    looked at and the call succeeds. On the failure [wol->last_error]
    holds [WSAGetLastError()] on the non-POSIX target and the value
    [sendto] returned on POSIX. *)
Theorem send_step target sys wol ip port mac_text :
  (forall sockfd data len addr prt,
     In (Call_sendto sockfd data len addr prt)
        (wake_on_lan_trace target sys wol ip port mac_text) ->
     sockfd = socket_result sys /\
     data = magic_packet (mac_cstr_to_number mac_text) /\
     len = 102%nat /\
     addr = htonl (ip_cstr_to_number ip 13 0) /\
     bytes_value addr = ip_cstr_to_number ip 13 0 /\
     prt = htons port /\
     (0 <= port < 2 ^ 16 -> bytes_value prt = port)) /\
  (length (filter is_sendto (wake_on_lan_trace target sys wol ip port mac_text))
   <= 1)%nat /\
  (wake_on_lan target sys wol ip port mac_text = WAKE_ON_LAN_ERRORS_SEND <->
   existsb is_sendto (wake_on_lan_trace target sys wol ip port mac_text) = true /\
   send_error target (sendto_result sys) = true /\
   ~ (target = WIN32 /\ closesocket_result sys = SOCKET_ERROR)) /\
  (existsb is_sendto (wake_on_lan_trace target sys wol ip port mac_text) = true ->
   send_error target (sendto_result sys) = false ->
   ~ (target = WIN32 /\ closesocket_result sys = SOCKET_ERROR) ->
   wake_on_lan target sys wol ip port mac_text = WAKE_ON_LAN_ERRORS_NONE) /\
  (wol <> None ->
   wake_on_lan target sys wol ip port mac_text = WAKE_ON_LAN_ERRORS_SEND ->
   option_map last_error (wake_on_lan_wol target sys wol ip port mac_text)
   = Some (send_diagnostic target sys)).
Proof.
  split.
  { intros sockfd data len addr prt Hin. apply sendto_event in Hin.
    destruct Hin as (Hfd & Hdata & Hlen & Haddr & Hprt & Hip & Hmac).
    subst. repeat split; try reflexivity.
    - apply fill_packet_magic.
    - apply htonl_value.
      destruct (ip_result_range ip 13 0) as [_ Hr]; [|exact Hr].
      intros Hp. apply Hip, ip_failure_iff_no_part, Hp.
    - apply htons_value. }
  unfold send_error, send_diagnostic.
  wol_run target sys wol ip port mac_text.
  all: repeat split; try reflexivity; intros;
    repeat match goal with
           | H : _ /\ _ |- _ => destruct H
           end;
    try discriminate; try congruence; simpl; auto.
  all: wol_facts;
    try (exfalso; match goal with
                  | H : ~ _ |- _ => apply H; split; congruence
                  end);
    try (intros [? ?]; congruence).
Qed.

(** C8, the theorem at work: the send fails on POSIX, the function
    returns [WAKE_ON_LAN_ERRORS_SEND] and the record holds the value of
    [sendto]; and a call whose send succeeds. *)
Lemma send_step_witness :
  wake_on_lan POSIX os_send_fails (Some wol_blank) "10.1" 9 "00:11:22:33:44:55"
  = WAKE_ON_LAN_ERRORS_SEND /\
  option_map last_error
    (wake_on_lan_wol POSIX os_send_fails (Some wol_blank) "10.1" 9
       "00:11:22:33:44:55")
  = Some (send_diagnostic POSIX os_send_fails) /\
  bytes_value [10; 0; 0; 1] = ip_cstr_to_number "10.1" 13 0 /\
  bytes_value [0; 9] = 9 /\
  wake_on_lan POSIX os_ok (Some wol_blank) "10.1" 9 "00:11:22:33:44:55"
  = WAKE_ON_LAN_ERRORS_NONE.
Proof.
  assert (H : wake_on_lan POSIX os_send_fails (Some wol_blank) "10.1" 9
                "00:11:22:33:44:55" = WAKE_ON_LAN_ERRORS_SEND).
  { apply (proj1 (proj2 (proj2 (send_step POSIX os_send_fails (Some wol_blank)
                                  "10.1" 9 "00:11:22:33:44:55")))).
    split; [vm_compute; reflexivity|]. split; [reflexivity|].
    intros [Ht _]. discriminate Ht. }
  assert (Hin : In (Call_sendto 3 (magic_packet 0x001122334455) 102
                      [10; 0; 0; 1] [0; 9])
                   (wake_on_lan_trace POSIX os_send_fails (Some wol_blank) "10.1" 9
                      "00:11:22:33:44:55"))
    by (vm_compute; intuition reflexivity).
  pose proof (proj1 (send_step POSIX os_send_fails (Some wol_blank)
                       "10.1" 9 "00:11:22:33:44:55") _ _ _ _ _ Hin)
    as (_ & _ & _ & _ & Haddr & _ & Hport).
  split; [exact H|]. split; [|split; [exact Haddr|split]].
  - refine (proj2 (proj2 (proj2 (proj2 (send_step POSIX os_send_fails
              (Some wol_blank) "10.1" 9 "00:11:22:33:44:55")))) _ H).
    discriminate.
  - apply Hport. lia.
  - refine (proj1 (proj2 (proj2 (proj2 (send_step POSIX os_ok
              (Some wol_blank) "10.1" 9 "00:11:22:33:44:55")))) _ _ _).
    + vm_compute. reflexivity.
    + reflexivity.
    + intros [Ht _]. discriminate Ht.
Defined.

(** C8, as the specification states it, fails twice on POSIX. When
    [sendto] fails with [ENETUNREACH] in [errno], [wol->last_error]
    holds -1, the value of [sendto], not the error code of the
    operating system; and when [sendto] transmits 50 of the 102 bytes the
    function returns [WAKE_ON_LAN_ERRORS_NONE]. *)
Lemma send_diagnostic_is_not_errno :
  wake_on_lan POSIX os_send_fails (Some wol_blank) "10.1" 9 "00:11:22:33:44:55"
  = WAKE_ON_LAN_ERRORS_SEND /\
  errno os_send_fails SysSendto = 101 /\
  option_map last_error
    (wake_on_lan_wol POSIX os_send_fails (Some wol_blank) "10.1" 9
       "00:11:22:33:44:55") = Some (-1) /\
  option_map last_error
    (wake_on_lan_wol POSIX os_send_fails (Some wol_blank) "10.1" 9
       "00:11:22:33:44:55") <> Some (errno os_send_fails SysSendto) /\
  sendto_result os_short_send = 50 /\
  wake_on_lan POSIX os_short_send (Some wol_blank) "10.1" 9 "00:11:22:33:44:55"
  = WAKE_ON_LAN_ERRORS_NONE /\
  wake_on_lan WIN32 os_short_send (Some wol_blank) "10.1" 9 "00:11:22:33:44:55"
  = WAKE_ON_LAN_ERRORS_NONE.
Proof. repeat split; vm_compute; congruence. Qed.

(** ** What lies beyond the scan length *)

(** A run of digits ends at the latest on a character that is no digit:
    what follows that character is not read. *)
Lemma digits_run_stop b c q q' : digit_val c = None ->
  forall l acc,
    digits_run b (l ++ c :: q) acc = digits_run b (l ++ c :: q') acc /\
    (snd (digits_run b (l ++ c :: q) acc) <= length l)%nat.
Proof.
  intros Hc. induction l as [|a l IH]; intros acc.
  - simpl. rewrite Hc. split; [reflexivity|simpl; lia].
  - simpl. destruct (digit_val a) as [d|]; [|split; [reflexivity|simpl; lia]].
    destruct (d <? b); [|split; [reflexivity|simpl; lia]].
    destruct (IH (acc * b + d)) as [He Hn]. rewrite <- He.
    destruct (digits_run b (l ++ c :: q) (acc * b + d)) as [v n].
    split; [reflexivity|simpl in *; lia].
Qed.

(** [strtoumax] called on a digit reads no further than the first
    character that is neither a digit nor a letter. *)
Lemma strtoumax_stop base d l c q q' :
  isdigit d = true -> digit_val c = None ->
  strtoumax (d :: l ++ c :: q) base = strtoumax (d :: l ++ c :: q') base /\
  (snd (strtoumax (d :: l ++ c :: q) base) <= S (length l))%nat.
Proof.
  intros Hd Hc. unfold strtoumax.
  destruct (negb ((base =? 0) || (2 <=? base) && (base <=? 36)));
    [split; [reflexivity|simpl; lia]|].
  cbn [skip_space]. rewrite (isdigit_not_space d Hd).
  unfold ptr_add. rewrite !drop_0. cbn [char_at nth].
  destruct (isdigit_not_sign d Hd) as [-> ->]. cbn [orb]. rewrite !drop_0.
  cbn [char_at nth].
  assert (H0x : forall t,
     ((d =? chr "0")
      && ((nth 0 (l ++ c :: t) 0 =? chr "x") || (nth 0 (l ++ c :: t) 0 =? chr "X"))
      && is_digit_of 16 (nth 1 (l ++ c :: t) 0)) =
     ((d =? chr "0")
      && match l with
         | a :: b :: _ => ((a =? chr "x") || (a =? chr "X")) && is_digit_of 16 b
         | _ => false
         end)).
  { intros t. destruct l as [|a [|b l]]; cbn [nth app].
    - rewrite (not_digit_not_x c Hc). now rewrite andb_false_r.
    - unfold is_digit_of. rewrite Hc. now rewrite !andb_false_r.
    - now rewrite andb_assoc. }
  rewrite !H0x. clear H0x.
  set (h := (d =? chr "0") && _).
  assert (Hh : h = true -> (2 <= S (length l))%nat).
  { subst h. destruct l as [|a [|b l]]; rewrite ?andb_false_r; try discriminate.
    simpl. lia. }
  clearbody h.
  destruct (if ((base =? 0) || (base =? 16)) && h then (16, 2%nat)
            else if base =? 0
                 then (if d =? chr "0" then (8, 0%nat) else (10, 0%nat))
                 else (base, 0%nat)) as [b pre] eqn:Hbp.
  assert (Hp : (pre <= S (length l))%nat).
  { destruct (((base =? 0) || (base =? 16)) && h) eqn:Hx.
    - injection Hbp as _ <-. apply andb_prop in Hx. destruct Hx as [_ Hx].
      apply Hh, Hx.
    - destruct (base =? 0); [destruct (d =? chr "0")|]; injection Hbp as _ <-; lia. }
  change (d :: l ++ c :: q) with ((d :: l) ++ c :: q).
  change (d :: l ++ c :: q') with ((d :: l) ++ c :: q').
  rewrite !drop_app_le by (simpl; lia).
  destruct (digits_run_stop b c q q' Hc (drop pre (d :: l)) 0) as [He Hn].
  rewrite <- He. destruct (digits_run b (drop pre (d :: l) ++ c :: q) 0) as [v n].
  split; [reflexivity|].
  rewrite length_drop in Hn. simpl in Hn.
  destruct n; simpl; lia.
Qed.

(** Two texts that agree on their first [n - 1] characters and have the
    same character, neither a digit nor a letter, at index [n - 1], are
    scanned alike with the scan length [n]. *)
Lemma ip_loop_window base (w : list Z) c q q' :
  digit_val c = None ->
  forall fuel i st,
    ip_loop fuel (w ++ c :: q) (S (length w)) base i st
    = ip_loop fuel (w ++ c :: q') (S (length w)) base i st.
Proof.
  intros Hc.
  assert (Hchar : forall i, (i <= length w)%nat ->
            char_at (w ++ c :: q) i = char_at (w ++ c :: q') i).
  { intros i Hi. destruct (Nat.eq_dec i (length w)) as [->|Hne].
    - now rewrite !char_at_app_r.
    - now rewrite !char_at_app_l by lia. }
  induction fuel as [|fuel IH]; intros i st; [reflexivity|].
  rewrite !ip_loop_S.
  destruct (i <? S (length w))%nat eqn:Hi; [|reflexivity].
  apply Nat.ltb_lt in Hi. rewrite <- (Hchar i) by lia. cbn [andb].
  destruct (negb (char_at (w ++ c :: q) i =? 0)); [|reflexivity].
  destruct (octet st <? 4)%nat; [|reflexivity].
  cbn [andb]. rewrite <- isdigit_test.
  destruct (isdigit (char_at (w ++ c :: q) i)) eqn:Hd; [|apply IH].
  assert (Hlt : (i < length w)%nat).
  { destruct (Nat.eq_dec i (length w)) as [->|Hne]; [|lia].
    rewrite char_at_app_r in Hd. apply digit_val_isdigit in Hd.
    destruct Hd as [d Hd]. congruence. }
  unfold ptr_add. rewrite !drop_app_le by lia.
  rewrite char_at_app_l in Hd by exact Hlt.
  destruct (drop i w) as [|d l] eqn:Hdrop.
  { apply (f_equal length) in Hdrop. rewrite length_drop in Hdrop.
    simpl in Hdrop. lia. }
  assert (Hd0 : d = char_at w i).
  { rewrite <- (Nat.add_0_r i), <- char_at_drop. unfold ptr_add.
    rewrite Hdrop. reflexivity. }
  rewrite <- Hd0 in Hd.
  assert (Hl : length l = (length w - i - 1)%nat).
  { apply (f_equal length) in Hdrop. rewrite length_drop in Hdrop.
    simpl in Hdrop. lia. }
  cbn [app].
  destruct (strtoumax_stop base d l c q q' Hd Hc) as [He Hk].
  rewrite <- He. destruct (strtoumax (d :: l ++ c :: q) base) as [v k].
  cbv zeta. simpl in Hk. rewrite <- (Hchar (i + k)%nat) by lia.
  destruct (negb (chr "." =? char_at (w ++ c :: q) (i + k))); [reflexivity|].
  apply IH.
Qed.

Lemma cstr_app s1 s2 : cstr (s1 ++ s2) = cstr s1 ++ cstr s2.
Proof.
  unfold cstr. induction s1 as [|a s1 IH]; [reflexivity|].
  simpl. f_equal. exact IH.
Qed.

Lemma cstr_length s : length (cstr s) = String.length s.
Proof.
  unfold cstr. rewrite length_map.
  induction s as [|a s IH]; [reflexivity|]. simpl. now rewrite IH.
Qed.

(** With the scan length 13, what follows a character at index 12 that
    is neither a digit nor a letter has no part in the result. *)
Lemma ip_ignores_tail (w : string) (c : ascii) (q q' : string) :
  String.length w = 12%nat -> digit_val (chr c) = None ->
  ip_cstr_to_number (w ++ String c q) 13 0
  = ip_cstr_to_number (w ++ String c q') 13 0 /\
  ip_parts (w ++ String c q) 13 0 = ip_parts (w ++ String c q') 13 0.
Proof.
  intros Hw Hc. unfold ip_cstr_to_number, ip_parts, ip_scan_of.
  rewrite !cstr_app. change (cstr (String c q)) with (chr c :: cstr q).
  change (cstr (String c q')) with (chr c :: cstr q').
  pose proof (ip_loop_window 0 (cstr w) (chr c) (cstr q) (cstr q') Hc
                13 0%nat ip_scan_init) as H.
  rewrite cstr_length, Hw in H. rewrite H. split; reflexivity.
Qed.

(** Every part is read at a decimal digit. *)
Lemma ip_loop_starts_digit ip n base : forall fuel i st,
  Forall (fun k => isdigit (char_at ip k) = true) (part_at st) ->
  Forall (fun k => isdigit (char_at ip k) = true)
         (part_at (ip_loop fuel ip n base i st)).
Proof.
  induction fuel as [|fuel IH]; intros i st Hst; [exact Hst|].
  rewrite ip_loop_S.
  destruct ((i <? n)%nat && negb (char_at ip i =? 0) && (octet st <? 4)%nat);
    [|exact Hst].
  rewrite <- isdigit_test.
  destruct (isdigit (char_at ip i)) eqn:Hd; [|apply IH, Hst].
  destruct (strtoumax (ptr_add ip i) base) as [v k]. cbv zeta.
  assert (Hst' : Forall (fun k => isdigit (char_at ip k) = true) (part_at st ++ [i])).
  { apply Forall_app; split; [exact Hst|]. repeat constructor. exact Hd. }
  destruct (negb (chr "." =? char_at ip (i + k))); [exact Hst'|].
  apply IH. exact Hst'.
Qed.

Lemma ip_part_starts_in_window ip n base :
  Forall (fun k => (k < n)%nat /\ isdigit (char_at (cstr ip) k) = true)
         (ip_part_starts ip n base) /\
  length (ip_part_starts ip n base) = length (ip_parts ip n base).
Proof.
  unfold ip_part_starts.
  destruct (ip_scan_of_ok (cstr ip) n base) as (_ & _ & H3 & H4 & _).
  destruct (ip_parts_shape ip n base) as (_ & Hlen & _).
  split; [|congruence].
  apply Forall_and; split; [exact H4|].
  apply ip_loop_starts_digit. constructor.
Qed.

(** C10. [wake_on_lan] calls [ip_cstr_to_number] with the scan length
    13 and uses its result as the address. Every part the parser
    collects starts at a digit at an index below the scan length, here
    below 13: a part whose first digit is at index 13 or later is not
    read. When the character at index 12 ends the part before it (it is
    neither a digit nor a letter), nothing that follows has a share in
    the result. The dotted quad ["1920.1680.1780.255"] has its last part
    at index 15: the parser collects three parts and returns the address
    of ["1920.1680.1780"]. *)
Theorem ip_scan_length_13 ip :
  (forall n base,
     Forall (fun k => (k < n)%nat /\ isdigit (char_at (cstr ip) k) = true)
            (ip_part_starts ip n base) /\
     length (ip_part_starts ip n base) = length (ip_parts ip n base)) /\
  (forall target sys wol port mac_text,
     head (wake_on_lan_trace target sys wol ip port mac_text)
     = Some (Call_ip_cstr_to_number ip 13 0) /\
     (forall v, In (Set_ip_v4 v) (wake_on_lan_trace target sys wol ip port mac_text) ->
                v = to_uint32 (ip_cstr_to_number ip 13 0)) /\
     (forall sockfd data len addr prt,
        In (Call_sendto sockfd data len addr prt)
           (wake_on_lan_trace target sys wol ip port mac_text) ->
        addr = htonl (ip_cstr_to_number ip 13 0))) /\
  (forall (w : string) (c : ascii) (q q' : string),
     String.length w = 12%nat -> digit_val (chr c) = None ->
     ip_cstr_to_number (w ++ String c q) 13 0
     = ip_cstr_to_number (w ++ String c q') 13 0) /\
  (ip_parts "1920.1680.1780.255" 13 0 = [1920; 1680; 1780] /\
   ip_part_starts "1920.1680.1780.255" 13 0 = [0; 5; 10]%nat /\
   ip_cstr_to_number "1920.1680.1780.255" 13 0
   = ip_cstr_to_number "1920.1680.1780" 13 0).
Proof.
  split; [intros n base; apply ip_part_starts_in_window|].
  split; [|split].
  - intros target sys wol port mac_text. split; [|split].
    + wol_run target sys wol ip port mac_text; reflexivity.
    + wol_run target sys wol ip port mac_text; intros v Hin; in_cases; reflexivity.
    + intros sockfd data len addr prt Hin. apply sendto_event in Hin. tauto.
  - intros w c q q' Hw Hc. apply ip_ignores_tail; assumption.
  - repeat split; vm_compute; reflexivity.
Qed.

(** C10, the theorem at work: two texts that differ after the dot at
    index 12, and the address of a call that sends. *)
Lemma ip_scan_length_13_witness :
  ip_cstr_to_number "1000.2000.30.4" 13 0 = ip_cstr_to_number "1000.2000.30.99" 13 0 /\
  ip_parts "1000.2000.30.4" 13 0 = [1000; 2000; 30] /\
  167772161 = to_uint32 (ip_cstr_to_number "10.1" 13 0) /\
  [10; 0; 0; 1] = htonl (ip_cstr_to_number "10.1" 13 0).
Proof.
  split; [|split; [vm_compute; reflexivity|split]].
  - apply (proj1 (proj2 (proj2 (ip_scan_length_13 "")))
             "1000.2000.30"%string "."%char "4"%string "99"%string).
    + reflexivity.
    + reflexivity.
  - refine (proj1 (proj2 (proj1 (proj2 (ip_scan_length_13 "10.1"))
                            POSIX os_ok (Some wol_blank) 9 "00:11:22:33:44:55"%string))
              167772161 _).
    vm_compute. intuition reflexivity.
  - refine (proj2 (proj2 (proj1 (proj2 (ip_scan_length_13 "10.1"))
                            POSIX os_ok (Some wol_blank) 9 "00:11:22:33:44:55"%string))
              3 (magic_packet 0x001122334455) 102%nat [10; 0; 0; 1] [0; 9] _).
    vm_compute. intuition reflexivity.
Defined.

(** ** The command line program *)

Lemma main_exit_code target sys argv :
  match Cli.main target sys argv with
  | Some o => Cli.exit_code o = 1
  | None => True
  end.
Proof.
  unfold Cli.main. destruct (Cli.parse_args argv Cli.locals_init) as [l|]; [|exact I].
  destruct (Cli.parameter_i l && Cli.parameter_m l); reflexivity.
Qed.

(** The argument loop fails only on an option that takes a value and is
    the last argument. *)
Lemma parse_args_total argv : forall l,
  (forall v, last argv = Some v ->
     ~ (char_at (cstr v) 0 = chr "-" /\
        (char_at (cstr v) 1 = chr "i" \/ char_at (cstr v) 1 = chr "p"
         \/ char_at (cstr v) 1 = chr "m"))) ->
  Cli.parse_args argv l <> None.
Proof.
  assert (Hlast : forall (a b : string) rest v,
            last (b :: rest) = Some v -> last (a :: b :: rest) = Some v)
    by (intros; assumption).
  induction argv as [argv IH] using (induction_ltof1 _ (@length string)).
  unfold ltof in IH. intros l Hl.
  destruct argv as [|arg rest]; [discriminate|].
  cbn [Cli.parse_args].
  destruct (Z.eqb_spec (chr "-") (char_at (cstr arg) 0)) as [H0|H0];
    [|apply IH; [simpl; lia|]].
  2:{ destruct rest as [|b rest]; [discriminate|]. intros v Hv. apply Hl, Hv. }
  assert (Hrest : forall l', rest <> [] -> Cli.parse_args rest l' <> None).
  { intros l' Hne. apply IH; [simpl; lia|].
    destruct rest as [|b rest]; [congruence|]. intros v Hv. apply Hl, Hv. }
  assert (Hskip : forall l',
            match rest with
            | _ :: rest' => Cli.parse_args rest' l' <> None
            | [] => True
            end).
  { intros l'. destruct rest as [|b rest']; [exact I|].
    apply IH; [simpl; lia|].
    destruct rest' as [|b' rest']; [discriminate|].
    intros v Hv. apply Hl. exact Hv. }
  assert (Hvalue : char_at (cstr arg) 1 = chr "i" \/ char_at (cstr arg) 1 = chr "p"
                   \/ char_at (cstr arg) 1 = chr "m" -> rest <> []).
  { intros Hc ->. apply (Hl arg eq_refl). split; [congruence|exact Hc]. }
  destruct (Z.eqb_spec (char_at (cstr arg) 1) (chr "i")) as [H1|H1].
  { destruct rest as [|b rest']; [exfalso; apply Hvalue; auto|]. apply Hskip. }
  destruct (Z.eqb_spec (char_at (cstr arg) 1) (chr "p")) as [H2|H2].
  { destruct rest as [|b rest']; [exfalso; apply Hvalue; auto|]. apply Hskip. }
  destruct (Z.eqb_spec (char_at (cstr arg) 1) (chr "m")) as [H3|H3].
  { destruct rest as [|b rest']; [exfalso; apply Hvalue; auto|]. apply Hskip. }
  assert (Hgo : forall l', Cli.parse_args rest l' <> None).
  { intros l'. destruct rest as [|b rest']; [discriminate|].
    apply Hrest. discriminate. }
  destruct (char_at (cstr arg) 1 =? chr "h"); [apply Hgo|].
  destruct (char_at (cstr arg) 1 =? chr "s"); apply Hgo.
Qed.

(** [main] returns whenever the last argument is not an option that
    waits for a value. *)
Lemma main_returns target sys argv :
  (forall v, last argv = Some v ->
     ~ (char_at (cstr v) 0 = chr "-" /\
        (char_at (cstr v) 1 = chr "i" \/ char_at (cstr v) 1 = chr "p"
         \/ char_at (cstr v) 1 = chr "m"))) ->
  exists o, Cli.main target sys argv = Some o /\ Cli.exit_code o = 1.
Proof.
  intros Hlast. pose proof (parse_args_total argv Cli.locals_init Hlast) as Hp.
  pose proof (main_exit_code target sys argv) as He.
  unfold Cli.main in *.
  destruct (Cli.parse_args argv Cli.locals_init) as [l|]; [|congruence].
  destruct (Cli.parameter_i l && Cli.parameter_m l); eauto.
Qed.

(** C9. [main] returns the [return_value] of its own body, which is set
    to 1 and never assigned again: the result of [wake_on_lan] goes to
    the variable of the same name declared inside the [if] block. So the
    exit code is 1 in every run, also when help was not asked for, both
    parameters were given and the sender returned 0: for
    [-i 192.168.178.255 -m FF:FF:FF:FF:FF:FF] on a system where every
    call succeeds the sender returns [WAKE_ON_LAN_ERRORS_NONE], nothing
    is printed, and the exit code is 1 where the specification says 0. *)
Theorem main_exit_code_ignores_sender :
  (forall target sys argv,
     match Cli.main target sys argv with
     | Some o => Cli.exit_code o = 1
     | None => True
     end) /\
  Cli.main POSIX os_ok
    ["wol"; "-i"; "192.168.178.255"; "-m"; "FF:FF:FF:FF:FF:FF"]%string
  = Some {| Cli.exit_code := 1;
            Cli.sender_result := Some WAKE_ON_LAN_ERRORS_NONE;
            Cli.help_shown := false;
            Cli.stdout := [] |} /\
  error_code WAKE_ON_LAN_ERRORS_NONE = 0 /\
  Cli.main POSIX os_ok ["wol"; "-i"; "abc"; "-m"; "FF:FF:FF:FF:FF:FF"; "-s"]%string
  = Some {| Cli.exit_code := 1;
            Cli.sender_result := Some WAKE_ON_LAN_ERRORS_IP;
            Cli.help_shown := false;
            Cli.stdout := [] |} /\
  error_code WAKE_ON_LAN_ERRORS_IP = 2.
Proof.
  split; [exact main_exit_code|].
  repeat split; vm_compute; reflexivity.
Qed.

(** * Further properties of the code *)

(** ** [ip_cstr_to_number]: the scan length and the text around the parts *)

(** Past the end of the text the scan length plays no role. *)
Lemma ip_loop_beyond_text (p : list Z) base n1 n2 :
  (length p <= n1)%nat -> (length p <= n2)%nat ->
  forall f1 f2 i st,
    (length p - i <= f1)%nat -> (length p - i <= f2)%nat ->
    ip_loop f1 p n1 base i st = ip_loop f2 p n2 base i st.
Proof.
  intros Hn1 Hn2.
  assert (stop : forall f n i st, (length p <= i)%nat -> ip_loop f p n base i st = st).
  { intros [|f] n i st Hi; [reflexivity|]. rewrite ip_loop_S.
    rewrite char_at_ge by exact Hi. now rewrite andb_false_r. }
  induction f1 as [|f1 IH]; intros f2 i st H1 H2.
  - rewrite (stop f2) by lia. reflexivity.
  - destruct f2 as [|f2]; [rewrite (stop (S f1)) by lia; reflexivity|].
    destruct (le_lt_dec (length p) i) as [Hi|Hi]; [now rewrite !stop by exact Hi|].
    rewrite !ip_loop_S.
    replace (i <? n1)%nat with true by (symmetry; apply Nat.ltb_lt; lia).
    replace (i <? n2)%nat with true by (symmetry; apply Nat.ltb_lt; lia).
    destruct (true && negb (char_at p i =? 0) && (octet st <? 4)%nat); [|reflexivity].
    destruct ((chr "0" <=? char_at p i) && (chr "9" >=? char_at p i)).
    + destruct (strtoumax (ptr_add p i) base) as [v k]. cbv zeta.
      destruct (negb (chr "." =? char_at p (i + k))); [reflexivity|].
      apply IH; lia.
    + apply IH; lia.
Qed.

(** X1. A scan length that reaches the end of the text is as good as
    any larger one: whenever [sizeof_ip] is at least the length of the
    text, the result and the parts collected are those of the scan
    length equal to the length of the text. *)
Theorem ip_scan_length_beyond_text ip n base :
  (String.length ip <= n)%nat ->
  ip_cstr_to_number ip n base = ip_cstr_to_number ip (String.length ip) base /\
  ip_parts ip n base = ip_parts ip (String.length ip) base.
Proof.
  intros Hn. unfold ip_cstr_to_number, ip_parts, ip_scan_of.
  rewrite (ip_loop_beyond_text (cstr ip) base n (String.length ip)
             ltac:(rewrite cstr_length; exact Hn)
             ltac:(rewrite cstr_length; reflexivity)
             n (String.length ip) 0%nat ip_scan_init)
    by (rewrite cstr_length; lia).
  split; reflexivity.
Qed.

(** X1, at work: ["10.1"] with the scan length of [wake_on_lan]. *)
Lemma ip_scan_length_beyond_text_witness :
  ip_cstr_to_number "10.1" 13 0 = ip_cstr_to_number "10.1" 4 0.
Proof.
  apply (proj1 (ip_scan_length_beyond_text "10.1" 13 0 ltac:(simpl; lia))).
Defined.

Lemma to_uint32_pair a b :
  to_uint32 (to_uint32 a * 2 ^ 24 + to_uint32 b) = to_uint32 (a * 2 ^ 24 + b).
Proof.
  unfold to_uint32. change (2 ^ 32) with 4294967296. change (2 ^ 24) with 16777216.
  Z.to_euclidean_division_equations. lia.
Qed.

Lemma to_uint32_triple a b c :
  to_uint32 (to_uint32 a * 2 ^ 24 + to_uint32 b * 2 ^ 16 + to_uint32 c)
  = to_uint32 (a * 2 ^ 24 + b * 2 ^ 16 + c).
Proof.
  unfold to_uint32. change (2 ^ 32) with 4294967296. change (2 ^ 24) with 16777216.
  change (2 ^ 16) with 65536.
  Z.to_euclidean_division_equations. lia.
Qed.

(** The parts of the short forms written in decimal. What follows the
    last part does not start with a dot, a digit or a letter. *)
Lemma ip_parts_of_short_forms ip n (A B C tail : list Z) :
  dec_numeral A -> dec_numeral B -> dec_numeral C ->
  dec_value A <= UINTMAX_MAX -> dec_value B <= UINTMAX_MAX ->
  dec_value C <= UINTMAX_MAX ->
  digit_val (char_at tail 0) = None -> char_at tail 0 <> chr "." ->
  (cstr ip = numeral A ++ tail -> (0 < n)%nat ->
   ip_parts ip n 0 = [to_uint32 (dec_value A)]) /\
  (cstr ip = numeral A ++ chr "." :: numeral B ++ tail ->
   (length A + 1 < n)%nat ->
   ip_parts ip n 0 = [to_uint32 (dec_value A); to_uint32 (dec_value B)]) /\
  (cstr ip = numeral A ++ chr "." :: numeral B ++ chr "." :: numeral C ++ tail ->
   (length A + length B + 2 < n)%nat ->
   ip_parts ip n 0 = [to_uint32 (dec_value A); to_uint32 (dec_value B);
                      to_uint32 (dec_value C)]).
Proof.
  intros HA HB HC HvA HvB HvC Htail Hnodot.
  assert (HlA : (1 <= length A)%nat)
    by (destruct A; [destruct HA as [_ []]|simpl; lia]).
  assert (HlB : (1 <= length B)%nat)
    by (destruct B; [destruct HB as [_ []]|simpl; lia]).
  assert (Hdot : forall t, digit_val (char_at (chr "." :: t) 0) = None)
    by reflexivity.
  assert (Hbrk : negb (chr "." =? char_at tail 0) = true).
  { apply negb_true_iff, Z.eqb_neq. congruence. }
  split; [|split].
  - intros Hip Hn. unfold ip_parts, ip_scan_of. rewrite Hip.
    destruct n as [|n]; [lia|].
    pose proof (ip_loop_read_part (S n) [] A tail n ip_scan_init HA HvA Htail) as H1.
    cbn [app length] in H1. rewrite H1 by (simpl; lia). clear H1.
    cbv zeta. rewrite Hbrk. reflexivity.
  - intros Hip Hn. unfold ip_parts, ip_scan_of. rewrite Hip.
    set (text := numeral A ++ chr "." :: numeral B ++ tail).
    destruct n as [|[|n]]; try lia.
    pose proof (ip_loop_read_part (S (S n)) [] A (chr "." :: numeral B ++ tail)
                  (S n) ip_scan_init HA HvA (Hdot _)) as H1.
    cbn [app length] in H1. fold text in H1. rewrite H1 by (simpl; lia). clear H1.
    cbv zeta. cbn [char_at nth]. rewrite Z.eqb_refl. cbn [negb].
    pose proof (ip_loop_read_part (S (S n)) (numeral A ++ [chr "."]) B tail n) as H2.
    rewrite <- app_assoc in H2. cbn [app] in H2. fold text in H2.
    rewrite length_app, numeral_length in H2. cbn [length] in H2.
    replace (S (0 + length A)) with (length A + 1)%nat by lia.
    rewrite H2 by (simpl; try assumption; lia). clear H2.
    cbv zeta. rewrite Hbrk. reflexivity.
  - intros Hip Hn. unfold ip_parts, ip_scan_of. rewrite Hip.
    set (text := numeral A ++ chr "." :: numeral B ++ chr "." :: numeral C ++ tail).
    destruct n as [|[|[|n]]]; try lia.
    pose proof (ip_loop_read_part (S (S (S n))) [] A
                  (chr "." :: numeral B ++ chr "." :: numeral C ++ tail)
                  (S (S n)) ip_scan_init HA HvA (Hdot _)) as H1.
    cbn [app length] in H1. fold text in H1. rewrite H1 by (simpl; lia). clear H1.
    cbv zeta. cbn [char_at nth]. rewrite Z.eqb_refl. cbn [negb].
    pose proof (ip_loop_read_part (S (S (S n))) (numeral A ++ [chr "."]) B
                  (chr "." :: numeral C ++ tail) (S n)) as H2.
    rewrite <- app_assoc in H2. cbn [app] in H2. fold text in H2.
    rewrite length_app, numeral_length in H2. cbn [length] in H2.
    replace (S (0 + length A)) with (length A + 1)%nat by lia.
    rewrite H2 by (simpl; try assumption; try apply Hdot; lia). clear H2.
    cbv zeta. cbn [char_at nth]. rewrite Z.eqb_refl. cbn [negb].
    pose proof (ip_loop_read_part (S (S (S n)))
                  (numeral A ++ chr "." :: numeral B ++ [chr "."]) C tail n) as H3.
    rewrite <- app_assoc in H3. cbn [app] in H3. rewrite <- app_assoc in H3.
    cbn [app] in H3. fold text in H3.
    rewrite length_app, numeral_length in H3. cbn [length] in H3.
    rewrite length_app, numeral_length in H3. cbn [length] in H3.
    replace (S (length A + 1 + length B))
      with (length A + S (length B + 1))%nat by lia.
    rewrite H3 by (simpl; try assumption; lia). clear H3.
    cbv zeta. rewrite Hbrk. reflexivity.
Qed.

Lemma dec_numeral_0 : dec_numeral [0] /\ dec_value [0] <= UINTMAX_MAX.
Proof.
  split; [split; [repeat constructor; lia|exact I]|]. vm_compute. discriminate.
Qed.

(** X2. The short forms written in decimal, with numbers of any size
    below [2 ^ 64]: [a] alone is the address itself, [a.b] is
    [(a<<24) + b] and [a.b.c] is [(a<<24) + (b<<16) + c], each cut to 32
    bits, provided the last number starts inside the scan length and
    what follows it starts with no dot, digit or letter; the rest of the
    text is not looked at. *)
Theorem ip_short_forms ip n :
  (forall A tail : list Z,
     dec_numeral A -> dec_value A <= UINTMAX_MAX ->
     digit_val (char_at tail 0) = None -> char_at tail 0 <> chr "." ->
     cstr ip = numeral A ++ tail -> (0 < n)%nat ->
     ip_cstr_to_number ip n 0 = dec_value A mod 2 ^ 32) /\
  (forall A B tail : list Z,
     dec_numeral A -> dec_numeral B ->
     dec_value A <= UINTMAX_MAX -> dec_value B <= UINTMAX_MAX ->
     digit_val (char_at tail 0) = None -> char_at tail 0 <> chr "." ->
     cstr ip = numeral A ++ chr "." :: numeral B ++ tail ->
     (length A + 1 < n)%nat ->
     ip_cstr_to_number ip n 0 = (dec_value A * 2 ^ 24 + dec_value B) mod 2 ^ 32) /\
  (forall A B C tail : list Z,
     dec_numeral A -> dec_numeral B -> dec_numeral C ->
     dec_value A <= UINTMAX_MAX -> dec_value B <= UINTMAX_MAX ->
     dec_value C <= UINTMAX_MAX ->
     digit_val (char_at tail 0) = None -> char_at tail 0 <> chr "." ->
     cstr ip = numeral A ++ chr "." :: numeral B ++ chr "." :: numeral C ++ tail ->
     (length A + length B + 2 < n)%nat ->
     ip_cstr_to_number ip n 0
     = (dec_value A * 2 ^ 24 + dec_value B * 2 ^ 16 + dec_value C) mod 2 ^ 32).
Proof.
  destruct dec_numeral_0 as [H0 Hv0].
  pose proof (ip_result_of_parts ip n 0) as Hr.
  split; [|split].
  - intros A tail HA HvA Htail Hnodot Hip Hn.
    destruct (ip_parts_of_short_forms ip n A [0] [0] tail HA H0 H0 HvA Hv0 Hv0
                Htail Hnodot) as (H1 & _ & _).
    rewrite (H1 Hip Hn) in Hr. exact Hr.
  - intros A B tail HA HB HvA HvB Htail Hnodot Hip Hn.
    destruct (ip_parts_of_short_forms ip n A B [0] tail HA HB H0 HvA HvB Hv0
                Htail Hnodot) as (_ & H2 & _).
    rewrite (H2 Hip Hn) in Hr. rewrite Hr. cbn [ip_sum]. apply to_uint32_pair.
  - intros A B C tail HA HB HC HvA HvB HvC Htail Hnodot Hip Hn.
    destruct (ip_parts_of_short_forms ip n A B C tail HA HB HC HvA HvB HvC
                Htail Hnodot) as (_ & _ & H3).
    rewrite (H3 Hip Hn) in Hr. rewrite Hr. cbn [ip_sum]. apply to_uint32_triple.
Qed.

(** X2, at work: ["3232281343"], ["10.70000 (gateway)"] and
    ["128.1.65535"] with the scan length of [wake_on_lan]. *)
Lemma ip_short_forms_witness :
  ip_cstr_to_number "3232281343" 13 0 = 3232281343 mod 2 ^ 32 /\
  ip_cstr_to_number "10.70000 (gateway)" 13 0 = (10 * 2 ^ 24 + 70000) mod 2 ^ 32 /\
  ip_cstr_to_number "128.1.65535" 13 0
  = (128 * 2 ^ 24 + 1 * 2 ^ 16 + 65535) mod 2 ^ 32.
Proof.
  assert (Hnum : forall ds, Forall (fun d => 0 <= d <= 9) ds ->
                   match ds with [] => False | [_] => True | d :: _ => d <> 0 end ->
                   dec_numeral ds) by (intros ds H1 H2; split; assumption).
  split; [|split].
  - refine (proj1 (ip_short_forms "3232281343" 13)
              [3; 2; 3; 2; 2; 8; 1; 3; 4; 3] [] _ _ _ _ _ _).
    + apply Hnum; [repeat constructor; lia|lia].
    + vm_compute. discriminate.
    + reflexivity.
    + vm_compute. discriminate.
    + reflexivity.
    + lia.
  - refine (proj1 (proj2 (ip_short_forms "10.70000 (gateway)" 13))
              [1; 0] [7; 0; 0; 0; 0] (cstr " (gateway)") _ _ _ _ _ _ _ _).
    + apply Hnum; [repeat constructor; lia|lia].
    + apply Hnum; [repeat constructor; lia|lia].
    + vm_compute. discriminate.
    + vm_compute. discriminate.
    + reflexivity.
    + vm_compute. discriminate.
    + reflexivity.
    + simpl. lia.
  - refine (proj2 (proj2 (ip_short_forms "128.1.65535" 13))
              [1; 2; 8] [1] [6; 5; 5; 3; 5] [] _ _ _ _ _ _ _ _ _ _).
    + apply Hnum; [repeat constructor; lia|lia].
    + apply Hnum; [repeat constructor; lia|exact I].
    + apply Hnum; [repeat constructor; lia|lia].
    + vm_compute. discriminate.
    + vm_compute. discriminate.
    + vm_compute. discriminate.
    + reflexivity.
    + vm_compute. discriminate.
    + reflexivity.
    + simpl. lia.
Defined.

(** ** Text before the first part *)

(** The scan passes over characters that are no digits. *)
Lemma ip_loop_skip base N (p : list Z) : forall (g pre : list Z) f st,
  Forall (fun c => isdigit c = false /\ c <> 0) g ->
  (length pre + length g <= N)%nat -> (octet st < 4)%nat ->
  ip_loop (length g + f) (pre ++ g ++ p) N base (length pre) st
  = ip_loop f (pre ++ g ++ p) N base (length pre + length g) st.
Proof.
  induction g as [|c g IH]; intros pre f st Hg HN Ho.
  - cbn [length app Nat.add]. now rewrite Nat.add_0_r.
  - apply Forall_cons_1 in Hg. destruct Hg as [[Hd Hz] Hg].
    cbn [length Nat.add]. rewrite ip_loop_S.
    cbn [app]. rewrite char_at_app_r.
    replace (length pre <? N)%nat with true
      by (symmetry; apply Nat.ltb_lt; simpl in HN; lia).
    replace (octet st <? 4)%nat with true by (symmetry; apply Nat.ltb_lt; exact Ho).
    replace (c =? 0) with false by (symmetry; apply Z.eqb_neq; exact Hz).
    cbn [andb negb]. rewrite <- isdigit_test, Hd.
    specialize (IH (pre ++ [c]) f st Hg).
    rewrite length_app, <- app_assoc in IH. cbn [length app] in IH.
    replace (length pre + 1)%nat with (S (length pre)) in IH by lia.
    rewrite IH by (simpl in HN; lia || exact Ho). f_equal. simpl. lia.
Qed.

(** The scan of a text from index [k + i], with the scan length [k + n],
    goes as the scan from index [i] of the text without its first [k]
    characters, with the scan length [n]. *)
Lemma ip_loop_shift base n (g p : list Z) : forall fuel i st1 st2,
  ip_scan_shifted (length g) st1 st2 ->
  ip_scan_shifted (length g)
    (ip_loop fuel (g ++ p) (length g + n) base (length g + i) st1)
    (ip_loop fuel p n base i st2).
Proof.
  assert (Hchar : forall i, char_at (g ++ p) (length g + i) = char_at p i).
  { intros i. rewrite <- char_at_drop. unfold ptr_add.
    rewrite drop_app_length. unfold char_at. now destruct p. }
  induction fuel as [|fuel IH]; intros i st1 st2 Hst; [exact Hst|].
  rewrite !ip_loop_S. rewrite Hchar.
  destruct Hst as (Ho & Hk & Hp). rewrite Hk.
  replace (length g + i <? length g + n)%nat with (i <? n)%nat
    by (destruct (Nat.ltb_spec i n), (Nat.ltb_spec (length g + i) (length g + n));
        reflexivity || lia).
  destruct ((i <? n)%nat && negb (char_at p i =? 0) && (octet st2 <? 4)%nat);
    [|repeat split; assumption].
  destruct ((chr "0" <=? char_at p i) && (chr "9" >=? char_at p i)).
  - replace (ptr_add (g ++ p) (length g + i)) with (ptr_add p i)
      by (unfold ptr_add; rewrite drop_app_ge by lia; f_equal; lia).
    destruct (strtoumax (ptr_add p i) base) as [v c]. cbv zeta.
    rewrite <- Nat.add_assoc, Hchar.
    assert (Hst' : ip_scan_shifted (length g)
              {| ip_octets := <[octet st2 := to_uint32 v]> (ip_octets st1);
                 octet := S (octet st2); part_at := part_at st1 ++ [(length g + i)%nat] |}
              {| ip_octets := <[octet st2 := to_uint32 v]> (ip_octets st2);
                 octet := S (octet st2); part_at := part_at st2 ++ [i] |}).
    { repeat split; cbn; [now rewrite Ho|]. rewrite Hp, map_app. reflexivity. }
    destruct (negb (chr "." =? char_at p (i + c))); [exact Hst'|].
    replace (S (length g + (i + c))) with (length g + S (i + c))%nat by lia.
    apply IH. exact Hst'.
  - replace (S (length g + i)) with (length g + S i)%nat by lia.
    apply IH. repeat split; assumption.
Qed.

(** X3. Characters before the first part that are no digits are passed
    over, and each one uses up one position of the scan length: for a
    text [g ++ s] whose first part [g] holds no digit, the result and the
    parts are those of [s] with the scan length shortened by the length
    of [g]. *)
Theorem ip_leading_text_skipped (g s : string) n base :
  Forall (fun c => isdigit c = false /\ c <> 0) (cstr g) ->
  (String.length g <= n)%nat ->
  ip_cstr_to_number (g ++ s) n base = ip_cstr_to_number s (n - String.length g) base /\
  ip_parts (g ++ s) n base = ip_parts s (n - String.length g) base.
Proof.
  intros Hg Hn. unfold ip_cstr_to_number, ip_parts, ip_scan_of.
  rewrite cstr_app.
  pose proof (ip_loop_skip base n (cstr s) (cstr g) [] (n - String.length g)
                ip_scan_init Hg) as Hskip.
  cbn [app length Nat.add] in Hskip. rewrite cstr_length in Hskip.
  replace (String.length g + (n - String.length g))%nat with n in Hskip by lia.
  rewrite Hskip by (simpl; lia). clear Hskip.
  pose proof (ip_loop_shift base (n - String.length g) (cstr g) (cstr s)
                (n - String.length g) 0%nat ip_scan_init ip_scan_init) as Hsh.
  rewrite cstr_length in Hsh.
  replace (String.length g + (n - String.length g))%nat with n in Hsh by lia.
  rewrite Nat.add_0_r in Hsh.
  destruct Hsh as (Ho & Hk & _); [repeat split|].
  unfold ip_assemble, oct. rewrite Ho, Hk. split; reflexivity.
Qed.

(** X3, at work: a blank before the dotted quad leaves twelve positions,
    and the last part, at index 12 of the quad, is not read. *)
Lemma ip_leading_text_skipped_witness :
  ip_cstr_to_number " 192.168.178.255" 13 0 = ip_cstr_to_number "192.168.178.255" 12 0 /\
  ip_parts "192.168.178.255" 12 0 = [192; 168; 178].
Proof.
  split; [|vm_compute; reflexivity].
  refine (proj1 (ip_leading_text_skipped " " "192.168.178.255" 13 0 _ _)).
  - repeat constructor; vm_compute; discriminate.
  - simpl. lia.
Defined.

(** X4. Nothing to scan: with the scan length 0, whatever the text, and
    on the empty text, whatever the scan length, the parser fails, for
    every base. *)
Theorem ip_nothing_to_scan ip n base :
  ip_cstr_to_number ip 0 base = -1 /\
  ip_cstr_to_number "" n base = -1.
Proof.
  split; apply ip_failure_iff_no_digit.
  - reflexivity.
  - now destruct n.
Qed.

(** * [wake_on_lan]: results, calls and the record *)

(** X5. The value returned is never [WAKE_ON_LAN_ERRORS_UNKNOWN], the
    value the variable starts with; and on the POSIX target it is none of
    the three results the header marks as Windows only. *)
Theorem wake_on_lan_result_codes target sys wol ip port mac_text :
  wake_on_lan target sys wol ip port mac_text <> WAKE_ON_LAN_ERRORS_UNKNOWN /\
  wake_on_lan POSIX sys wol ip port mac_text <> WAKE_ON_LAN_ERRORS_WSA_STARTUP /\
  wake_on_lan POSIX sys wol ip port mac_text <> WAKE_ON_LAN_ERRORS_WINSOCK /\
  wake_on_lan POSIX sys wol ip port mac_text <> WAKE_ON_LAN_ERRORS_SOCKET_CLOSE.
Proof.
  split.
  - wol_run target sys wol ip port mac_text; discriminate.
  - wol_run POSIX sys wol ip port mac_text; repeat split; discriminate.
Qed.

(** X6. Success, step by step: [wake_on_lan] returns
    [WAKE_ON_LAN_ERRORS_NONE] exactly when both texts parse and every
    call answers without its error value; on the POSIX target these are
    [socket], [setsockopt] and [sendto] with a result that is not
    negative, on the other target also [WSAStartup] with 0 and version
    2.2, and [closesocket]. *)
Theorem wake_on_lan_success_iff sys wol ip port mac_text :
  (wake_on_lan POSIX sys wol ip port mac_text = WAKE_ON_LAN_ERRORS_NONE <->
   ip_cstr_to_number ip 13 0 <> -1 /\ mac_cstr_to_number mac_text <> -1 /\
   0 <= socket_result sys /\ 0 <= setsockopt_result sys /\
   0 <= sendto_result sys) /\
  (wake_on_lan WIN32 sys wol ip port mac_text = WAKE_ON_LAN_ERRORS_NONE <->
   ip_cstr_to_number ip 13 0 <> -1 /\ mac_cstr_to_number mac_text <> -1 /\
   WSAStartup_result sys = 0 /\
   LOBYTE (wsaData_wVersion sys) = 2 /\ HIBYTE (wsaData_wVersion sys) = 2 /\
   socket_result sys <> INVALID_SOCKET /\
   setsockopt_result sys <> SOCKET_ERROR /\
   sendto_result sys <> SOCKET_ERROR /\
   closesocket_result sys <> SOCKET_ERROR).
Proof.
  split.
  - wol_run POSIX sys wol ip port mac_text; wol_facts.
    all: split;
      [ intros Hres; try discriminate Hres; repeat split; (assumption || lia)
      | intros (H1 & H2 & H3 & H4 & H5); try reflexivity; exfalso; lia ].
  - wol_run WIN32 sys wol ip port mac_text; wol_facts.
    all: split;
      [ intros Hres; try discriminate Hres; repeat split;
        (assumption || lia || congruence)
      | intros (H1 & H2 & H3 & H4 & H5 & H6 & H7 & H8 & H9); try reflexivity;
        exfalso; (lia || congruence) ].
Qed.

(** X7. The record is optional: with [NULL] for [wol] the function
    returns what it returns with a record and makes the same calls, with
    the same arguments, in the same order; it makes no assignment
    through [wol], and with a record the assignments are the only
    difference. *)
Theorem wake_on_lan_record_optional target sys r ip port mac_text :
  wake_on_lan target sys None ip port mac_text
  = wake_on_lan target sys (Some r) ip port mac_text /\
  wake_on_lan_trace target sys None ip port mac_text
  = filter is_call (wake_on_lan_trace target sys (Some r) ip port mac_text) /\
  wake_on_lan_wol target sys None ip port mac_text = None.
Proof.
  wol_run target sys (Some r) ip port mac_text.
  all: repeat split; reflexivity.
Qed.

(** X8. The record after the call: [ip_v4] holds the parsed address cut
    to 32 bits when the address parsed, and else what the caller left
    there; [mac] holds the parsed MAC when both texts parsed, and else
    what the caller left there; whatever the socket steps do afterwards
    changes neither field. *)
Theorem wake_on_lan_record_fields target sys r ip port mac_text :
  option_map ip_v4 (wake_on_lan_wol target sys (Some r) ip port mac_text)
  = Some (if -1 =? ip_cstr_to_number ip 13 0 then ip_v4 r
          else to_uint32 (ip_cstr_to_number ip 13 0)) /\
  option_map mac (wake_on_lan_wol target sys (Some r) ip port mac_text)
  = Some (if -1 =? ip_cstr_to_number ip 13 0 then mac r
          else if -1 =? mac_cstr_to_number mac_text then mac r
          else mac_cstr_to_number mac_text).
Proof.
  wol_run target sys (Some r) ip port mac_text.
  all: split; reflexivity.
Qed.

(** X9. The diagnostic goes with the result: after a call with a record,
    [last_error] holds the value the header documents for the result
    returned, also when a failed [closesocket] replaces the result of an
    earlier failure; for a failed send on the POSIX target that is the
    value of [sendto], not [errno]. After a success the field is not
    written and keeps what the caller left in it. *)
Theorem wake_on_lan_last_error target sys r ip port mac_text :
  option_map last_error (wake_on_lan_wol target sys (Some r) ip port mac_text)
  = Some (last_error_of target sys (last_error r)
            (wake_on_lan target sys (Some r) ip port mac_text)).
Proof.
  wol_run target sys (Some r) ip port mac_text.
  all: reflexivity.
Qed.

(** X10. On the POSIX target [close] is called exactly once in every
    call, as the last of the calls, with the descriptor variable as it
    is then: -1 when a parser failed, so that no socket was asked for,
    and else the value of [socket], negative or not. *)
Theorem posix_close_once sys wol ip port mac_text :
  last (filter is_call (wake_on_lan_trace POSIX sys wol ip port mac_text))
  = Some (Call_close
            (if -1 =? ip_cstr_to_number ip 13 0 then -1
             else if -1 =? mac_cstr_to_number mac_text then -1
             else socket_result sys)) /\
  length (filter is_close (wake_on_lan_trace POSIX sys wol ip port mac_text)) = 1%nat.
Proof.
  wol_run POSIX sys wol ip port mac_text.
  all: split; reflexivity.
Qed.

(** X11. Fail fast: the calls made before the teardown are the first
    [k] calls of the sequence of a run without failure (the two parsers,
    [WSAStartup] on the non-POSIX target, [socket], [setsockopt],
    [sendto]), each with the arguments it has there; after a step that
    fails none of the later ones is made. The sequence is complete
    exactly when [sendto] is called, and whenever the result is
    [WAKE_ON_LAN_ERRORS_NONE]. *)
Theorem wake_on_lan_fail_fast target sys wol ip port mac_text :
  exists k : nat,
    filter (fun e => is_call e && negb (is_teardown e))
      (wake_on_lan_trace target sys wol ip port mac_text)
    = take k (full_sequence target sys ip port mac_text) /\
    (1 <= k <= length (full_sequence target sys ip port mac_text))%nat /\
    existsb is_sendto (wake_on_lan_trace target sys wol ip port mac_text)
    = (k =? length (full_sequence target sys ip port mac_text))%nat /\
    (if (k <? length (full_sequence target sys ip port mac_text))%nat
     then negb (0 =? error_code (wake_on_lan target sys wol ip port mac_text))
     else true) = true.
Proof.
  unfold full_sequence.
  wol_run target sys wol ip port mac_text.
  all: first [ exists 1%nat; repeat split; (reflexivity || (simpl; lia))
             | exists 2%nat; repeat split; (reflexivity || (simpl; lia))
             | exists 3%nat; repeat split; (reflexivity || (simpl; lia))
             | exists 4%nat; repeat split; (reflexivity || (simpl; lia))
             | exists 5%nat; repeat split; (reflexivity || (simpl; lia))
             | exists 6%nat; repeat split; (reflexivity || (simpl; lia)) ].
Qed.

(** * The texts of a MAC *)

Lemma hex_val_hex_at d : 0 <= d < 16 -> hex_val (hex_at d) = Some d.
Proof.
  intros Hd.
  assert (Hc : d = 0 \/ d = 1 \/ d = 2 \/ d = 3 \/ d = 4 \/ d = 5 \/ d = 6 \/ d = 7 \/
               d = 8 \/ d = 9 \/ d = 10 \/ d = 11 \/ d = 12 \/ d = 13 \/ d = 14 \/
               d = 15) by lia.
  repeat (destruct Hc as [->|Hc]; [reflexivity|]). subst d. reflexivity.
Qed.

Lemma hex_at_range d : 0 <= d < 16 -> 0 < hex_at d < 128.
Proof.
  intros Hd.
  assert (Hc : d = 0 \/ d = 1 \/ d = 2 \/ d = 3 \/ d = 4 \/ d = 5 \/ d = 6 \/ d = 7 \/
               d = 8 \/ d = 9 \/ d = 10 \/ d = 11 \/ d = 12 \/ d = 13 \/ d = 14 \/
               d = 15) by lia.
  repeat (destruct Hc as [->|Hc]; [vm_compute; split; reflexivity|]).
  subst d. vm_compute; split; reflexivity.
Qed.

Lemma nibbles_of_length k : forall n, length (nibbles_of k n) = k.
Proof.
  induction k as [|k IH]; intros n; [reflexivity|].
  cbn [nibbles_of]. rewrite length_app, IH. simpl. lia.
Qed.

Lemma nibbles_of_range k : forall n, Forall (fun d => 0 <= d < 16) (nibbles_of k n).
Proof.
  induction k as [|k IH]; intros n; [constructor|].
  cbn [nibbles_of]. apply Forall_app. split; [apply IH|].
  repeat constructor; apply Z.mod_pos_bound; lia.
Qed.

Lemma nibbles_value_snoc ds d : nibbles_value (ds ++ [d]) = nibbles_value ds * 16 + d.
Proof. unfold nibbles_value. rewrite fold_left_app. reflexivity. Qed.

Lemma nibbles_value_of k : forall n, nibbles_value (nibbles_of k n) = n mod 16 ^ Z.of_nat k.
Proof.
  induction k as [|k IH]; intros n.
  - simpl. now rewrite Z.mod_1_r.
  - cbn [nibbles_of]. rewrite nibbles_value_snoc, IH.
    rewrite Nat2Z.inj_succ, Z.pow_succ_r by lia.
    assert (Hp : 0 < 16 ^ Z.of_nat k) by (apply Z.pow_pos_nonneg; lia).
    rewrite Z.rem_mul_r by lia. ring.
Qed.

Lemma hex_digits_hex_text k n : hex_digits (hex_text k n) = nibbles_of k n.
Proof.
  unfold hex_text, hex_digits.
  pose proof (nibbles_of_range k n) as HF.
  induction HF as [|d ds Hd _ IH]; [reflexivity|].
  cbn [map].
  change (omap hex_val (hex_at d :: map hex_at ds))
    with (match hex_val (hex_at d) with
          | Some y => y :: omap hex_val (map hex_at ds)
          | None => omap hex_val (map hex_at ds)
          end).
  rewrite hex_val_hex_at by exact Hd. f_equal. exact IH.
Qed.

Lemma hex_text_range k n : Forall (fun c => 0 < c < 128) (hex_text k n).
Proof.
  unfold hex_text. pose proof (nibbles_of_range k n) as HF.
  induction HF as [|d ds Hd _ IH]; [constructor|].
  cbn [map]. constructor; [apply hex_at_range; exact Hd|exact IH].
Qed.

Lemma hex_text_length k n : length (hex_text k n) = k.
Proof. unfold hex_text. now rewrite length_map, nibbles_of_length. Qed.

(** The characters of a text in a buffer, read back. *)
Lemma cstr_c_string p :
  Forall (fun c => 0 <= c < 256) (c_content p) -> cstr (c_string p) = c_content p.
Proof.
  unfold c_string, cstr. rewrite list_ascii_of_string_of_list_ascii.
  induction 1 as [|c l Hc _ IH]; [reflexivity|].
  cbn [map]. f_equal; [|exact IH].
  unfold chr. rewrite N_ascii_embedding by lia. lia.
Qed.

Lemma c_content_text (w rest : list Z) :
  Forall (fun c => 0 < c < 128) w -> c_content (w ++ 0 :: rest) = w.
Proof.
  induction 1 as [|c l Hc _ IH]; [reflexivity|].
  cbn [app c_content]. replace (c =? 0) with false by (symmetry; apply Z.eqb_neq; lia).
  f_equal. exact IH.
Qed.

Lemma c_content_idem p : c_content (c_content p) = c_content p.
Proof.
  induction p as [|c p IH]; [reflexivity|].
  cbn [c_content]. destruct (c =? 0) eqn:E; [reflexivity|].
  cbn [c_content]. rewrite E. f_equal. exact IH.
Qed.

(** The second loop writes the [k] low nibbles of the number. *)
Lemma digits_loop_writes : forall (k fuel : nat) number (buf : list Z),
  (k <= length buf)%nat -> (k < fuel)%nat ->
  digits_loop fuel (Z.of_nat k - 1) number buf
  = Some (hex_text k number ++ drop k buf).
Proof.
  induction k as [|k IH]; intros fuel number buf Hlen Hfuel.
  - destruct fuel as [|fuel]; [lia|]. reflexivity.
  - destruct fuel as [|fuel]; [lia|]. cbn [digits_loop].
    replace (Z.of_nat (S k) - 1 >=? 0) with true
      by (symmetry; rewrite Z.geb_leb; apply Z.leb_le; lia).
    unfold store_char.
    replace ((0 <=? Z.of_nat (S k) - 1) && (Z.of_nat (S k) - 1 <? Z.of_nat (length buf)))
      with true
      by (symmetry; apply andb_true_intro; split;
          [apply Z.leb_le|apply Z.ltb_lt]; lia).
    replace (Z.to_nat (Z.of_nat (S k) - 1)) with k by lia.
    replace (Z.of_nat (S k) - 1 - 1) with (Z.of_nat k - 1) by lia.
    rewrite IH by (rewrite ?length_insert; lia).
    f_equal. unfold hex_text. cbn [nibbles_of]. rewrite map_app, <- app_assoc.
    rewrite Z.shiftr_div_pow2 by lia. change (2 ^ 4) with 16.
    f_equal. cbn [map app].
    change 15 with (Z.ones 4). rewrite Z.land_ones by lia. change (2 ^ 4) with 16.
    destruct (lookup_lt_is_Some_2 buf k ltac:(lia)) as [b Hb].
    rewrite drop_insert_ge by lia. rewrite Nat.sub_diag.
    rewrite (drop_S buf b k Hb). reflexivity.
Qed.

(** The first loop clears the first 13 characters. *)
Lemma zero_loop_writes : forall (n fuel : nat) (i : nat) (buf : list Z),
  (i + n = 13)%nat -> (13 <= length buf)%nat -> (n < fuel)%nat ->
  zero_loop fuel (Z.of_nat i) buf
  = Some (take i buf ++ replicate n 0 ++ drop 13 buf).
Proof.
  induction n as [|n IH]; intros fuel i buf Hin Hlen Hfuel.
  - destruct fuel as [|fuel]; [lia|]. cbn [zero_loop].
    replace (Z.of_nat i <? 13) with false by (symmetry; apply Z.ltb_ge; lia).
    replace i with 13%nat by lia. cbn [replicate app]. now rewrite take_drop.
  - destruct fuel as [|fuel]; [lia|]. cbn [zero_loop].
    replace (Z.of_nat i <? 13) with true by (symmetry; apply Z.ltb_lt; lia).
    unfold store_char.
    replace ((0 <=? Z.of_nat i) && (Z.of_nat i <? Z.of_nat (length buf))) with true
      by (symmetry; apply andb_true_intro; split;
          [apply Z.leb_le|apply Z.ltb_lt]; lia).
    rewrite Nat2Z.id. replace (Z.of_nat i + 1) with (Z.of_nat (S i)) by lia.
    rewrite IH by (rewrite ?length_insert; lia).
    f_equal. rewrite take_insert_lt by lia.
    rewrite drop_insert_lt by lia.
    destruct (lookup_lt_is_Some_2 buf i ltac:(lia)) as [b Hb].
    rewrite (take_S_r buf i b Hb).
    rewrite insert_app_r_alt by (rewrite length_take; lia).
    rewrite length_take. replace (i - i `min` length buf)%nat with 0%nat by lia.
    cbn [replicate]. rewrite <- app_assoc. reflexivity.
Qed.

Lemma zero_loop_overrun : forall (n fuel : nat) (i : nat) (buf : list Z),
  (i + n = 13)%nat -> (i <= length buf < 13)%nat -> (n < fuel)%nat ->
  zero_loop fuel (Z.of_nat i) buf = None.
Proof.
  induction n as [|n IH]; intros fuel i buf Hin Hlen Hfuel; [lia|].
  destruct fuel as [|fuel]; [lia|]. cbn [zero_loop].
  replace (Z.of_nat i <? 13) with true by (symmetry; apply Z.ltb_lt; lia).
  unfold store_char.
  replace (0 <=? Z.of_nat i) with true by (symmetry; apply Z.leb_le; lia).
  cbn [andb].
  destruct (Z.ltb_spec (Z.of_nat i) (Z.of_nat (length buf))) as [Hlt|Hge];
    [|reflexivity].
  replace (Z.of_nat i + 1) with (Z.of_nat (S i)) by lia.
  apply IH; rewrite ?length_insert; lia.
Qed.

Lemma nibbles_of_value ds :
  Forall (fun d => 0 <= d < 16) ds -> nibbles_of (length ds) (nibbles_value ds) = ds.
Proof.
  induction ds as [|d ds IH] using rev_ind; intros HF; [reflexivity|].
  apply Forall_app in HF. destruct HF as [HF Hd].
  apply Forall_cons_1 in Hd. destruct Hd as [Hd _].
  rewrite length_app, Nat.add_1_r, nibbles_value_snoc. cbn [nibbles_of length].
  replace ((nibbles_value ds * 16 + d) / 16) with (nibbles_value ds)
    by (Z.to_euclidean_division_equations; lia).
  replace ((nibbles_value ds * 16 + d) mod 16) with d
    by (Z.to_euclidean_division_equations; lia).
  now rewrite IH.
Qed.

Lemma to_int64_small x : - 2 ^ 63 <= x < 2 ^ 63 -> to_int64 x = x.
Proof.
  intros Hx. unfold to_int64.
  change (2 ^ 63) with 9223372036854775808 in *.
  change (2 ^ 64) with 18446744073709551616.
  Z.to_euclidean_division_equations. lia.
Qed.

Lemma to_int64_mod_2_48 x : to_int64 x mod 2 ^ 48 = x mod 2 ^ 48.
Proof.
  unfold to_int64.
  change (2 ^ 63) with 9223372036854775808.
  change (2 ^ 64) with 18446744073709551616.
  change (2 ^ 48) with 281474976710656.
  Z.to_euclidean_division_equations. lia.
Qed.

Lemma nibbles_of_mod k n : nibbles_of k n = nibbles_of k (n mod 16 ^ Z.of_nat k).
Proof.
  rewrite <- (nibbles_value_of k n).
  pose proof (nibbles_of_value (nibbles_of k n) (nibbles_of_range k n)) as H.
  rewrite nibbles_of_length in H. symmetry. exact H.
Qed.

Lemma hex_text_to_int64 number : hex_text 12 (to_int64 number) = hex_text 12 number.
Proof.
  unfold hex_text. f_equal.
  rewrite (nibbles_of_mod 12 (to_int64 number)), (nibbles_of_mod 12 number).
  f_equal. change (16 ^ Z.of_nat 12) with (2 ^ 48). apply to_int64_mod_2_48.
Qed.

Lemma number_2_mac_cstr_writes number buf sizeof_mac_cstr :
  to_int64 number <> -1 -> 13 <= to_uint8 sizeof_mac_cstr -> (13 <= length buf)%nat ->
  number_2_mac_cstr number (Some buf) sizeof_mac_cstr
  = Some (true, Some (hex_text 12 number ++ 0 :: drop 13 buf)).
Proof.
  intros Hn Hs Hlen. unfold number_2_mac_cstr. cbv zeta.
  replace (-1 =? to_int64 number) with false by (symmetry; apply Z.eqb_neq; lia).
  replace (13 >? to_uint8 sizeof_mac_cstr) with false
    by (symmetry; rewrite Z.gtb_ltb; apply Z.ltb_ge; lia).
  cbn [orb].
  change (digits_loop 13 11 (to_int64 number) buf)
    with (digits_loop 13 (Z.of_nat 12 - 1) (to_int64 number) buf).
  rewrite (digits_loop_writes 12 13 (to_int64 number) buf) by lia.
  rewrite hex_text_to_int64.
  unfold store_char. rewrite length_app, hex_text_length, length_drop.
  replace ((0 <=? 12) && (12 <? Z.of_nat (12 + (length buf - 12)))) with true
    by (symmetry; apply andb_true_intro; split;
        [apply Z.leb_le|apply Z.ltb_lt]; lia).
  do 3 f_equal. change (Z.to_nat 12) with 12%nat.
  rewrite insert_app_r_alt by (rewrite hex_text_length; lia).
  rewrite hex_text_length, Nat.sub_diag.
  destruct (lookup_lt_is_Some_2 buf 12 ltac:(lia)) as [b Hb].
  rewrite (drop_S buf b 12 Hb). reflexivity.
Qed.

Lemma c_content_nonzero (w : list Z) :
  Forall (fun c => 0 < c < 128) w -> c_content w = w.
Proof.
  induction 1 as [|c l Hc _ IH]; [reflexivity|].
  cbn [c_content]. replace (c =? 0) with false by (symmetry; apply Z.eqb_neq; lia).
  f_equal. exact IH.
Qed.

Lemma mac_of_text (w : list Z) :
  length (hex_digits w) = 12%nat -> Forall (fun c => 0 < c < 128) w ->
  (length w <= 17)%nat ->
  mac_cstr_to_number (c_string w) = nibbles_value (hex_digits w).
Proof.
  intros Hd Hw Hlen. rewrite mac_cstr_to_number_digits. unfold mac_window.
  assert (Hc : c_content w = w) by (apply c_content_nonzero; exact Hw).
  rewrite cstr_c_string
    by (rewrite Hc; eapply Forall_impl; [exact Hw|]; simpl; intros; lia).
  rewrite c_content_idem, Hc. rewrite take_ge by lia.
  rewrite Hd. cbn [Nat.leb]. rewrite take_ge by lia. reflexivity.
Qed.

Lemma mac_of_hex_text (w rest : list Z) :
  length (hex_digits w) = 12%nat -> Forall (fun c => 0 < c < 128) w ->
  (length w <= 17)%nat ->
  mac_cstr_to_number (c_string (w ++ 0 :: rest)) = nibbles_value (hex_digits w).
Proof.
  intros Hd Hw Hlen. rewrite <- (mac_of_text w) by assumption.
  unfold c_string. rewrite c_content_text, c_content_nonzero by assumption.
  reflexivity.
Qed.

(** X12. [number_2_mac_cstr] and [mac_cstr_to_number] (the former under
    [#if false]): when the number, as the [int64_t] the function
    receives, is not -1, the size, as the [uint8_t] it receives, is at
    least 13, and the buffer has at least 13 characters, the call
    returns [true], writes the twelve low nibbles of the number as
    upper-case hexadecimal digits and a terminator, and leaves the rest
    of the buffer as it was; the parser reads the text back as the
    number cut to 48 bits, so that a MAC below [2 ^ 48] is read back as
    itself. *)
Theorem mac_text_round_trip number buf sizeof_mac_cstr :
  to_int64 number <> -1 -> 13 <= to_uint8 sizeof_mac_cstr ->
  (13 <= length buf)%nat ->
  exists buf',
    number_2_mac_cstr number (Some buf) sizeof_mac_cstr = Some (true, Some buf') /\
    buf' = hex_text 12 number ++ 0 :: drop 13 buf /\
    length buf' = length buf /\
    mac_cstr_to_number (c_string buf') = number mod 2 ^ 48.
Proof.
  intros Hn Hs Hlen. eexists. split; [|split; [reflexivity|split]].
  - apply number_2_mac_cstr_writes; assumption.
  - rewrite length_app, hex_text_length. cbn [length]. rewrite length_drop. lia.
  - rewrite mac_of_hex_text.
    + rewrite hex_digits_hex_text, nibbles_value_of. reflexivity.
    + now rewrite hex_digits_hex_text, nibbles_of_length.
    + apply hex_text_range.
    + rewrite hex_text_length. lia.
Qed.

(** X12, at work: the number 0x001122AABBCC in a buffer of 13
    characters. *)
Lemma mac_text_round_trip_witness :
  exists buf',
    number_2_mac_cstr 73596058572 (Some (replicate 13 42)) 13 = Some (true, Some buf') /\
    buf' = hex_text 12 73596058572 ++ 0 :: drop 13 (replicate 13 42) /\
    length buf' = length (replicate 13 42) /\
    mac_cstr_to_number (c_string buf') = 73596058572 mod 2 ^ 48.
Proof.
  apply (mac_text_round_trip 73596058572 (replicate 13 42) 13).
  - vm_compute. discriminate.
  - vm_compute. discriminate.
  - simpl. lia.
Defined.

(** X13. The other way round: the number parsed from a text is written
    back by [number_2_mac_cstr], given a size that is at least 13 as the
    [uint8_t] the function receives, as the twelve digits the parser
    read, in upper case and without what stood between them. *)
Theorem mac_text_normal_form s buf sizeof_mac_cstr :
  mac_cstr_to_number s <> -1 -> 13 <= to_uint8 sizeof_mac_cstr ->
  (13 <= length buf)%nat ->
  number_2_mac_cstr (mac_cstr_to_number s) (Some buf) sizeof_mac_cstr
  = Some (true, Some (map hex_at (take 12 (hex_digits (mac_window s)))
                      ++ 0 :: drop 13 buf)).
Proof.
  intros Hs Hsz Hlen.
  pose proof (mac_success_range s Hs) as Hr.
  rewrite number_2_mac_cstr_writes; try assumption.
  2:{ rewrite to_int64_small; [lia|].
      change (2 ^ 48) with 281474976710656 in Hr.
      change (2 ^ 63) with 9223372036854775808. lia. }
  apply mac_success_iff in Hs.
  destruct (mac_success s Hs) as (Hv & _ & _). rewrite Hv.
  unfold hex_text.
  pose proof (nibbles_of_value (take 12 (hex_digits (mac_window s)))) as Hn.
  rewrite length_take in Hn.
  replace (12 `min` length (hex_digits (mac_window s)))%nat with 12%nat in Hn by lia.
  rewrite Hn by (apply Forall_take, hex_digits_range). reflexivity.
Qed.

(** X13, at work: ["aa-bb-cc-dd-ee-ff"]. *)
Lemma mac_text_normal_form_witness :
  number_2_mac_cstr (mac_cstr_to_number "aa-bb-cc-dd-ee-ff") (Some (replicate 13 0)) 13
  = Some (true, Some (map hex_at (take 12 (hex_digits (mac_window "aa-bb-cc-dd-ee-ff")))
                      ++ 0 :: drop 13 (replicate 13 0))).
Proof.
  apply (mac_text_normal_form "aa-bb-cc-dd-ee-ff" (replicate 13 0) 13).
  - vm_compute. discriminate.
  - vm_compute. discriminate.
  - simpl. lia.
Defined.

(** X14. [number_2_mac_cstr] refuses when the number, as the [int64_t]
    it receives, is -1 or the size, as the [uint8_t] it receives, is
    below 13 (a size of 256 is received as 0). It then returns [false]
    after clearing 13 characters whatever the size: a buffer of fewer
    than 13 characters, the very case the test on the size is about, is
    written past its end. With [NULL] it returns [false] and writes
    nothing. *)
Theorem number_2_mac_cstr_refusal number buf sizeof_mac_cstr :
  to_int64 number = -1 \/ to_uint8 sizeof_mac_cstr < 13 ->
  number_2_mac_cstr number None sizeof_mac_cstr = Some (false, None) /\
  number_2_mac_cstr number (Some buf) sizeof_mac_cstr
  = if (13 <=? length buf)%nat
    then Some (false, Some (replicate 13 0 ++ drop 13 buf))
    else None.
Proof.
  intros Hc. split; [reflexivity|]. unfold number_2_mac_cstr. cbv zeta.
  replace ((-1 =? to_int64 number) || (13 >? to_uint8 sizeof_mac_cstr)) with true.
  2:{ symmetry. apply orb_true_iff. destruct Hc as [Hc|Hc].
      - left. rewrite Hc. reflexivity.
      - right. rewrite Z.gtb_ltb. apply Z.ltb_lt. exact Hc. }
  change (zero_loop 14 0 buf) with (zero_loop 14 (Z.of_nat 0) buf).
  destruct (Nat.leb_spec 13 (length buf)) as [Hlen|Hlen].
  - rewrite (zero_loop_writes 13 14 0 buf) by lia. reflexivity.
  - rewrite (zero_loop_overrun 13 14 0 buf) by lia. reflexivity.
Qed.

(** X14, at work: a buffer of 6 characters, declared as such, and a
    buffer of 13 characters declared with the size 256. *)
Lemma number_2_mac_cstr_refusal_witness :
  number_2_mac_cstr 1 (Some (replicate 6 42)) 6 = None /\
  number_2_mac_cstr 1 (Some (replicate 13 42)) 256
  = Some (false, Some (replicate 13 0 ++ drop 13 (replicate 13 42))).
Proof.
  split.
  - refine (proj2 (number_2_mac_cstr_refusal 1 (replicate 6 42) 6 _)).
    right. vm_compute. reflexivity.
  - refine (proj2 (number_2_mac_cstr_refusal 1 (replicate 13 42) 256 _)).
    right. vm_compute. reflexivity.
Defined.

Lemma hex_digits_cons c l :
  hex_digits (c :: l)
  = match hex_val c with Some d => d :: hex_digits l | None => hex_digits l end.
Proof. reflexivity. Qed.

Lemma hex_pair_nibbles b :
  0 <= b < 256 -> hex_pair b = [hex_at (b / 16); hex_at (b mod 16)].
Proof.
  intros Hb. unfold hex_pair, number_2_hex_cstr_t. cbn [take].
  rewrite Z.shiftr_0_r, Z.shiftr_div_pow2 by lia.
  change 15 with (Z.ones 4). rewrite !Z.land_ones by lia.
  change (2 ^ 4) with 16. do 2 f_equal.
  Z.to_euclidean_division_equations; lia.
Qed.

Lemma mac_bytes_bytes_value b5 b4 b3 b2 b1 b0 :
  Forall (fun b => 0 <= b < 256) [b5; b4; b3; b2; b1; b0] ->
  mac_bytes (bytes_value [b5; b4; b3; b2; b1; b0]) = [b5; b4; b3; b2; b1; b0].
Proof.
  intros HF. repeat (apply Forall_cons_1 in HF; destruct HF as [? HF]).
  unfold mac_bytes, bytes_value. cbn [fold_left].
  change (2 ^ 40) with 1099511627776. change (2 ^ 32) with 4294967296.
  change (2 ^ 24) with 16777216. change (2 ^ 16) with 65536. change (2 ^ 8) with 256.
  repeat f_equal; Z.to_euclidean_division_equations; lia.
Qed.

(** X15. The bytes typed are the bytes sent: six bytes written as the
    pairs of digits of [number_2_hex_cstr_t] (under [#if false]), with
    nothing or one character that is no hexadecimal digit between the
    pairs, are parsed by [mac_cstr_to_number] to the number with these
    six bytes, the first one the most significant, and the packet
    [wake_on_lan] builds from it is six bytes 0xFF and sixteen copies of
    the six bytes. *)
Theorem mac_notation_bytes (sep bs : list Z) junk :
  length bs = 6%nat -> Forall (fun b => 0 <= b < 256) bs ->
  (length sep <= 1)%nat -> Forall (fun c => hex_val c = None /\ 0 < c < 128) sep ->
  mac_cstr_to_number (c_string (mac_notation sep bs)) = bytes_value bs /\
  fill_packet (mac_cstr_to_number (c_string (mac_notation sep bs))) (data_init junk)
  = replicate 6 255 ++ concat (replicate 16 bs).
Proof.
  intros Hlen HF Hsl Hsep.
  destruct bs as [|b5 [|b4 [|b3 [|b2 [|b1 [|b0 [|]]]]]]]; try discriminate Hlen.
  assert (Hm : mac_cstr_to_number (c_string (mac_notation sep [b5; b4; b3; b2; b1; b0]))
               = bytes_value [b5; b4; b3; b2; b1; b0]).
  { pose proof HF as HF'.
    repeat (apply Forall_cons_1 in HF'; destruct HF' as [? HF']).
    assert (Hhi : forall b, 0 <= b < 256 -> 0 <= b / 16 < 16)
      by (intros; Z.to_euclidean_division_equations; lia).
    assert (Hlo : forall b, 0 <= b < 256 -> 0 <= b mod 16 < 16)
      by (intros; Z.to_euclidean_division_equations; lia).
    cbn [mac_notation]. rewrite !hex_pair_nibbles by assumption.
    destruct sep as [|c [|]]; [| |simpl in Hsl; lia].
    - cbn [app]. rewrite mac_of_text.
      + rewrite !hex_digits_cons, !hex_val_hex_at by auto.
        change (hex_digits []) with (@nil Z).
        unfold nibbles_value, bytes_value. cbn [fold_left].
        Z.to_euclidean_division_equations; lia.
      + rewrite !hex_digits_cons, !hex_val_hex_at by auto. reflexivity.
      + repeat constructor; apply hex_at_range; auto.
      + simpl. lia.
    - apply Forall_cons_1 in Hsep. destruct Hsep as [[Hc Hr] _].
      cbn [app]. rewrite mac_of_text.
      + repeat (rewrite hex_digits_cons; rewrite ?Hc, ?hex_val_hex_at by auto).
        change (hex_digits []) with (@nil Z).
        unfold nibbles_value, bytes_value. cbn [fold_left].
        Z.to_euclidean_division_equations; lia.
      + repeat (rewrite hex_digits_cons; rewrite ?Hc, ?hex_val_hex_at by auto).
        reflexivity.
      + repeat constructor; try (apply hex_at_range; auto); lia.
      + simpl. lia. }
  split; [exact Hm|].
  rewrite Hm, fill_packet_magic. unfold magic_packet.
  now rewrite mac_bytes_bytes_value.
Qed.

(** X15, at work: [00:11:22:33:44:55]. *)
Lemma mac_notation_bytes_witness :
  mac_cstr_to_number (c_string (mac_notation [chr ":"] [0; 17; 34; 51; 68; 85]))
  = bytes_value [0; 17; 34; 51; 68; 85] /\
  fill_packet
    (mac_cstr_to_number (c_string (mac_notation [chr ":"] [0; 17; 34; 51; 68; 85])))
    (data_init [])
  = replicate 6 255 ++ concat (replicate 16 [0; 17; 34; 51; 68; 85]).
Proof.
  apply (mac_notation_bytes [chr ":"] [0; 17; 34; 51; 68; 85] []).
  - reflexivity.
  - repeat constructor; lia.
  - simpl. lia.
  - repeat constructor; vm_compute; reflexivity.
Defined.

Lemma c_content_strncpy : forall n s,
  c_content (cstr (Cli.strncpy s n)) = take n (c_content (cstr s)).
Proof.
  induction n as [|n IH]; intros [|a s]; try reflexivity.
  change (cstr (String a s)) with (chr a :: cstr s).
  cbn [Cli.strncpy c_content].
  destruct (chr a =? 0) eqn:E; [reflexivity|].
  change (cstr (String a (Cli.strncpy s n)))
    with (chr a :: cstr (Cli.strncpy s n)).
  cbn [c_content take]. rewrite E, IH. reflexivity.
Qed.

(** X16. [main] keeps at most 29 characters of the text given with
    [-m]; [mac_cstr_to_number] looks at no more than 17, so the copy,
    cut at any length from 17 on, is parsed as the text itself. *)
Theorem mac_survives_strncpy s n :
  (17 <= n)%nat ->
  mac_cstr_to_number (Cli.strncpy s n) = mac_cstr_to_number s.
Proof.
  intros Hn. rewrite !mac_cstr_to_number_digits. unfold mac_window.
  rewrite c_content_strncpy, take_take.
  replace (17 `min` n)%nat with 17%nat by lia. reflexivity.
Qed.

(** X16, at work: a text of 40 characters and the 29 that [main] keeps. *)
Lemma mac_survives_strncpy_witness :
  mac_cstr_to_number (Cli.strncpy "00:11:22:33:44:55 (the machine upstairs)" 29)
  = mac_cstr_to_number "00:11:22:33:44:55 (the machine upstairs)".
Proof.
  apply (mac_survives_strncpy "00:11:22:33:44:55 (the machine upstairs)" 29). lia.
Defined.

(** X17. The eight [GET_BYTE_k] macros: whatever the width of the cast
    in each, [GET_BYTE_k(NO)] is byte [k] of the number, for every
    number; together they are the base-256 digits of the number cut to
    64 bits. *)
Theorem GET_BYTE_digits no :
  [GET_BYTE_0 no; GET_BYTE_1 no; GET_BYTE_2 no; GET_BYTE_3 no;
   GET_BYTE_4 no; GET_BYTE_5 no; GET_BYTE_6 no; GET_BYTE_7 no]
  = map (fun k => no / 2 ^ (8 * k) mod 256) [0; 1; 2; 3; 4; 5; 6; 7] /\
  bytes_value [GET_BYTE_7 no; GET_BYTE_6 no; GET_BYTE_5 no; GET_BYTE_4 no;
               GET_BYTE_3 no; GET_BYTE_2 no; GET_BYTE_1 no; GET_BYTE_0 no]
  = to_uint64 no.
Proof.
  assert (H : [GET_BYTE_0 no; GET_BYTE_1 no; GET_BYTE_2 no; GET_BYTE_3 no;
               GET_BYTE_4 no; GET_BYTE_5 no; GET_BYTE_6 no; GET_BYTE_7 no]
              = map (fun k => no / 2 ^ (8 * k) mod 256) [0; 1; 2; 3; 4; 5; 6; 7]).
  { pose proof (GET_BYTE_spec no) as Hs. unfold mac_bytes in Hs.
    injection Hs as H5 H4 H3 H2 H1 H0.
    cbn [map]. rewrite H0, H1, H2, H3, H4, H5.
    unfold GET_BYTE_6, GET_BYTE_7, to_uint64.
    change 255 with (Z.ones 8). rewrite !Z.land_ones, !Z.shiftr_div_pow2 by lia.
    rewrite !byte_of_trunc by lia.
    change (8 * 0) with 0. rewrite Z.pow_0_r, Z.div_1_r. reflexivity. }
  split; [exact H|].
  cbn [map] in H.
  injection H as -> -> -> -> -> -> -> ->.
  unfold bytes_value, to_uint64. cbn [fold_left].
  replace (no / 2 ^ (8 * 7)) with (no / 256 / 256 / 256 / 256 / 256 / 256 / 256)
    by (rewrite !Z.div_div by lia; reflexivity).
  replace (no / 2 ^ (8 * 6)) with (no / 256 / 256 / 256 / 256 / 256 / 256)
    by (rewrite !Z.div_div by lia; reflexivity).
  replace (no / 2 ^ (8 * 5)) with (no / 256 / 256 / 256 / 256 / 256)
    by (rewrite !Z.div_div by lia; reflexivity).
  replace (no / 2 ^ (8 * 4)) with (no / 256 / 256 / 256 / 256)
    by (rewrite !Z.div_div by lia; reflexivity).
  replace (no / 2 ^ (8 * 3)) with (no / 256 / 256 / 256)
    by (rewrite !Z.div_div by lia; reflexivity).
  replace (no / 2 ^ (8 * 2)) with (no / 256 / 256)
    by (rewrite !Z.div_div by lia; reflexivity).
  change (2 ^ (8 * 1)) with 256. change (2 ^ (8 * 0)) with 1. rewrite Z.div_1_r.
  change (2 ^ 64) with 18446744073709551616.
  Z.to_euclidean_division_equations. lia.
Qed.

(** * The command line program *)

(** X18. What [main] prints, once the arguments are read: with [-s]
    nothing at all; else, when both [-i] and [-m] were given and the
    sender fails, one line with the message the table holds at the
    result, for every result (the test on the range 1 to 9 hides none),
    and then the help text when [-h] was given or [-i] or [-m] is
    missing. The sender is called exactly when both [-i] and [-m] were
    given, without a record, with the texts kept and the port. *)
Theorem main_output target sys argv l :
  Cli.parse_args argv Cli.locals_init = Some l ->
  exists o,
    Cli.main target sys argv = Some o /\
    Cli.sender_result o
    = (if Cli.parameter_i l && Cli.parameter_m l
       then Some (wake_on_lan target sys None (Cli.ip l) (Cli.port l) (Cli.mac l))
       else None) /\
    Cli.help_shown o = Cli.help l || negb (Cli.parameter_i l && Cli.parameter_m l) /\
    Cli.stdout o
    = if Cli.silent l then []
      else error_lines (Cli.sender_result o)
           ++ (if Cli.help_shown o then [Cli.help_text] else []).
Proof.
  intros Hl. unfold Cli.main. rewrite Hl.
  destruct (Cli.parameter_i l && Cli.parameter_m l).
  - destruct (wake_on_lan target sys None (Cli.ip l) (Cli.port l) (Cli.mac l));
      destruct (Cli.help l), (Cli.silent l); eexists; repeat split; reflexivity.
  - destruct (Cli.help l), (Cli.silent l); eexists; repeat split; reflexivity.
Qed.

(** X18, at work: an address that does not parse, with [-h]. *)
Lemma main_output_witness :
  exists o,
    Cli.main POSIX os_ok ["wol"; "-i"; "abc"; "-m"; "00:11:22:33:44:55"; "-h"]%string
    = Some o /\
    Cli.stdout o = [("Error: " ++ Cli.error_2 ++ Cli.LF)%string; Cli.help_text].
Proof.
  destruct (main_output POSIX os_ok
              ["wol"; "-i"; "abc"; "-m"; "00:11:22:33:44:55"; "-h"]%string
              {| Cli.ip := "abc"; Cli.port := 60000; Cli.mac := "00:11:22:33:44:55";
                 Cli.parameter_i := true; Cli.parameter_m := true;
                 Cli.help := true; Cli.silent := false |})
    as (o & Ho & Hs & Hh & Hout).
  - vm_compute. reflexivity.
  - exists o. split; [exact Ho|]. rewrite Hout, Hh, Hs. vm_compute. reflexivity.
Defined.




Lemma parse_args_app b : forall a l l',
  Cli.parse_args a l = Some l' -> Cli.parse_args (a ++ b) l = Cli.parse_args b l'.
Proof.
  induction a as [a IH] using (induction_ltof1 _ (@length string)).
  unfold ltof in IH. intros l l' H.
  destruct a as [|arg rest]; [injection H as <-; reflexivity|].
  cbn [app Cli.parse_args] in *.
  destruct (chr "-" =? char_at (cstr arg) 0); [|apply IH; [simpl; lia|exact H]].
  destruct (char_at (cstr arg) 1 =? chr "i").
  { destruct rest as [|v rest']; [discriminate H|].
    cbn [app]. apply IH; [simpl; lia|exact H]. }
  destruct (char_at (cstr arg) 1 =? chr "p").
  { destruct rest as [|v rest']; [discriminate H|].
    cbn [app]. apply IH; [simpl; lia|exact H]. }
  destruct (char_at (cstr arg) 1 =? chr "m").
  { destruct rest as [|v rest']; [discriminate H|].
    cbn [app]. apply IH; [simpl; lia|exact H]. }
  destruct (char_at (cstr arg) 1 =? chr "h"); [apply IH; [simpl; lia|exact H]|].
  destruct (char_at (cstr arg) 1 =? chr "s"); apply IH; (simpl; lia) || exact H.
Qed.

(** X20. Arguments are read from left to right and a later one
    overrides: after arguments [a] that are read completely, a further
    [-i] or [-m] with its value replaces the text kept (the first 29
    characters of the value) and sets its flag, and a further [-h] or
    [-s] sets its flag, whatever was given before. *)
Theorem parse_args_last_wins a value l l' :
  Cli.parse_args a l = Some l' ->
  Cli.parse_args (a ++ ["-i"%string; value]) l
  = Some {| Cli.ip := Cli.strncpy value 29; Cli.port := Cli.port l'; Cli.mac := Cli.mac l';
            Cli.parameter_i := true; Cli.parameter_m := Cli.parameter_m l';
            Cli.help := Cli.help l'; Cli.silent := Cli.silent l' |} /\
  Cli.parse_args (a ++ ["-m"%string; value]) l
  = Some {| Cli.ip := Cli.ip l'; Cli.port := Cli.port l'; Cli.mac := Cli.strncpy value 29;
            Cli.parameter_i := Cli.parameter_i l'; Cli.parameter_m := true;
            Cli.help := Cli.help l'; Cli.silent := Cli.silent l' |} /\
  Cli.parse_args (a ++ ["-h"%string]) l
  = Some {| Cli.ip := Cli.ip l'; Cli.port := Cli.port l'; Cli.mac := Cli.mac l';
            Cli.parameter_i := Cli.parameter_i l'; Cli.parameter_m := Cli.parameter_m l';
            Cli.help := true; Cli.silent := Cli.silent l' |} /\
  Cli.parse_args (a ++ ["-s"%string]) l
  = Some {| Cli.ip := Cli.ip l'; Cli.port := Cli.port l'; Cli.mac := Cli.mac l';
            Cli.parameter_i := Cli.parameter_i l'; Cli.parameter_m := Cli.parameter_m l';
            Cli.help := Cli.help l'; Cli.silent := true |}.
Proof.
  intros H. rewrite !(parse_args_app _ a l l' H). repeat split; reflexivity.
Qed.

(** X20, at work: [-i] given twice. *)
Lemma parse_args_last_wins_witness :
  Cli.parse_args (["wol"; "-i"; "10.1"]%string ++ ["-i"; "10.2"]%string)
    Cli.locals_init
  = Some {| Cli.ip := "10.2"; Cli.port := 60000; Cli.mac := EmptyString;
            Cli.parameter_i := true; Cli.parameter_m := false;
            Cli.help := false; Cli.silent := false |}.
Proof.
  refine (proj1 (parse_args_last_wins ["wol"; "-i"; "10.1"]%string "10.2"
                   Cli.locals_init
                   {| Cli.ip := "10.1"; Cli.port := 60000; Cli.mac := EmptyString;
                      Cli.parameter_i := true; Cli.parameter_m := false;
                      Cli.help := false; Cli.silent := false |} _)).
  reflexivity.
Defined.

(** X21. No argument clears a flag: the flags of [-i], [-m], [-h] and
    [-s] that are set before some arguments are read are set
    afterwards. *)
Theorem parse_args_flags_kept : forall a l l',
  Cli.parse_args a l = Some l' -> flags_kept l l' = true.
Proof.
  assert (Hrefl : forall l, flags_kept l l = true).
  { intros l. unfold flags_kept.
    destruct (Cli.parameter_i l), (Cli.parameter_m l), (Cli.help l), (Cli.silent l);
      reflexivity. }
  assert (Htrans : forall l1 l2 l3,
            flags_kept l1 l2 = true -> flags_kept l2 l3 = true ->
            flags_kept l1 l3 = true).
  { intros l1 l2 l3. unfold flags_kept.
    destruct (Cli.parameter_i l1), (Cli.parameter_m l1), (Cli.help l1), (Cli.silent l1),
      (Cli.parameter_i l2), (Cli.parameter_m l2), (Cli.help l2), (Cli.silent l2),
      (Cli.parameter_i l3), (Cli.parameter_m l3), (Cli.help l3), (Cli.silent l3);
      simpl; congruence. }
  induction a as [a IH] using (induction_ltof1 _ (@length string)).
  unfold ltof in IH. intros l l' H.
  destruct a as [|arg rest]; [injection H as <-; apply Hrefl|].
  cbn [Cli.parse_args] in H.
  assert (Hstep : forall l1 r, (length r < length (arg :: rest))%nat ->
            flags_kept l l1 = true -> Cli.parse_args r l1 = Some l' ->
            flags_kept l l' = true).
  { intros l1 r Hr H1 H2. apply (Htrans l l1 l' H1). apply (IH r Hr l1 l' H2). }
  assert (Hset : forall x y z w : bool,
            implb (Cli.parameter_i l) (Cli.parameter_i l || x)
            && implb (Cli.parameter_m l) (Cli.parameter_m l || y)
            && implb (Cli.help l) (Cli.help l || z)
            && implb (Cli.silent l) (Cli.silent l || w) = true).
  { intros. destruct (Cli.parameter_i l), (Cli.parameter_m l), (Cli.help l),
      (Cli.silent l); reflexivity. }
  destruct (chr "-" =? char_at (cstr arg) 0);
    [|apply (Hstep l rest); [simpl; lia|apply Hrefl|exact H]].
  destruct (char_at (cstr arg) 1 =? chr "i").
  { destruct rest as [|v rest']; [discriminate H|].
    eapply Hstep; [|..|exact H]; [simpl; lia|].
    unfold flags_kept; cbn.
    destruct (Cli.parameter_i l), (Cli.parameter_m l), (Cli.help l), (Cli.silent l);
      reflexivity. }
  destruct (char_at (cstr arg) 1 =? chr "p").
  { destruct rest as [|v rest']; [discriminate H|].
    eapply Hstep; [|..|exact H]; [simpl; lia|].
    unfold flags_kept; cbn.
    destruct (Cli.parameter_i l), (Cli.parameter_m l), (Cli.help l), (Cli.silent l);
      reflexivity. }
  destruct (char_at (cstr arg) 1 =? chr "m").
  { destruct rest as [|v rest']; [discriminate H|].
    eapply Hstep; [|..|exact H]; [simpl; lia|].
    unfold flags_kept; cbn.
    destruct (Cli.parameter_i l), (Cli.parameter_m l), (Cli.help l), (Cli.silent l);
      reflexivity. }
  destruct (char_at (cstr arg) 1 =? chr "h").
  { eapply Hstep; [|..|exact H]; [simpl; lia|].
    unfold flags_kept; cbn.
    destruct (Cli.parameter_i l), (Cli.parameter_m l), (Cli.help l), (Cli.silent l);
      reflexivity. }
  destruct (char_at (cstr arg) 1 =? chr "s").
  { eapply Hstep; [|..|exact H]; [simpl; lia|].
    unfold flags_kept; cbn.
    destruct (Cli.parameter_i l), (Cli.parameter_m l), (Cli.help l), (Cli.silent l);
      reflexivity. }
  apply (Hstep l rest); [simpl; lia|apply Hrefl|exact H].
Qed.

(** X21, at work: [-s] before other arguments. *)
Lemma parse_args_flags_kept_witness :
  flags_kept
    {| Cli.ip := EmptyString; Cli.port := 60000; Cli.mac := EmptyString;
       Cli.parameter_i := false; Cli.parameter_m := false;
       Cli.help := false; Cli.silent := true |}
    {| Cli.ip := "10.1"; Cli.port := 60000; Cli.mac := EmptyString;
       Cli.parameter_i := true; Cli.parameter_m := false;
       Cli.help := true; Cli.silent := true |} = true.
Proof.
  apply (parse_args_flags_kept ["-i"; "10.1"; "-h"]%string). reflexivity.
Defined.

(** * Parts of any size, in decimal, in octal and in hexadecimal *)

Lemma digits_run_octal ds tail : Forall (fun d => 0 <= d <= 7) ds ->
  digit_val (char_at tail 0) = None ->
  forall acc,
    digits_run 8 (numeral ds ++ tail) acc
    = (fold_left (fun acc d => acc * 8 + d) ds acc, length ds).
Proof.
  intros Hds Hc. induction Hds as [|d ds Hd _ IH]; intros acc.
  - cbn [numeral map app fold_left length]. apply digits_run_end, Hc.
  - cbn [numeral map app digits_run]. fold (numeral ds).
    rewrite (digit_val_dec d) by lia. destruct (Z.ltb_spec d 8); [|lia].
    rewrite IH. reflexivity.
Qed.

Lemma hex_val_digit_val c d : hex_val c = Some d -> digit_val c = Some d.
Proof.
  unfold hex_val, digit_val. chr_eval.
  repeat match goal with
         | |- context [?a <=? ?b] => destruct (Z.leb_spec a b)
         end; simpl in *; intros Hd; inversion Hd; try (exfalso; lia);
    f_equal; lia.
Qed.

Lemma digits_run_hex cs tail : Forall (fun c => hex_val c <> None) cs ->
  digit_val (char_at tail 0) = None ->
  forall acc,
    digits_run 16 (cs ++ tail) acc
    = (fold_left (fun acc d => acc * 16 + d) (hex_digits cs) acc, length cs).
Proof.
  intros Hcs Hc. induction Hcs as [|c cs Hx _ IH]; intros acc.
  - cbn [app fold_left length]. apply digits_run_end, Hc.
  - cbn [app digits_run]. rewrite hex_digits_cons.
    destruct (hex_val c) as [d|] eqn:Hd; [|congruence].
    rewrite (hex_val_digit_val c d Hd).
    pose proof (hex_val_range c d Hd) as Hr.
    destruct (Z.ltb_spec d 16); [|lia].
    rewrite IH. reflexivity.
Qed.

(** [strtoumax] on a part: the number written, or [UINTMAX_MAX] when it
    is larger, and the whole part consumed. *)
Lemma strtoumax_part tok v tail :
  part_written tok v -> digit_val (char_at tail 0) = None ->
  isdigit (char_at tok 0) = true /\ (1 <= length tok)%nat /\
  strtoumax (tok ++ tail) 0 = (saturate v, length tok).
Proof.
  intros Hw Hc. destruct Hw as [ds Hds|ds Hds|x cs Hx Hne Hcs].
  - destruct ds as [|d ds]; [destruct Hds as [_ []]|].
    split; [|split].
    + apply isdigit_dec. apply (Forall_cons_1 _ _ _ (proj1 Hds)).
    + simpl. lia.
    + rewrite strtoumax_numeral by assumption. rewrite numeral_length.
      reflexivity.
  - split; [reflexivity|]. split; [simpl; lia|].
    unfold strtoumax. cbn [Z.eqb orb negb].
    cbn [app skip_space]. change (isspace (chr "0")) with false. cbv iota.
    unfold ptr_add. rewrite !drop_0. cbn [char_at nth].
    change (chr "0" =? chr "-") with false. change (chr "0" =? chr "+") with false.
    cbn [orb]. rewrite Z.eqb_refl.
    assert (Hnx : (nth 0 (numeral ds ++ tail) 0 =? chr "x")
                  || (nth 0 (numeral ds ++ tail) 0 =? chr "X") = false).
    { destruct ds as [|d ds]; [apply not_digit_not_x, Hc|].
      apply Forall_cons_1 in Hds. destruct Hds as [Hd _].
      cbn [numeral map app nth]. chr_eval.
      destruct (Z.eqb_spec (48 + d) 120); [lia|].
      destruct (Z.eqb_spec (48 + d) 88); [lia|]. reflexivity. }
    rewrite Hnx. cbn [andb]. rewrite drop_0. cbn [digits_run].
    change (digit_val (chr "0")) with (Some 0). cbn [Z.ltb Z.compare Z.mul Z.add].
    rewrite digits_run_octal by assumption.
    change (0 * 8 + 0) with 0. fold (oct_value ds).
    cbn [length]. rewrite numeral_length. reflexivity.
  - split; [reflexivity|]. split; [simpl; lia|].
    destruct cs as [|c cs]; [congruence|].
    pose proof (Forall_cons_1 _ _ _ Hcs) as [Hc0 _].
    destruct (hex_val c) as [d0|] eqn:Hd0; [|congruence].
    assert (H16 : is_digit_of 16 c = true).
    { unfold is_digit_of. rewrite (hex_val_digit_val c d0 Hd0).
      apply Z.ltb_lt. apply (hex_val_range c d0 Hd0). }
    unfold strtoumax. cbn [Z.eqb orb negb].
    cbn [app skip_space]. change (isspace (chr "0")) with false. cbv iota.
    unfold ptr_add. rewrite !drop_0. cbn [char_at nth].
    change (chr "0" =? chr "-") with false. change (chr "0" =? chr "+") with false.
    cbn [orb]. rewrite Z.eqb_refl.
    replace ((x =? chr "x") || (x =? chr "X")) with true
      by (destruct Hx as [-> | ->]; reflexivity).
    rewrite H16. cbn [andb drop].
    change (c :: cs ++ tail) with ((c :: cs) ++ tail).
    rewrite digits_run_hex by assumption.
    fold (nibbles_value (hex_digits (c :: cs))).
    reflexivity.
Qed.

(** One iteration of the loop at the first character of a part. *)
Lemma ip_loop_read_token n (pre tok tail : list Z) fuel st v :
  part_written tok v -> digit_val (char_at tail 0) = None ->
  (length pre < n)%nat -> (octet st < 4)%nat ->
  ip_loop (S fuel) (pre ++ tok ++ tail) n 0 (length pre) st =
  let st' := {| ip_octets := <[octet st := to_uint32 (saturate v)]> (ip_octets st);
                octet := S (octet st);
                part_at := part_at st ++ [length pre] |} in
  if negb (chr "." =? char_at tail 0) then st'
  else ip_loop fuel (pre ++ tok ++ tail) n 0 (S (length pre + length tok)) st'.
Proof.
  intros Hw Hc Hn Ho.
  destruct (strtoumax_part tok v tail Hw Hc) as (Hdig & Hlen & Hrd).
  rewrite ip_loop_S.
  assert (Hhd : char_at (pre ++ tok ++ tail) (length pre) = char_at tok 0).
  { rewrite <- (Nat.add_0_r (length pre)), <- char_at_drop. unfold ptr_add.
    rewrite drop_app_length. apply char_at_app_l. lia. }
  rewrite Hhd.
  replace (length pre <? n)%nat with true by (symmetry; apply Nat.ltb_lt; exact Hn).
  replace (octet st <? 4)%nat with true by (symmetry; apply Nat.ltb_lt; exact Ho).
  assert (Hnz : (char_at tok 0 =? 0) = false).
  { apply Z.eqb_neq. intros E. rewrite E in Hdig. discriminate Hdig. }
  rewrite Hnz. cbn [andb negb].
  rewrite <- isdigit_test, Hdig.
  unfold ptr_add. rewrite drop_app_length, Hrd. cbv zeta.
  assert (Hc' : char_at (pre ++ tok ++ tail) (length pre + length tok)
                = char_at tail 0).
  { rewrite app_assoc.
    replace (length pre + length tok)%nat with (length (pre ++ tok) + 0)%nat
      by (rewrite length_app; lia).
    rewrite <- char_at_drop. unfold ptr_add. rewrite drop_app_length. reflexivity. }
  rewrite Hc'. reflexivity.
Qed.

Lemma ip_parts_of_tokens ip n (A B C D tail : list Z) a b c d :
  part_written A a -> part_written B b -> part_written C c -> part_written D d ->
  digit_val (char_at tail 0) = None ->
  cstr ip = A ++ chr "." :: B ++ chr "." :: C ++ chr "." :: D ++ tail ->
  (length A + length B + length C + 3 < n)%nat ->
  ip_parts ip n 0 = [to_uint32 (saturate a); to_uint32 (saturate b);
                     to_uint32 (saturate c); to_uint32 (saturate d)].
Proof.
  intros HA HB HC HD Htail Hip Hn.
  assert (Hdot : forall t, digit_val (char_at (chr "." :: t) 0) = None)
    by reflexivity.
  destruct (strtoumax_part A a _ HA (Hdot [])) as (_ & HlA & _).
  destruct (strtoumax_part B b _ HB (Hdot [])) as (_ & HlB & _).
  destruct (strtoumax_part C c _ HC (Hdot [])) as (_ & HlC & _).
  unfold ip_parts, ip_scan_of. rewrite Hip.
  set (text := A ++ chr "." :: B ++ chr "." :: C ++ chr "." :: D ++ tail).
  destruct n as [|[|[|[|n]]]]; try lia.
  (* first part *)
  pose proof (ip_loop_read_token (S (S (S (S n)))) [] A
                (chr "." :: B ++ chr "." :: C ++ chr "." :: D ++ tail)
                (S (S (S n))) ip_scan_init a HA (Hdot _)) as H1.
  cbn [app length] in H1. fold text in H1. rewrite H1 by (simpl; lia). clear H1.
  cbv zeta. cbn [char_at nth]. rewrite Z.eqb_refl. cbn [negb].
  (* second part *)
  pose proof (ip_loop_read_token (S (S (S (S n)))) (A ++ [chr "."]) B
                (chr "." :: C ++ chr "." :: D ++ tail) (S (S n))) as H2.
  rewrite <- app_assoc in H2. cbn [app] in H2. fold text in H2.
  rewrite length_app in H2. cbn [length] in H2.
  replace (S (0 + length A)) with (length A + 1)%nat by lia.
  rewrite (H2 _ b) by (simpl; try assumption; try apply Hdot; lia). clear H2.
  cbv zeta. cbn [char_at nth]. rewrite Z.eqb_refl. cbn [negb].
  (* third part *)
  pose proof (ip_loop_read_token (S (S (S (S n))))
                (A ++ chr "." :: B ++ [chr "."]) C
                (chr "." :: D ++ tail) (S n)) as H3.
  rewrite <- app_assoc in H3. cbn [app] in H3. rewrite <- app_assoc in H3.
  cbn [app] in H3. fold text in H3.
  rewrite length_app in H3. cbn [length] in H3.
  rewrite length_app in H3. cbn [length] in H3.
  replace (S (length A + 1 + length B))
    with (length A + S (length B + 1))%nat by lia.
  rewrite (H3 _ c) by (simpl; try assumption; try apply Hdot; lia). clear H3.
  cbv zeta. cbn [char_at nth]. rewrite Z.eqb_refl. cbn [negb].
  (* fourth part *)
  pose proof (ip_loop_read_token (S (S (S (S n))))
                (A ++ chr "." :: B ++ chr "." :: C ++ [chr "."]) D tail n) as H4.
  rewrite <- app_assoc in H4. cbn [app] in H4. rewrite <- app_assoc in H4.
  cbn [app] in H4. rewrite <- app_assoc in H4. cbn [app] in H4. fold text in H4.
  rewrite length_app in H4. cbn [length] in H4.
  rewrite length_app in H4. cbn [length] in H4.
  rewrite length_app in H4. cbn [length] in H4.
  replace (S (length A + S (length B + 1) + length C))
    with (length A + S (length B + S (length C + 1)))%nat by lia.
  rewrite (H4 _ d) by (simpl; try assumption; lia). clear H4.
  cbv zeta.
  match goal with
  | |- context [if ?b then ?s else ip_loop ?f ?t ?m ?z ?k ?s] =>
      replace (if b then s else ip_loop f t m z k s) with s
        by (destruct b; [reflexivity|symmetry; apply ip_loop_full_stop; reflexivity])
  end.
  reflexivity.
Qed.

(** The address of a dotted quad of parts: the positional sum of the
    four numbers [strtoumax] returns, cut to 32 bits. *)
Lemma ip_of_tokens ip n (A B C D tail : list Z) a b c d :
  part_written A a -> part_written B b -> part_written C c -> part_written D d ->
  digit_val (char_at tail 0) = None ->
  cstr ip = A ++ chr "." :: B ++ chr "." :: C ++ chr "." :: D ++ tail ->
  (length A + length B + length C + 3 < n)%nat ->
  ip_cstr_to_number ip n 0
  = (saturate a * 2 ^ 24 + saturate b * 2 ^ 16 + saturate c * 2 ^ 8 + saturate d)
    mod 2 ^ 32.
Proof.
  intros HA HB HC HD Htail Hip Hn.
  pose proof (ip_result_of_parts ip n 0) as Hr.
  rewrite (ip_parts_of_tokens ip n A B C D tail a b c d) in Hr by assumption.
  rewrite Hr. cbn [ip_sum]. apply to_uint32_quad.
Qed.

Lemma saturate_small v : v <= UINTMAX_MAX -> saturate v = v.
Proof.
  intros Hv. unfold saturate.
  destruct (Z.ltb_spec UINTMAX_MAX v); [lia|reflexivity].
Qed.

(** C7, as amended. No part is checked against 255, and no value of a
    part makes the parse fail: the parser fails exactly when no decimal
    digit stands among the first [sizeof_ip] characters of the text;
    otherwise its result is the positional sum of the parts cut to 32
    bits. For a dotted quad of decimal numbers of any size whose last
    part starts inside the scan length, the result is
    [(a<<24) + (b<<16) + (c<<8) + d] cut to 32 bits, where each number
    from [2 ^ 64] on counts as [2 ^ 64 - 1], the value [strtoumax]
    returns for it; the numbers below [2 ^ 64] are taken as written: a
    part above 255 spills into the higher bytes and the top of the sum
    is lost. ["1.256.0.0"] gives the address of ["2.0.0.0"],
    ["0.0.1.256"] that of ["0.0.2.0"], ["256.0.0.1"] that of
    ["0.0.0.1"], and ["0.0.0.18446744073709551616"] that of
    ["0.0.0.4294967295"]. *)
Theorem ip_parts_not_validated ip n base :
  (ip_cstr_to_number ip n base = -1 <->
   existsb isdigit (take n (c_content (cstr ip))) = false) /\
  (ip_cstr_to_number ip n base <> -1 ->
   ip_cstr_to_number ip n base = ip_sum (ip_parts ip n base) mod 2 ^ 32) /\
  (forall A B C D tail : list Z,
     dec_numeral A -> dec_numeral B -> dec_numeral C -> dec_numeral D ->
     digit_val (char_at tail 0) = None ->
     cstr ip = numeral A ++ chr "." :: numeral B ++ chr "." :: numeral C
               ++ chr "." :: numeral D ++ tail ->
     (length A + length B + length C + 3 < n)%nat ->
     ip_cstr_to_number ip n 0
     = (saturate (dec_value A) * 2 ^ 24 + saturate (dec_value B) * 2 ^ 16
        + saturate (dec_value C) * 2 ^ 8 + saturate (dec_value D)) mod 2 ^ 32 /\
     (dec_value A <= UINTMAX_MAX -> dec_value B <= UINTMAX_MAX ->
      dec_value C <= UINTMAX_MAX -> dec_value D <= UINTMAX_MAX ->
      ip_cstr_to_number ip n 0
      = (dec_value A * 2 ^ 24 + dec_value B * 2 ^ 16 + dec_value C * 2 ^ 8
         + dec_value D) mod 2 ^ 32)) /\
  (ip_parts "1.256.0.0" 13 0 = [1; 256; 0; 0] /\
   ip_cstr_to_number "1.256.0.0" 13 0 = ip_cstr_to_number "2.0.0.0" 13 0) /\
  (ip_parts "0.0.1.256" 13 0 = [0; 0; 1; 256] /\
   ip_cstr_to_number "0.0.1.256" 13 0 = ip_cstr_to_number "0.0.2.0" 13 0) /\
  (ip_parts "256.0.0.1" 13 0 = [256; 0; 0; 1] /\
   ip_cstr_to_number "256.0.0.1" 13 0 = ip_cstr_to_number "0.0.0.1" 13 0) /\
  (ip_parts "0.0.0.18446744073709551616" 13 0 = [0; 0; 0; 4294967295] /\
   ip_cstr_to_number "0.0.0.18446744073709551616" 13 0
   = ip_cstr_to_number "0.0.0.4294967295" 13 0).
Proof.
  split; [apply ip_failure_iff_no_digit|]. split; [|split].
  - intros Hne. apply ip_result_range. intros Hp.
    apply Hne, ip_failure_iff_no_part, Hp.
  - intros A B C D tail HA HB HC HD Htail Hip Hn.
    pose proof (ip_of_tokens ip n (numeral A) (numeral B) (numeral C) (numeral D)
                  tail _ _ _ _ (part_decimal A HA) (part_decimal B HB)
                  (part_decimal C HC) (part_decimal D HD) Htail Hip) as Hr.
    rewrite !numeral_length in Hr. specialize (Hr Hn).
    split; [exact Hr|].
    intros HvA HvB HvC HvD. rewrite Hr.
    now rewrite !saturate_small by assumption.
  - repeat split; vm_compute; reflexivity.
Qed.

(** C7, the theorem at work on an address with a part of 256. *)
Lemma ip_parts_not_validated_witness :
  ip_cstr_to_number "1.256.0.0" 13 0 <> -1 /\
  ip_cstr_to_number "1.256.0.0" 13 0
  = ip_sum (ip_parts "1.256.0.0" 13 0) mod 2 ^ 32 /\
  ip_cstr_to_number "1.256.0.0" 13 0
  = (dec_value [1] * 2 ^ 24 + dec_value [2; 5; 6] * 2 ^ 16 + dec_value [0] * 2 ^ 8
     + dec_value [0]) mod 2 ^ 32.
Proof.
  assert (H : ip_cstr_to_number "1.256.0.0" 13 0 <> -1) by (vm_compute; congruence).
  split; [exact H|]. split.
  - exact (proj1 (proj2 (ip_parts_not_validated "1.256.0.0" 13 0)) H).
  - refine (proj2 (proj1 (proj2 (proj2 (ip_parts_not_validated "1.256.0.0" 13 0)))
                     [1] [2; 5; 6] [0] [0] [] _ _ _ _ _ _ _) _ _ _ _).
    + split; [repeat constructor; lia|exact I].
    + split; [repeat constructor; lia|lia].
    + split; [repeat constructor; lia|exact I].
    + split; [repeat constructor; lia|exact I].
    + reflexivity.
    + reflexivity.
    + simpl. lia.
    + vm_compute. discriminate.
    + vm_compute. discriminate.
    + vm_compute. discriminate.
    + vm_compute. discriminate.
Defined.

(** C7, as the specification states it, fails for a part from [2 ^ 64]
    on: taken as written and cut to 32 bits, the last part of
    ["0.0.0.18446744073709551616"] would add 0 and the address would be
    0; the parser returns 4294967295, since [strtoumax] returns
    [UINTMAX_MAX] for it. *)
Lemma ip_part_from_2_64_is_not_verbatim :
  ip_cstr_to_number "0.0.0.18446744073709551616" 13 0 = 4294967295 /\
  dec_value [1; 8; 4; 4; 6; 7; 4; 4; 0; 7; 3; 7; 0; 9; 5; 5; 1; 6; 1; 6] = 2 ^ 64 /\
  (0 * 2 ^ 24 + 0 * 2 ^ 16 + 0 * 2 ^ 8 + 2 ^ 64) mod 2 ^ 32 = 0.
Proof. repeat split; vm_compute; reflexivity. Qed.

(** X22. With base 0, the base [wake_on_lan] passes, the parts of a
    dotted quad may each be written in decimal, in octal after a leading
    [0], or in hexadecimal after [0x] or [0X], as the comment on
    [ip_cstr_to_number] says. When the last part starts inside the scan
    length and is followed by a character that is no digit and no
    letter, the address is the positional sum of the four numbers, each
    one cut to [2 ^ 64 - 1] as [strtoumax] does, cut to 32 bits. A part
    such as [010] is therefore 8. *)
Theorem ip_parts_in_any_base ip n (A B C D tail : list Z) a b c d :
  part_written A a -> part_written B b -> part_written C c -> part_written D d ->
  digit_val (char_at tail 0) = None ->
  cstr ip = A ++ chr "." :: B ++ chr "." :: C ++ chr "." :: D ++ tail ->
  (length A + length B + length C + 3 < n)%nat ->
  ip_cstr_to_number ip n 0
  = (saturate a * 2 ^ 24 + saturate b * 2 ^ 16 + saturate c * 2 ^ 8 + saturate d)
    mod 2 ^ 32.
Proof.
  intros HA HB HC HD Htail Hip Hn.
  now apply (ip_of_tokens ip n A B C D tail).
Qed.

(** X22, at work: ["0x7F.0.0.010"] is 127.0.0.8. *)
Lemma ip_parts_in_any_base_witness :
  ip_cstr_to_number "0x7F.0.0.010" 13 0 = (127 * 2 ^ 24 + 0 * 2 ^ 16 + 0 * 2 ^ 8 + 8) mod 2 ^ 32.
Proof.
  refine (ip_parts_in_any_base "0x7F.0.0.010" 13
            (chr "0" :: chr "x" :: [chr "7"; chr "F"]) (numeral [0]) (numeral [0])
            (chr "0" :: numeral [1; 0]) [] 127 0 0 8
            (part_hexadecimal (chr "x") [chr "7"; chr "F"] _ _ _)
            (part_decimal [0] _) (part_decimal [0] _) (part_octal [1; 0] _)
            _ _ _).
  - left. reflexivity.
  - discriminate.
  - repeat constructor; vm_compute; discriminate.
  - split; [repeat constructor; lia|exact I].
  - split; [repeat constructor; lia|exact I].
  - repeat constructor; lia.
  - reflexivity.
  - reflexivity.
  - simpl. lia.
Defined.
